(** * Step-segment scheduling core of RepRapFirmware: a shallow embedding

    The development follows [src/Movement/Move.h], [src/Movement/Move.cpp]
    and [src/Movement/MoveSegment.cpp].

    - 32-bit unsigned clock values are integers in [0, 2^32) with the
      wrap-around written out ([wrap32]); the cast [(int32_t)] is [to_int32].
    - A [DriveMovement *] is the index of the object in the array [dms]
      ([None] is [nullptr]); a [DriveMovement **] is either the address of
      [activeDMs] or of the [nextDM] field of one object ([DMPtrPtr]).
    - Loops that walk a linked list take a [fuel] bound; the theorems show
      that a list of [n] nodes needs no more than [n + 1] iterations.
    - In the segment builder ([AddLinearSegments]) a [float] is an IEEE 754
      binary32 number, with the operations of the standard library's
      specification of floating-point arithmetic ([SpecFloat]).
    - In the compensation and bookkeeping code further below a [float] is
      idealised as an exact rational ([Q]); the statements there say so. *)

From Stdlib Require Import ZArith List Bool Lia Arith Sorted Permutation.
From Stdlib Require Import QArith Qfield Lqa.
From Stdlib Require Import SpecFloat.
Import ListNotations.

Local Open Scope Z_scope.

(** ** Machine integers *)

Module Int32.

Definition modulus : Z := 2 ^ 32.
Definition half_modulus : Z := 2 ^ 31.

(** The value of a [uint32_t] expression: reduction modulo 2^32. *)
Definition wrap32 (z : Z) : Z := z mod modulus.

(** [(int32_t)z] for a 32-bit pattern [z]. *)
Definition to_int32 (z : Z) : Z :=
  let u := wrap32 z in
  if u <? half_modulus then u else u - modulus.

(** [(int32_t)(a - b)] on [uint32_t] operands. *)
Definition sdiff (a b : Z) : Z := to_int32 (a - b).

Definition is_uint32 (z : Z) : Prop := 0 <= z < modulus.

End Int32.
Import Int32.

(** ** Single-precision numbers *)

(** [float] is IEEE 754 binary32: a 24-bit significand, exponents below 128,
    rounding to nearest with ties to even, signed zeros, infinities and NaN.
    The operations are those of [SpecFloat] at this format. *)
Definition float : Type := spec_float.

Definition float_prec : Z := 24.
Definition float_emax : Z := 128.

(** [a * b], [a / b], [a - b] and [-a] on operands of type [float]. *)
Definition fmul : float -> float -> float := SFmul float_prec float_emax.
Definition fdiv : float -> float -> float := SFdiv float_prec float_emax.
Definition fsub : float -> float -> float := SFsub float_prec float_emax.
Definition fneg : float -> float := SFopp.

(** The [float] nearest to an integer; [float_of_Z 0] is the literal [0.0]
    passed where a [float] is expected. *)
Definition float_of_Z (z : Z) : float :=
  binary_normalize float_prec float_emax z 0 false.

(** ** Data model *)

(** [MovementFlags] (declared in MoveSegment.h, which is not among the
    sources): a small bitset.  The scheduler only reads [checkEndstops];
    the remaining bits are kept as one integer. *)
Record MovementFlags := mkFlags {
  checkEndstops : bool;
  otherFlags : Z
}.

(** [flags.Clear()] *)
Definition flags_Clear : MovementFlags := mkFlags false 0.

(** [flags |= other] *)
Definition flags_or (a b : MovementFlags) : MovementFlags :=
  mkFlags (checkEndstops a || checkEndstops b)
          (Z.lor (otherFlags a) (otherFlags b)).

(** A [DriveMovement *]: the index of the pointee in [Move::dms]. *)
Definition DMPtr := option nat.

(** [DMState] is an [enum class : uint8_t]; its enumerators are compared by
    value ([state >= DMState::firstMotionState]). *)
Definition DMState := nat.

(** The fields of [DriveMovement] that the code of [Move] reads or writes. *)
Record DriveMovement := mkDM {
  drive : nat;
  nextDM : DMPtr;
  nextStepTime : Z;
  state : DMState;
  segmentFlags : MovementFlags;
  direction : bool;
  directionChanged : bool;
  segments : option nat;
  nextStep : Z
}.

Definition with_nextDM (d : DriveMovement) (n : DMPtr) : DriveMovement :=
  mkDM (drive d) n (nextStepTime d) (state d) (segmentFlags d)
       (direction d) (directionChanged d) (segments d) (nextStep d).

Definition with_state (d : DriveMovement) (s : DMState) : DriveMovement :=
  mkDM (drive d) (nextDM d) (nextStepTime d) s (segmentFlags d)
       (direction d) (directionChanged d) (segments d) (nextStep d).

Definition with_directionChanged (d : DriveMovement) (b : bool) : DriveMovement :=
  mkDM (drive d) (nextDM d) (nextStepTime d) (state d) (segmentFlags d)
       (direction d) b (segments d) (nextStep d).

(** Two objects that differ at most in their [nextDM] link. *)
Definition same_but_link (d d' : DriveMovement) : Prop :=
  d' = with_nextDM d (nextDM d').

(** The members of [Move] that the scheduling core uses. *)
Record Move := mkMove {
  dms : nat -> DriveMovement;
  activeDMs : DMPtr;
  movementAccumulators : nat -> Z;
  stepErrors : Z;
  numHiccups : Z;
  lastStepLowTime : Z;
  lastDirChangeTime : Z;
  simulating : bool;          (* simulationMode != SimulationMode::off *)
  (* the platform's bitmap of the drivers that may be stepped
     (Platform::GetSteppingEnabledDrivers); it is kept here because
     Move::CheckEndstops clears bits of it when it stops a single driver *)
  steppingEnabledDrivers : Z
}.

Definition set_dms (m : Move) (f : nat -> DriveMovement) : Move :=
  mkMove f (activeDMs m) (movementAccumulators m) (stepErrors m) (numHiccups m)
         (lastStepLowTime m) (lastDirChangeTime m) (simulating m)
         (steppingEnabledDrivers m).

Definition set_activeDMs (m : Move) (p : DMPtr) : Move :=
  mkMove (dms m) p (movementAccumulators m) (stepErrors m) (numHiccups m)
         (lastStepLowTime m) (lastDirChangeTime m) (simulating m)
         (steppingEnabledDrivers m).

Definition set_movementAccumulators (m : Move) (a : nat -> Z) : Move :=
  mkMove (dms m) (activeDMs m) a (stepErrors m) (numHiccups m)
         (lastStepLowTime m) (lastDirChangeTime m) (simulating m)
         (steppingEnabledDrivers m).

Definition set_stepErrors (m : Move) (n : Z) : Move :=
  mkMove (dms m) (activeDMs m) (movementAccumulators m) n (numHiccups m)
         (lastStepLowTime m) (lastDirChangeTime m) (simulating m)
         (steppingEnabledDrivers m).

Definition set_numHiccups (m : Move) (n : Z) : Move :=
  mkMove (dms m) (activeDMs m) (movementAccumulators m) (stepErrors m) n
         (lastStepLowTime m) (lastDirChangeTime m) (simulating m)
         (steppingEnabledDrivers m).

Definition set_lastStepLowTime (m : Move) (t : Z) : Move :=
  mkMove (dms m) (activeDMs m) (movementAccumulators m) (stepErrors m)
         (numHiccups m) t (lastDirChangeTime m) (simulating m)
         (steppingEnabledDrivers m).

Definition set_lastDirChangeTime (m : Move) (t : Z) : Move :=
  mkMove (dms m) (activeDMs m) (movementAccumulators m) (stepErrors m)
         (numHiccups m) (lastStepLowTime m) t (simulating m)
         (steppingEnabledDrivers m).

(** Assignment to one element of an array. *)
Definition upd {A : Type} (f : nat -> A) (i : nat) (v : A) : nat -> A :=
  fun j => if Nat.eqb j i then v else f j.

(** [dms[i].field = ...] *)
Definition upd_dm (m : Move) (i : nat) (f : DriveMovement -> DriveMovement) : Move :=
  set_dms m (upd (dms m) i (f (dms m i))).

(** A [DriveMovement **]: the address of [activeDMs] or of one [nextDM]. *)
Inductive DMPtrPtr :=
| ActiveDMsAddr
| NextDMAddr (i : nat).

(** [*dmp] *)
Definition load (m : Move) (dmp : DMPtrPtr) : DMPtr :=
  match dmp with
  | ActiveDMsAddr => activeDMs m
  | NextDMAddr i => nextDM (dms m i)
  end.

(** [*dmp = v] *)
Definition store (m : Move) (dmp : DMPtrPtr) (v : DMPtr) : Move :=
  match dmp with
  | ActiveDMsAddr => set_activeDMs m v
  | NextDMAddr i => upd_dm m i (fun d => with_nextDM d v)
  end.

(** ** Linked chains as sequences *)

(** [lseg nx p l q]: following the links [nx] from [p] visits exactly the
    nodes [l] and then arrives at [q]. *)
Fixpoint lseg (nx : nat -> option nat) (p : option nat) (l : list nat)
  (q : option nat) : Prop :=
  match l with
  | [] => p = q
  | i :: l' => p = Some i /\ lseg nx (nx i) l' q
  end.

(** The same traversal as a function, for evaluation. *)
Fixpoint walk (fuel : nat) (nx : nat -> option nat) (p : option nat)
  : option (list nat) :=
  match fuel with
  | O => None
  | S fuel' =>
      match p with
      | None => Some []
      | Some i =>
          match walk fuel' nx (nx i) with
          | Some l => Some (i :: l)
          | None => None
          end
      end
  end.

Definition links (m : Move) : nat -> DMPtr := fun i => nextDM (dms m i).

(** The active list of [m] is the sequence [l], ending in [nullptr]. *)
Definition active_list (m : Move) (l : list nat) : Prop :=
  lseg (links m) (activeDMs m) l None.

Definition active_list_of (fuel : nat) (m : Move) : option (list nat) :=
  walk fuel (links m) (activeDMs m).

(** ** Segments, move descriptors and the surroundings of [Move] *)

(** The part of a [MoveSegment] that [MoveSegment.cpp] uses: the link. *)
Record MoveSegment := mkSeg {
  next : option nat;
  seg_payload : Z
}.

(** The static members of [MoveSegment] ([freeList], [numCreated]) together
    with the heap the segments live in; [heapTop] is the first address that
    [new] has not handed out yet. *)
Record SegmentPool := mkPool {
  segs : nat -> MoveSegment;
  freeList : option nat;
  numCreated : Z;
  heapTop : nat
}.

(** The arguments of one call of [DriveMovement::AddSegment]. *)
Record SegmentArgs := mkArgs {
  arg_startTime : Z;
  arg_duration : Z;
  arg_distance : float;
  arg_u : float;
  arg_a : float;
  arg_flags : MovementFlags
}.

(** The fields of [DDA] that [AddLinearSegments] reads. *)
Record DDA := mkDDA {
  totalDistance : float;
  startSpeed : float;
  topSpeed : float;
  acceleration : float;
  deceleration : float
}.

(** Modelled from the spec: [PrepParams], which is declared in DDA.h, not
    among the sources.  The spec speaks of the "per-phase clock durations
    (accel/steady/decel)" of a move and of segment start times and durations
    in ticks, so the three durations are tick counts here; the two distances
    are [float] lengths.  With integer durations the tests
    [params.accelClocks > 0.0] read [0 < accelClocks], the casts
    [(uint32_t)params.accelClocks] keep the value, and
    [startTime + params.accelClocks] is a 32-bit sum. *)
Record PrepParams := mkPrep {
  accelClocks : Z;
  steadyClocks : Z;
  decelClocks : Z;
  accelDistance : float;
  decelStartDistance : float
}.

(** What the step interrupt does to the world outside [Move]. *)
Inductive Event :=
| CheckEndstopsCalled
| WakeAsyncSender
| BusyWait
| StepDriversHigh (drivers : Z)
| StepDriversLow (drivers : Z)
| SetDriverDirection (axisOrExtruder : nat) (dir : bool)
| CallbackScheduled (when : Z)
| MovementDelayIncreased (amount : Z)
| InsertHiccup (numClocks : Z)
| WakeMoveTask.

(** Modelled from the spec: the step timer (StepTimer.h and StepTimer.cpp are
    not among the sources).  The movement clock is the free-running hardware
    counter minus the delay that hiccups have inserted so far; [timerReads]
    counts the reads of the hardware counter, and [events] is the record of
    the outputs made so far, oldest first. *)
Record Hw := mkHw {
  timerReads : nat;
  movementDelay : Z;
  events : list Event
}.

Definition emit (h : Hw) (e : Event) : Hw :=
  mkHw (timerReads h) (movementDelay h) (events h ++ [e]).

(** Everything [Move] calls that lives in files outside the sources: the
    enumerators of [DMState], the constants of [MoveTiming], the platform,
    the per-drive stepping arithmetic of [DriveMovement], the endstop poll,
    the axis shaper and the hardware counter.  The theorems hold for every
    instance. *)
Class Env := mkEnv {
  (* DriveMovement.h *)
  idle : DMState;
  firstMotionState : DMState;
  CalcNextStepTime : DriveMovement -> DriveMovement;
  ScheduleFirstSegment : DriveMovement -> bool * DriveMovement;
  AddSegment : DriveMovement -> SegmentArgs -> DriveMovement;
  GetNetStepsTaken : DriveMovement -> Z;
  IsPrintingExtruderMovement : DriveMovement -> bool;
  (* CalcNextStepTime works on the stepping state of the drive, not on its
     place in the active list *)
  CalcNextStepTime_nextDM :
    forall d, nextDM (CalcNextStepTime d) = nextDM d;
  (* MoveTiming.h *)
  MaxStepInterruptTime : Z;
  HiccupTime : Z;
  HiccupIncrement : Z;
  (* Platform *)
  GetDriversBitmap : nat -> Z;
  GetSlowDriversBitmap : Z;
  (* build configuration *)
  SUPPORT_SLOW_DRIVERS : bool;
  SUPPORT_CAN_EXPANSION : bool;
  (* SUPPORT_REMOTE_COMMANDS is set and CanInterface::InExpansionMode()
     holds: this board is itself an expansion board *)
  InExpansionMode : bool;
  (* Move::CheckEndstops polls the endstops and stops drives.  Its body is
     in Move.cpp, but everything it does goes through code outside the
     sources (the endstops manager, DriveMovement::StopDriver, the
     kinematics, CanMotion), so it is taken as an arbitrary change of the
     state; the result says whether the CAN sender task has to be woken *)
  CheckEndstops : Move -> Move * bool;
  (* AxisShaper *)
  GetNumImpulses : nat;
  GetImpulseSize : nat -> float;
  GetImpulseDelay : nat -> Z;
  (* StepTimer: the value of the hardware counter at its n-th read, and
     whether a callback asked for at movement time [when] is already due *)
  TimerTicks : nat -> Z;
  CallbackAlreadyDue : Hw -> Z -> bool
}.

(** ** MoveSegment.cpp *)

(** Modelled from the spec: the constructor [MoveSegment(p_next)] (declared
    in MoveSegment.h) makes a node linked before [p_next]. *)
Definition new_MoveSegment (p_next : option nat) : MoveSegment :=
  mkSeg p_next 0.

(** [MoveSegment::Allocate] *)
Definition Allocate (pool : SegmentPool) (p_next : option nat)
  : option nat * SegmentPool :=
  match freeList pool with
  | Some ms =>
      let freeList' := next (segs pool ms) in
      let segs' := upd (segs pool) ms
                       (mkSeg p_next (seg_payload (segs pool ms))) in
      (Some ms, mkPool segs' freeList' (numCreated pool) (heapTop pool))
  | None =>
      let numCreated' := wrap32 (numCreated pool + 1) in
      let ms := heapTop pool in
      (Some ms,
       mkPool (upd (segs pool) ms (new_MoveSegment p_next)) None
              numCreated' (S (heapTop pool)))
  end.

(** The free list as a sequence of addresses. *)
Definition free_list (pool : SegmentPool) (l : list nat) : Prop :=
  lseg (fun i => next (segs pool i)) (freeList pool) l None.

(** ** The active list (Move.h) *)

(** The loop condition of [InsertDM], with [e] the node that [dmp] points at:
    [(int32_t)(e->nextStepTime - dm->nextStepTime) < 0]. *)
Definition steps_before (m : Move) (e dm : nat) : bool :=
  sdiff (nextStepTime (dms m e)) (nextStepTime (dms m dm)) <? 0.

(** The search loop of [InsertDM]: while [dmp] points at a node [e] that steps
    before [dm], advance [dmp] to the address of [e->nextDM]. *)
Fixpoint InsertDM_loop (fuel : nat) (m : Move) (dm : nat) (dmp : DMPtrPtr)
  : option DMPtrPtr :=
  match fuel with
  | O => None
  | S fuel' =>
      match load m dmp with
      | Some e =>
          if steps_before m e dm
          then InsertDM_loop fuel' m dm (NextDMAddr e)
          else Some dmp
      | None => Some dmp
      end
  end.

(** [Move::InsertDM] *)
Definition InsertDM (fuel : nat) (m : Move) (dm : nat) : option Move :=
  match InsertDM_loop fuel m dm ActiveDMsAddr with
  | Some dmp =>
      let m1 := upd_dm m dm (fun d => with_nextDM d (load m dmp)) in
      Some (store m1 dmp (Some dm))
  | None => None
  end.

(** Non-decreasing step times, in the wrap-around sense of [InsertDM]:
    each node is before, or at the same time as, its successor. *)
Definition time_le (m : Move) (a b : nat) : Prop :=
  sdiff (nextStepTime (dms m a)) (nextStepTime (dms m b)) <= 0.

Definition active_sorted (m : Move) (l : list nat) : Prop :=
  Sorted (time_le m) l.

(** Comparison of two [DriveMovement *]. *)
Definition ptr_eqb (p q : DMPtr) : bool :=
  match p, q with
  | None, None => true
  | Some i, Some j => Nat.eqb i j
  | _, _ => false
  end.

(** Sequencing of steps that can run out of fuel. *)
Notation "x <- e ;; k" :=
  (match e with Some x => k | None => None end)
  (at level 61, e at next level, right associativity).
Notation "' p <- e ;; k" :=
  (match e with Some p => k | None => None end)
  (at level 61, p pattern, e at next level, right associativity).

Section Model.
Context {E : Env}.

(** ** StepTimer *)

(** [StepTimer::GetTimerTicks] *)
Definition GetTimerTicks (h : Hw) : Z * Hw :=
  (wrap32 (TimerTicks (timerReads h)),
   mkHw (S (timerReads h)) (movementDelay h) (events h)).

(** [StepTimer::GetMovementTimerTicks] *)
Definition GetMovementTimerTicks (h : Hw) : Z * Hw :=
  let (raw, h') := GetTimerTicks h in
  (wrap32 (raw - movementDelay h), h').

(** [StepTimer::IncreaseMovementDelay] *)
Definition IncreaseMovementDelay (h : Hw) (increase : Z) : Hw :=
  emit (mkHw (timerReads h) (wrap32 (movementDelay h + increase)) (events h))
       (MovementDelayIncreased increase).

(** [timer.ScheduleMovementCallbackFromIsr(when)]: true if the callback
    cannot be scheduled because it is already due. *)
Definition ScheduleMovementCallbackFromIsr (h : Hw) (when : Z) : bool * Hw :=
  if CallbackAlreadyDue h when
  then (true, h)
  else (false, emit h (CallbackScheduled when)).

(** A spin on the hardware counter ([while (GetTimerTicks() - t < n) { }]).
    How long it lasts is a matter of real time; the model records that the
    wait took place and that the counter was read. *)
Definition busy_wait (h : Hw) : Hw :=
  emit (snd (GetTimerTicks h)) BusyWait.

(** ** Move.h: inline members *)

(** [Move::ScheduleNextStepInterrupt] *)
Definition ScheduleNextStepInterrupt (m : Move) (h : Hw) : bool * Hw :=
  match activeDMs m with
  | Some hd => ScheduleMovementCallbackFromIsr h (nextStepTime (dms m hd))
  | None => (false, h)
  end.

(** ** Move.cpp *)

(** [Move::DeactivateDM] *)
Fixpoint DeactivateDM_loop (fuel : nat) (m : Move) (dmToRemove : nat)
  (dmp : DMPtrPtr) : option Move :=
  match fuel with
  | O => None
  | S fuel' =>
      match load m dmp with
      | None => Some m
      | Some dm =>
          if Nat.eqb dm dmToRemove
          then
            let m1 := store m dmp (nextDM (dms m dm)) in
            Some (upd_dm m1 dm (fun d => with_state d idle))
          else DeactivateDM_loop fuel' m dmToRemove (NextDMAddr dm)
      end
  end.

Definition DeactivateDM (fuel : nat) (m : Move) (dmToRemove : nat)
  : option Move :=
  DeactivateDM_loop fuel m dmToRemove ActiveDMsAddr.

(** [Move::GetAccumulatedExtrusion]: the returned count, [isPrinting], and
    the state afterwards. *)
Definition GetAccumulatedExtrusion (m : Move) (logicalDrive : nat)
  : Z * bool * Move :=
  let ret := movementAccumulators m logicalDrive in
  let adjustment := GetNetStepsTaken (dms m logicalDrive) in
  let m' := set_movementAccumulators m
              (upd (movementAccumulators m) logicalDrive
                   (to_int32 (- adjustment))) in
  let isPrinting := IsPrintingExtruderMovement (dms m' logicalDrive) in
  (to_int32 (ret + adjustment), isPrinting, m').

(** The step is due: [(int32_t)(now - dm->nextStepTime) >= 0]. *)
Definition step_due (now : Z) (d : DriveMovement) : bool :=
  0 <=? sdiff now (nextStepTime d).

(** The first loop of [StepDrivers]: walk the active list while the step is
    due, collecting the driver bits and the segment flags; the result is the
    first node that is not due. *)
Fixpoint StepDrivers_due (fuel : nat) (m : Move) (now : Z) (dm : DMPtr)
  (driversStepping : Z) (flags : MovementFlags)
  : option (DMPtr * Z * MovementFlags) :=
  match fuel with
  | O => None
  | S fuel' =>
      match dm with
      | Some i =>
          if step_due now (dms m i)
          then StepDrivers_due fuel' m now (nextDM (dms m i))
                 (Z.lor driversStepping (GetDriversBitmap (drive (dms m i))))
                 (flags_or flags (segmentFlags (dms m i)))
          else Some (dm, driversStepping, flags)
      | None => Some (dm, driversStepping, flags)
      end
  end.

(** [for (dm2 = activeDMs; dm2 != dm; dm2 = dm2->nextDM) dm2->CalcNextStepTime();]
    Reaching [nullptr] before [dm] would dereference it: no result. *)
Fixpoint StepDrivers_calc (fuel : nat) (m : Move) (dm2 dm : DMPtr)
  : option Move :=
  match fuel with
  | O => None
  | S fuel' =>
      if ptr_eqb dm2 dm then Some m
      else
        match dm2 with
        | Some i =>
            let m1 := upd_dm m i CalcNextStepTime in
            StepDrivers_calc fuel' m1 (nextDM (dms m1 i)) dm
        | None => None
        end
  end.

(** [Move::SetDirection] (not DUET3_MB6XD) *)
Definition SetDirection (m : Move) (h : Hw) (axisOrExtruder : nat)
  (dir : bool) : Move * Hw :=
  let isSlowDriver :=
    negb (Z.land (GetDriversBitmap axisOrExtruder) GetSlowDriversBitmap =? 0) in
  let h1 := if isSlowDriver then busy_wait h else h in
  let h2 := emit h1 (SetDriverDirection axisOrExtruder dir) in
  if isSlowDriver
  then let (t, h3) := GetTimerTicks h2 in (set_lastDirChangeTime m t, h3)
  else (m, h2).

(** The body of the last loop of [StepDrivers], for the drive [dmToInsert]:
    a drive that is still moving goes back into the active list, after its
    direction pin has been updated if the direction changed; a drive that is
    neither moving nor idle is a step error. *)
Definition StepDrivers_reinsert_one (n : nat) (m : Move) (h : Hw)
  (dmToInsert : nat) : option (Move * Hw) :=
  if Nat.leb firstMotionState (state (dms m dmToInsert)) then
    let '(m1, h1) :=
      if directionChanged (dms m dmToInsert)
      then
        let m0 := upd_dm m dmToInsert (fun d => with_directionChanged d false) in
        SetDirection m0 h (drive (dms m0 dmToInsert))
                     (direction (dms m0 dmToInsert))
      else (m, h) in
    m2 <- InsertDM n m1 dmToInsert ;;
    Some (m2, h1)
  else if negb (Nat.eqb (state (dms m dmToInsert)) idle) then
    let m1 := set_stepErrors m (wrap32 (stepErrors m + 1)) in
    Some (upd_dm m1 dmToInsert (fun d => with_state d idle), h)
  else Some (m, h).

(** The last loop of [StepDrivers]: take the stepped drives one by one, up
    to the first drive [dm] that was not due.  Reaching [nullptr] before
    [dm] would dereference it: no result. *)
Fixpoint StepDrivers_reinsert (n fuel : nat) (m : Move) (h : Hw)
  (dmToInsert dm : DMPtr) : option (Move * Hw) :=
  match fuel with
  | O => None
  | S fuel' =>
      if ptr_eqb dmToInsert dm then Some (m, h)
      else
        match dmToInsert with
        | None => None
        | Some i =>
            let nextToInsert := nextDM (dms m i) in
            '(m1, h1) <- StepDrivers_reinsert_one n m h i ;;
            StepDrivers_reinsert n fuel' m1 h1 nextToInsert dm
        end
  end.

(** The middle of [StepDrivers] (not DUET3_MB6XD): pulse the step pins of
    the due drivers and compute the next step times of the due drives. *)
Definition StepDrivers_pulse (n : nat) (m : Move) (h : Hw) (dm : DMPtr)
  (driversStepping : Z) : option (Move * Hw) :=
  if SUPPORT_SLOW_DRIVERS
     && negb (Z.land driversStepping GetSlowDriversBitmap =? 0)
  then
    let h1 := busy_wait h in
    let h2 := emit h1 (StepDriversHigh driversStepping) in
    let (_, h3) := GetTimerTicks h2 in
    m1 <- StepDrivers_calc n m (activeDMs m) dm ;;
    let h4 := busy_wait h3 in
    let h5 := emit h4 (StepDriversLow driversStepping) in
    let (t, h6) := GetTimerTicks h5 in
    Some (set_lastStepLowTime m1 t, h6)
  else
    let h1 := emit h (StepDriversHigh driversStepping) in
    m1 <- StepDrivers_calc n m (activeDMs m) dm ;;
    Some (m1, emit h1 (StepDriversLow driversStepping)).

(** The start of [StepDrivers]: find the due drives, check the endstops if
    one of them asks for it and then look again.  The result is the state,
    the first node that is not due and the driver bits to pulse. *)
Definition StepDrivers_select (n : nat) (m : Move) (h : Hw) (now : Z)
  : option (Move * Hw * DMPtr * Z) :=
  '(dm, driversStepping, flags) <-
      StepDrivers_due n m now (activeDMs m) 0 flags_Clear ;;
  if checkEndstops flags then
    let h1 := emit h CheckEndstopsCalled in
    let (m1, wake) := CheckEndstops m in
    let h2 := if SUPPORT_CAN_EXPANSION && wake
              then emit h1 WakeAsyncSender else h1 in
    let (now', h3) := GetMovementTimerTicks h2 in
    '(dm', driversStepping', _) <-
        StepDrivers_due n m1 now' (activeDMs m1) 0 flags_Clear ;;
    Some (m1, h3, dm', driversStepping')
  else Some (m, h, dm, driversStepping).

(** [Move::StepDrivers]; [n] bounds the walks along the active list. *)
Definition StepDrivers (n : nat) (m : Move) (h : Hw) (now : Z)
  : option (Move * Hw) :=
  '(m1, h1, dm, driversStepping) <- StepDrivers_select n m h now ;;
  let driversStepping := Z.land driversStepping (steppingEnabledDrivers m1) in
  '(m2, h2) <- StepDrivers_pulse n m1 h1 dm driversStepping ;;
  let dmToInsert := activeDMs m2 in
  let m3 := set_activeDMs m2 dm in
  StepDrivers_reinsert n n m3 h2 dmToInsert dm.





(** The hiccup loop of [Move::Interrupt]:
    [for (hiccupTime = HiccupTime; ; hiccupTime += HiccupIncrement)]. *)
Fixpoint Interrupt_hiccup (fuel : nat) (m : Move) (h : Hw)
  (hiccupTime hiccupTimeInserted : Z) : option (Move * Hw) :=
  match fuel with
  | O => None
  | S fuel' =>
      let hiccupTimeInserted := wrap32 (hiccupTimeInserted + hiccupTime) in
      let h1 := IncreaseMovementDelay h hiccupTime in
      let (late, h2) := ScheduleNextStepInterrupt m h1 in
      if negb late then
        if SUPPORT_CAN_EXPANSION && negb InExpansionMode
        then Some (m, emit h2 (InsertHiccup hiccupTimeInserted))
        else Some (m, h2)
      else
        let (_, h3) := GetMovementTimerTicks h2 in
        Interrupt_hiccup fuel' m h3 (wrap32 (hiccupTime + HiccupIncrement))
                         hiccupTimeInserted
  end.

(** The [for (;;)] loop of [Move::Interrupt]. *)
Fixpoint Interrupt_loop (n fuel : nat) (m : Move) (h : Hw)
  (now isrStartTime : Z) : option (Move * Hw) :=
  match fuel with
  | O => None
  | S fuel' =>
      '(m1, h1) <- StepDrivers n m h now ;;
      match activeDMs m1 with
      | None => Some (m1, emit h1 WakeMoveTask)
      | Some _ =>
          let (late, h2) := ScheduleNextStepInterrupt m1 h1 in
          if negb late then Some (m1, h2)
          else
            let (now', h3) := GetMovementTimerTicks h2 in
            let clocksTaken := to_int32 (now' - isrStartTime) in
            if to_int32 MaxStepInterruptTime <=? clocksTaken then
              let m2 := set_numHiccups m1 (wrap32 (numHiccups m1 + 1)) in
              Interrupt_hiccup fuel' m2 h3 (wrap32 HiccupTime) 0
            else Interrupt_loop n fuel' m1 h3 now' isrStartTime
      end
  end.

(** [Move::Interrupt] *)
Definition Interrupt (n fuel : nat) (m : Move) (h : Hw) : option (Move * Hw) :=
  match activeDMs m with
  | Some _ =>
      let (now, h1) := GetMovementTimerTicks h in
      Interrupt_loop n fuel m h1 now now
  | None => Some (m, h)
  end.

(** The locals [steadyDistance] and [decelDistance] of [AddLinearSegments]. *)
Definition steadyDistance (params : PrepParams) : float :=
  fsub (decelStartDistance params) (accelDistance params).

Definition decelDistance (dda : DDA) (params : PrepParams) : float :=
  fsub (totalDistance dda) (decelStartDistance params).

(** The segments that [AddLinearSegments] adds for one impulse of the shaper. *)
Definition impulse_segments (dda : DDA) (startTime : Z) (params : PrepParams)
  (stepsPerMm : float) (moveFlags : MovementFlags) (index : nat)
  : list SegmentArgs :=
  let steadyStartTime := wrap32 (startTime + accelClocks params) in
  let decelStartTime := wrap32 (steadyStartTime + steadyClocks params) in
  let factor := fmul (GetImpulseSize index) stepsPerMm in
  (if 0 <? accelClocks params
   then [mkArgs (wrap32 (startTime + GetImpulseDelay index))
                (wrap32 (accelClocks params))
                (fmul (accelDistance params) factor)
                (fmul (startSpeed dda) factor)
                (fmul (acceleration dda) factor) moveFlags]
   else [])
  ++ (if 0 <? steadyClocks params
      then [mkArgs (wrap32 (steadyStartTime + GetImpulseDelay index))
                   (wrap32 (steadyClocks params))
                   (fmul (steadyDistance params) factor)
                   (fmul (topSpeed dda) factor) (float_of_Z 0) moveFlags]
      else [])
  ++ (if negb (decelClocks params =? 0)
      then [mkArgs (wrap32 (decelStartTime + GetImpulseDelay index))
                   (wrap32 (decelClocks params))
                   (fmul (decelDistance dda params) factor)
                   (fmul (topSpeed dda) factor)
                   (fneg (fmul (deceleration dda) factor)) moveFlags]
      else []).

(** The segments that [AddLinearSegments] adds without input shaping. *)
Definition unshaped_segments (dda : DDA) (startTime : Z) (params : PrepParams)
  (stepsPerMm : float) (moveFlags : MovementFlags) : list SegmentArgs :=
  let steadyStartTime := wrap32 (startTime + accelClocks params) in
  let decelStartTime := wrap32 (steadyStartTime + steadyClocks params) in
  (if 0 <? accelClocks params
   then [mkArgs startTime (wrap32 (accelClocks params))
                (fmul (accelDistance params) stepsPerMm)
                (fmul (startSpeed dda) stepsPerMm)
                (fmul (acceleration dda) stepsPerMm) moveFlags]
   else [])
  ++ (if 0 <? steadyClocks params
      then [mkArgs steadyStartTime (wrap32 (steadyClocks params))
                   (fmul (steadyDistance params) stepsPerMm)
                   (fmul (topSpeed dda) stepsPerMm) (float_of_Z 0) moveFlags]
      else [])
  ++ (if negb (decelClocks params =? 0)
      then [mkArgs decelStartTime (wrap32 (decelClocks params))
                   (fmul (decelDistance dda params) stepsPerMm)
                   (fmul (topSpeed dda) stepsPerMm)
                   (fneg (fmul (deceleration dda) stepsPerMm)) moveFlags]
      else []).

(** The calls of [AddSegment] that [AddLinearSegments] makes, in order. *)
Definition AddLinearSegments_calls (dda : DDA) (startTime : Z)
  (params : PrepParams) (steps : float) (useInputShaping : bool)
  (moveFlags : MovementFlags) : list SegmentArgs :=
  let stepsPerMm := fdiv steps (totalDistance dda) in
  if useInputShaping
  then flat_map (impulse_segments dda startTime params stepsPerMm moveFlags)
                (seq 0 GetNumImpulses)
  else unshaped_segments dda startTime params stepsPerMm moveFlags.

(** [while (adp != dmp) { if (adp == nullptr) ...; adp = adp->nextDM; }]:
    true if [dmp] is met, false if the end of the list is. *)
Fixpoint AddLinearSegments_find (fuel : nat) (m : Move) (adp : DMPtr)
  (dmp : nat) : option bool :=
  match fuel with
  | O => None
  | S fuel' =>
      match adp with
      | None => Some false
      | Some a =>
          if Nat.eqb a dmp then Some true
          else AddLinearSegments_find fuel' m (nextDM (dms m a)) dmp
      end
  end.

(** The end of [Move::AddLinearSegments], from [if (oldSegs == nullptr)] on:
    a drive that had no segments gets its first segment scheduled and is put
    into the active list. *)
Definition AddLinearSegments_schedule (n fuel : nat) (m1 : Move) (h : Hw)
  (dmp : nat) (oldSegs : option nat) : option (Move * Hw) :=
  match oldSegs with
  | Some _ => Some (m1, h)
  | None =>
      let (scheduled, d') := ScheduleFirstSegment (dms m1 dmp) in
      let m2 := upd_dm m1 dmp (fun _ => d') in
      if scheduled then
        present <- AddLinearSegments_find n m2 (activeDMs m2) dmp ;;
        if (present : bool) then Some (m2, h)
        else
          m3 <- InsertDM n m2 dmp ;;
          if ptr_eqb (activeDMs m3) (Some dmp) && negb (simulating m3) then
            let (late, h1) := ScheduleNextStepInterrupt m3 h in
            if late then Interrupt n fuel m3 h1 else Some (m3, h1)
          else Some (m3, h)
      else if negb (Nat.eqb (state (dms m2 dmp)) idle) then
        let m3 := set_stepErrors m2 (wrap32 (stepErrors m2 + 1)) in
        Some (upd_dm m3 dmp (fun d => with_state d idle), h)
      else Some (m2, h)
  end.

(** The state after the calls [calls] of [dmp->AddSegment]. *)
Definition AddSegment_calls (m : Move) (dmp : nat) (calls : list SegmentArgs)
  : Move :=
  fold_left (fun m' c => upd_dm m' dmp (fun d => AddSegment d c)) calls m.

(** [Move::AddLinearSegments]; the debug output at its start has no effect
    on the state and is left out.  [n] bounds the walks along the active
    list and [fuel] the loop of [Interrupt]. *)
Definition AddLinearSegments (n fuel : nat) (m : Move) (h : Hw) (dda : DDA)
  (logicalDrive : nat) (startTime : Z) (params : PrepParams) (steps : float)
  (useInputShaping : bool) (moveFlags : MovementFlags)
  : option (Move * Hw) :=
  let dmp := logicalDrive in
  let oldSegs := segments (dms m dmp) in
  let calls := AddLinearSegments_calls dda startTime params steps
                                       useInputShaping moveFlags in
  let m1 := AddSegment_calls m dmp calls in
  AddLinearSegments_schedule n fuel m1 h dmp oldSegs.

End Model.

(** * Further members of Move and MoveSegment

    The definitions below follow the same sources.  Calls that only notify
    other objects and read nothing back ([reprap.MoveUpdated()], the wake-up
    of the Move task in [MoveAvailable]) have no effect on the members
    modelled here and are left out. *)

(** ** MoveSegment.cpp: returning segments *)

(** Modelled from the spec: [MoveSegment::Release] (inline in MoveSegment.h,
    which is not among the sources) returns the node to the free list, as
    its new head. *)
Definition Release (pool : SegmentPool) (item : nat) : SegmentPool :=
  mkPool (upd (segs pool) item
              (mkSeg (freeList pool) (seg_payload (segs pool item))))
         (Some item) (numCreated pool) (heapTop pool).

(** [MoveSegment::ReleaseAll]: the link of the node is read before the node
    is released. *)
Fixpoint ReleaseAll (fuel : nat) (pool : SegmentPool) (item : option nat)
  : option SegmentPool :=
  match fuel with
  | O => None
  | S fuel' =>
      match item with
      | None => Some pool
      | Some itemToRelease =>
          let item' := next (segs pool itemToRelease) in
          ReleaseAll fuel' (Release pool itemToRelease) item'
      end
  end.

(** [k] successive calls [Allocate(nullptr)]: the segments handed out, in
    order, and the pool afterwards. *)
Fixpoint Allocate_repeatedly (k : nat) (pool : SegmentPool)
  : list (option nat) * SegmentPool :=
  match k with
  | O => ([], pool)
  | S k' =>
      let (ms, pool1) := Allocate pool None in
      let (rest, pool2) := Allocate_repeatedly k' pool1 in
      (ms :: rest, pool2)
  end.

(** ** Microstepping and steps per mm (Move.h, Move.cpp) *)

(** The value of a [uint16_t] expression: reduction modulo 2^16. *)
Definition wrap16 (z : Z) : Z := z mod 2 ^ 16.

(** The per-drive settings of [Move]: [microstepping] holds the microstep
    count in its low 15 bits and the interpolation flag in bit 15. *)
Record DriveSettings := mkSettings {
  microstepping : nat -> Z;
  driveStepsPerMm : nat -> Q
}.

(** [Move::SetMicrostepping].  [SetDriversMicrostepping] stands for
    [Platform::SetDriversMicrostepping], which programs the drivers and
    reports whether that worked. *)
Definition SetMicrostepping (SetDriversMicrostepping : nat -> Z -> bool -> bool)
  (s : DriveSettings) (axisOrExtruder : nat) (microsteps : Z) (interp : bool)
  : bool * DriveSettings :=
  let s' :=
    mkSettings
      (upd (microstepping s) axisOrExtruder
           (wrap16 (if interp then Z.lor microsteps 0x8000 else microsteps)))
      (driveStepsPerMm s) in
  (SetDriversMicrostepping axisOrExtruder microsteps interp, s').

(** [Move::GetMicrostepping(axisOrExtruder, interpolation)]: the microstep
    count and the value left in [interpolation]. *)
Definition GetMicrostepping_interpolation (s : DriveSettings)
  (axisOrExtruder : nat) : Z * bool :=
  (Z.land (microstepping s axisOrExtruder) 0x7FFF,
   negb (Z.land (microstepping s axisOrExtruder) 0x8000 =? 0)).

(** [Move::GetMicrostepping(axisOrExtruder)] *)
Definition GetMicrostepping (s : DriveSettings) (axisOrExtruder : nat) : Z :=
  Z.land (microstepping s axisOrExtruder) 0x7FFF.

(** [Move::GetMicrostepInterpolation] *)
Definition GetMicrostepInterpolation (s : DriveSettings) (axisOrExtruder : nat)
  : bool :=
  negb (Z.land (microstepping s axisOrExtruder) 0x8000 =? 0).

(** [Move::GetRawMicrostepping] *)
Definition GetRawMicrostepping (s : DriveSettings) (axisOrExtruder : nat) : Z :=
  microstepping s axisOrExtruder.

(** [a < b] on [float]. *)
Definition Qltb (a b : Q) : bool := negb (Qle_bool b a).

(** [max<float>(a, b)] *)
Definition fmax (a b : Q) : Q := if Qltb b a then a else b.

(** [Move::DriveStepsPerMm] *)
Definition DriveStepsPerMm (s : DriveSettings) (axisOrExtruder : nat) : Q :=
  driveStepsPerMm s axisOrExtruder.

(** [Move::SetDriveStepsPerMm] *)
Definition SetDriveStepsPerMm (s : DriveSettings) (axisOrExtruder : nat)
  (value : Q) (requestedMicrostepping : Z) : DriveSettings :=
  let value1 :=
    if negb (requestedMicrostepping =? 0) then
      let currentMicrostepping :=
        Z.land (microstepping s axisOrExtruder) 0x7FFF in
      if negb (currentMicrostepping =? requestedMicrostepping)
      then (value * inject_Z currentMicrostepping
            / inject_Z requestedMicrostepping)%Q
      else value
    else value in
  mkSettings (microstepping s)
             (upd (driveStepsPerMm s) axisOrExtruder (fmax value1 1)).

(** ** Skew and bed compensation (Move.cpp) *)

(** The members of [Move] that hold the compensation settings. *)
Record Compensation := mkComp {
  tangents : nat -> Q;          (* float tangents[3] *)
  compensateXY : bool;
  usingMesh : bool;
  useTaper : bool;
  taperHeight : Q;
  recipTaperHeight : Q;
  zShift : Q
}.

(** What the transforms use from files outside the sources: the bitmap
    class, the axis mapping and offsets of a tool (a [const Tool *], which
    may be null), the number of visible axes, the grid of the height map and
    its interpolation.  [Iterate b] is the sequence of bit numbers that
    [b.Iterate] passes to its argument. *)
Class Geometry := mkGeometry {
  AxesBitmap : Type;
  IsBitSet : AxesBitmap -> nat -> bool;
  LowestSetBit : AxesBitmap -> nat;
  Iterate : AxesBitmap -> list nat;
  Tool : Type;
  GetXAxes : Tool -> AxesBitmap;
  GetYAxes : Tool -> AxesBitmap;
  GetAxisMapping : Tool -> nat -> AxesBitmap;
  GetOffset : Tool -> nat -> Q;
  Z_AXIS : nat;
  GetVisibleAxes : nat;
  GetAxisNumber : nat -> nat;
  GetInterpolatedHeightError : Q -> Q -> Q
}.

Definition tanXY (s : Compensation) : Q := tangents s 0%nat.
Definition tanYZ (s : Compensation) : Q := tangents s 1%nat.
Definition tanXZ (s : Compensation) : Q := tangents s 2%nat.

(** [Move::AxisCompensation] *)
Definition AxisCompensation (s : Compensation) (axis : nat) : Q :=
  if (axis <? 3)%nat then tangents s axis else 0%Q.

(** [Move::SetAxisCompensation] *)
Definition SetAxisCompensation (s : Compensation) (axis : nat) (tangent : Q)
  : Compensation :=
  if (axis <? 3)%nat
  then mkComp (upd (tangents s) axis tangent) (compensateXY s) (usingMesh s)
              (useTaper s) (taperHeight s) (recipTaperHeight s) (zShift s)
  else s.

(** [Move::SetTaperHeight], in exact arithmetic: the reciprocal is the exact
    quotient, where the code stores the quotient [1.0/h] rounded to
    [float]. *)
Definition SetTaperHeight (s : Compensation) (h : Q) : Compensation :=
  if Qltb 1 h
  then mkComp (tangents s) (compensateXY s) (usingMesh s)
              true h (1 / h)%Q (zShift s)
  else mkComp (tangents s) (compensateXY s) (usingMesh s)
              false (taperHeight s) (recipTaperHeight s) (zShift s).

(** [Move::GetTaperHeight] *)
Definition GetTaperHeight (s : Compensation) : Q :=
  if useTaper s then taperHeight s else 0%Q.

Section Transforms.
Context {G : Geometry}.

Local Open Scope Q_scope.

(** The body of the loop of [AxisTransform] for one axis; the point is
    updated in place. *)
Definition AxisTransform_axis (s : Compensation) (xAxes yAxes : AxesBitmap)
  (lowestXAxis lowestYAxis : nat) (xyzPoint : nat -> Q) (axis : nat)
  : nat -> Q :=
  let p1 :=
    if IsBitSet xAxes axis
    then upd xyzPoint axis
             (xyzPoint axis
              + ((if compensateXY s then tanXY s * xyzPoint lowestYAxis else 0)
                 + tanXZ s * xyzPoint Z_AXIS))
    else xyzPoint in
  if IsBitSet yAxes axis
  then upd p1 axis
           (p1 axis
            + ((if compensateXY s then 0 else tanXY s * p1 lowestXAxis)
               + tanYZ s * p1 Z_AXIS))
  else p1.

(** [Move::AxisTransform] *)
Definition AxisTransform (s : Compensation) (tool : Tool) (xyzPoint : nat -> Q)
  : nat -> Q :=
  let numVisibleAxes := GetVisibleAxes in
  let yAxes := GetYAxes tool in
  let lowestYAxis := LowestSetBit yAxes in
  if (lowestYAxis <? numVisibleAxes)%nat then
    let xAxes := GetXAxes tool in
    let lowestXAxis := LowestSetBit xAxes in
    fold_left (AxisTransform_axis s xAxes yAxes lowestXAxis lowestYAxis)
              (seq 0 numVisibleAxes) xyzPoint
  else xyzPoint.

(** The body of the loop of [InverseAxisTransform] for one axis. *)
Definition InverseAxisTransform_axis (s : Compensation)
  (xAxes yAxes : AxesBitmap) (lowestXAxis lowestYAxis : nat)
  (xyzPoint : nat -> Q) (axis : nat) : nat -> Q :=
  let p1 :=
    if IsBitSet yAxes axis
    then upd xyzPoint axis
             (xyzPoint axis
              - ((if compensateXY s then 0 else tanXY s * xyzPoint lowestXAxis)
                 + tanYZ s * xyzPoint Z_AXIS))
    else xyzPoint in
  if IsBitSet xAxes axis
  then upd p1 axis
           (p1 axis
            - ((if compensateXY s then tanXY s * p1 lowestYAxis else 0)
               + tanXZ s * p1 Z_AXIS))
  else p1.

(** [Move::InverseAxisTransform] *)
Definition InverseAxisTransform (s : Compensation) (tool : Tool)
  (xyzPoint : nat -> Q) : nat -> Q :=
  let numVisibleAxes := GetVisibleAxes in
  let yAxes := GetYAxes tool in
  let lowestYAxis := LowestSetBit yAxes in
  if (lowestYAxis <? numVisibleAxes)%nat then
    let xAxes := GetXAxes tool in
    let lowestXAxis := LowestSetBit xAxes in
    fold_left (InverseAxisTransform_axis s xAxes yAxes lowestXAxis lowestYAxis)
              (seq 0 numVisibleAxes) xyzPoint
  else xyzPoint.

(** [Move::ComputeHeightCorrection] *)
Definition ComputeHeightCorrection (s : Compensation) (tool : Tool)
  (xyzPoint : nat -> Q) : Q :=
  let axis1Axes := GetAxisMapping tool (GetAxisNumber 1) in
  let '(zCorrection, numCorrections) :=
    fold_left
      (fun acc axis0Axis =>
         let axis0Coord := xyzPoint axis0Axis + GetOffset tool axis0Axis in
         fold_left
           (fun '(zCorrection, numCorrections) axis1Axis =>
              let axis1Coord := xyzPoint axis1Axis + GetOffset tool axis1Axis in
              (zCorrection + GetInterpolatedHeightError axis0Coord axis1Coord,
               S numCorrections))
           (Iterate axis1Axes) acc)
      (Iterate (GetAxisMapping tool (GetAxisNumber 0))) (0, 0%nat) in
  (if (1 <? numCorrections)%nat
   then zCorrection / inject_Z (Z.of_nat numCorrections)
   else zCorrection)
  + zShift s.

(** [Move::BedTransform] *)
Definition BedTransform (s : Compensation) (tool : Tool) (xyzPoint : nat -> Q)
  : nat -> Q :=
  if usingMesh s then
    let toolHeight := xyzPoint Z_AXIS + GetOffset tool Z_AXIS in
    if negb (useTaper s) || Qltb toolHeight (taperHeight s) then
      let zCorrection := ComputeHeightCorrection s tool xyzPoint in
      upd xyzPoint Z_AXIS
          (xyzPoint Z_AXIS
           + (if useTaper s && Qltb zCorrection (taperHeight s)
              then (taperHeight s - toolHeight) * recipTaperHeight s
                   * zCorrection
              else zCorrection))
    else xyzPoint
  else xyzPoint.

(** [Move::InverseBedTransform] *)
Definition InverseBedTransform (s : Compensation) (tool : Tool)
  (xyzPoint : nat -> Q) : nat -> Q :=
  if usingMesh s then
    let zCorrection := ComputeHeightCorrection s tool xyzPoint in
    if negb (useTaper s) || Qle_bool (taperHeight s) zCorrection then
      upd xyzPoint Z_AXIS (xyzPoint Z_AXIS - zCorrection)
    else
      let toolZoffset := GetOffset tool Z_AXIS in
      let zreq :=
        (xyzPoint Z_AXIS
         - (taperHeight s - toolZoffset) * zCorrection * recipTaperHeight s)
        / (1 - zCorrection * recipTaperHeight s) in
      if Qltb (zreq + toolZoffset) (taperHeight s)
      then upd xyzPoint Z_AXIS zreq
      else xyzPoint
  else xyzPoint.

(** [Move::AxisAndBedTransform] *)
Definition AxisAndBedTransform (s : Compensation) (tool : Tool)
  (useBedCompensation : bool) (xyzPoint : nat -> Q) : nat -> Q :=
  let p1 := AxisTransform s tool xyzPoint in
  if useBedCompensation then BedTransform s tool p1 else p1.

(** [Move::InverseAxisAndBedTransform] *)
Definition InverseAxisAndBedTransform (s : Compensation) (tool : Tool)
  (xyzPoint : nat -> Q) : nat -> Q :=
  InverseAxisTransform s tool (InverseBedTransform s tool xyzPoint).

End Transforms.

(** ** Bookkeeping of the Move task (Move.h, Move.cpp) *)

(** [minExtrusionPending] and [maxExtrusionPending], both initialised to 0.0
    and reset to 0.0 by [Move::Diagnostics]. *)
Record ExtrusionLimits := mkLimits {
  minExtrusionPending : Q;
  maxExtrusionPending : Q
}.

(** [Move::UpdateExtrusionPendingLimits] *)
Definition UpdateExtrusionPendingLimits (s : ExtrusionLimits)
  (extrusionPending : Q) : ExtrusionLimits :=
  if Qltb (maxExtrusionPending s) extrusionPending
  then mkLimits (minExtrusionPending s) extrusionPending
  else if Qltb extrusionPending (minExtrusionPending s)
       then mkLimits extrusionPending (maxExtrusionPending s)
       else s.

(** [enum class MoveState] *)
Inductive MoveState :=
| MoveState_idle
| MoveState_collecting
| MoveState_executing
| MoveState_timing.

Definition MoveState_eqb (a b : MoveState) : bool :=
  match a, b with
  | MoveState_idle, MoveState_idle
  | MoveState_collecting, MoveState_collecting
  | MoveState_executing, MoveState_executing
  | MoveState_timing, MoveState_timing => true
  | _, _ => false
  end.

(** The members of [Move] behind the idle timeout; the times are
    millisecond counts in [uint32_t]. *)
Record IdleTimer := mkIdleTimer {
  moveState : MoveState;
  whenIdleTimerStarted : Z;
  idleTimeout : Z
}.

(** The end of one pass of [Move::MoveLoop]: reduce the motor current to
    standby when the rings have been idle for long enough.  [ringsIdle] is
    the test on the rings, [notPaused] the test on the pause state and
    [millis] the clock reading of this pass; the result says whether
    [Platform::SetDriversIdle] was called. *)
Definition MoveLoop_idle_check (s : IdleTimer) (ringsIdle notPaused : bool)
  (millis : Z) : IdleTimer * bool :=
  if ringsIdle then
    if MoveState_eqb (moveState s) MoveState_executing && notPaused
    then (mkIdleTimer MoveState_timing millis (idleTimeout s), false)
    else if MoveState_eqb (moveState s) MoveState_timing
            && (idleTimeout s <=? wrap32 (millis - whenIdleTimerStarted s))
         then (mkIdleTimer MoveState_idle (whenIdleTimerStarted s)
                           (idleTimeout s), true)
         else (s, false)
  else (mkIdleTimer MoveState_executing (whenIdleTimerStarted s)
                    (idleTimeout s), false).

(** Successive passes of the loop, each with its tests and clock reading:
    the final state and, for every pass, whether the drivers were put into
    idle hold. *)
Fixpoint MoveLoop_idle_checks (s : IdleTimer) (passes : list (bool * bool * Z))
  : IdleTimer * list bool :=
  match passes with
  | [] => (s, [])
  | (ringsIdle, notPaused, millis) :: rest =>
      let (s1, called) := MoveLoop_idle_check s ringsIdle notPaused millis in
      let (s2, calls) := MoveLoop_idle_checks s1 rest in
      (s2, called :: calls)
  end.

(** [auxMoveLocked] and [auxMoveAvailable] *)
Record AuxMove := mkAuxMove {
  auxMoveLocked : bool;
  auxMoveAvailable : bool
}.

(** [Move::LockAuxMove]: true when the result is the buffer, false when it
    is [nullptr]. *)
Definition LockAuxMove (s : AuxMove) : bool * AuxMove :=
  if negb (auxMoveLocked s) && negb (auxMoveAvailable s)
  then (true, mkAuxMove true (auxMoveAvailable s))
  else (false, s).

(** [Move::ReleaseAuxMove]; the notification of the Move task at its end
    does not touch these members. *)
Definition ReleaseAuxMove (s : AuxMove) (hasNewMove : bool) : AuxMove :=
  mkAuxMove false hasNewMove.

(** The part of [Move::MoveLoop] that passes the aux move to ring 1:
    [if (canAddRing1Move) { if (auxMoveAvailable) { ...; auxMoveAvailable =
    false; } ... }].  The result says whether the move was taken. *)
Definition MoveLoop_take_aux_move (s : AuxMove) (canAddRing1Move : bool)
  : bool * AuxMove :=
  if canAddRing1Move && auxMoveAvailable s
  then (true, mkAuxMove (auxMoveLocked s) false)
  else (false, s).

(** What other code may do with the buffer while one client holds it or
    waits for it. *)
Inductive AuxOp :=
| TryLock
| MoveTaskPass (canAddRing1Move : bool).

(** The operations [ops] one after the other: the final state and the
    results of the [LockAuxMove] calls among them. *)
Fixpoint aux_run (s : AuxMove) (ops : list AuxOp) : AuxMove * list bool :=
  match ops with
  | [] => (s, [])
  | TryLock :: rest =>
      let (got, s1) := LockAuxMove s in
      let (s2, results) := aux_run s1 rest in
      (s2, got :: results)
  | MoveTaskPass c :: rest =>
      aux_run (snd (MoveLoop_take_aux_move s c)) rest
  end.

(** The loop of [Move::RevertPosition] that works out the steps of each
    driver: [index] counts the selected drivers met so far, and
    [msg.finalStepCounts] holds one entry per selected driver. *)
Definition RevertPosition_driver (whichDrives : Z)
  (finalStepCounts lastMoveStepsTaken : nat -> Z)
  (st : nat * bool * (nat -> Z)) (driver : nat) : nat * bool * (nat -> Z) :=
  let '(index, needSteps, perDrive) := st in
  if Z.testbit whichDrives (Z.of_nat driver) then
    let stepsWanted := finalStepCounts index in
    let stepsTaken := lastMoveStepsTaken driver in
    if ((0 <=? stepsWanted) && (stepsWanted <? stepsTaken))
       || ((stepsWanted <=? 0) && (stepsTaken <? stepsWanted))
    then (S index, true,
          upd perDrive driver (to_int32 (stepsWanted - stepsTaken)))
    else (S index, needSteps, upd perDrive driver 0)
  else (index, needSteps, upd perDrive driver 0).

(** The steps of the drivers [0 .. numDrivers - 1] and whether a move has
    to be added ([needSteps]). *)
Definition RevertPosition_steps (numDrivers : nat) (whichDrives : Z)
  (finalStepCounts lastMoveStepsTaken : nat -> Z) (perDrive : nat -> Z)
  : bool * (nat -> Z) :=
  let '(_, needSteps, perDrive') :=
    fold_left (RevertPosition_driver whichDrives finalStepCounts
                                     lastMoveStepsTaken)
              (seq 0 numDrivers) (0%nat, false, perDrive) in
  (needSteps, perDrive').

(** * Proofs *)

(** ** 32-bit arithmetic *)

Lemma modulus_eq : modulus = 4294967296.
Proof. reflexivity. Qed.

Lemma half_modulus_eq : half_modulus = 2147483648.
Proof. reflexivity. Qed.

Lemma wrap32_range (z : Z) : 0 <= wrap32 z < modulus.
Proof. unfold wrap32. apply Z.mod_pos_bound. reflexivity. Qed.

Lemma wrap32_small (z : Z) : 0 <= z < modulus -> wrap32 z = z.
Proof. intros H. unfold wrap32. now apply Z.mod_small. Qed.

Lemma wrap32_idem (z : Z) : wrap32 (wrap32 z) = wrap32 z.
Proof. apply wrap32_small, wrap32_range. Qed.

Lemma to_int32_range (z : Z) : - half_modulus <= to_int32 z < half_modulus.
Proof.
  unfold to_int32. pose proof (wrap32_range z) as H.
  rewrite modulus_eq in *. rewrite half_modulus_eq.
  destruct (Z.ltb_spec (wrap32 z) 2147483648); lia.
Qed.

Lemma to_int32_small (z : Z) :
  - half_modulus <= z < half_modulus -> to_int32 z = z.
Proof.
  unfold to_int32, wrap32. rewrite modulus_eq, half_modulus_eq. intros H.
  destruct (Z.ltb_spec (z mod 4294967296) 2147483648) as [L | L];
    Z.div_mod_to_equations; lia.
Qed.

Lemma to_int32_wrap (z : Z) : to_int32 (wrap32 z) = to_int32 z.
Proof. unfold to_int32. now rewrite wrap32_idem. Qed.


(** If [a] is not strictly before [b], then [b] is before or equal to [a]. *)
Lemma sdiff_nonneg_flip (a b : Z) : 0 <= sdiff a b -> sdiff b a <= 0.
Proof.
  unfold sdiff, to_int32, wrap32. rewrite modulus_eq, half_modulus_eq.
  destruct (Z.ltb_spec ((a - b) mod 4294967296) 2147483648);
  destruct (Z.ltb_spec ((b - a) mod 4294967296) 2147483648);
    Z.div_mod_to_equations; lia.
Qed.

Lemma sdiff_zero_iff (a b : Z) :
  is_uint32 a -> is_uint32 b -> (sdiff a b = 0 <-> a = b).
Proof.
  unfold is_uint32, sdiff, to_int32, wrap32.
  rewrite modulus_eq, half_modulus_eq. intros Ha Hb.
  destruct (Z.ltb_spec ((a - b) mod 4294967296) 2147483648);
    split; intros; Z.div_mod_to_equations; lia.
Qed.


(** ** Chains *)

Section ChainFacts.
Variable nx : nat -> option nat.

Lemma lseg_app (l1 l2 : list nat) : forall p q,
  lseg nx p (l1 ++ l2) q <-> exists r, lseg nx p l1 r /\ lseg nx r l2 q.
Proof.
  induction l1 as [| i l1 IH]; intros p q; simpl.
  - split.
    + intros H. exists p. now split.
    + intros [r [-> H]]. exact H.
  - split.
    + intros [-> H]. apply IH in H as [r [H1 H2]].
      exists r. repeat split; assumption.
    + intros [r [[-> H1] H2]]. split; [reflexivity |].
      apply IH. now exists r.
Qed.

Lemma lseg_None (l : list nat) (q : option nat) :
  lseg nx None l q -> l = [] /\ q = None.
Proof.
  destruct l as [| i l]; simpl.
  - intros <-. now split.
  - intros [H _]. discriminate H.
Qed.

Lemma lseg_func (l : list nat) : forall l' p,
  lseg nx p l None -> lseg nx p l' None -> l = l'.
Proof.
  induction l as [| i l IH]; intros l' p H H'.
  - simpl in H. subst p. now destruct (lseg_None _ _ H').
  - destruct H as [-> H]. destruct l' as [| j l'].
    + simpl in H'. discriminate H'.
    + destruct H' as [Hj H']. injection Hj as <-.
      f_equal. now apply (IH l' (nx i)).
Qed.

Lemma lseg_NoDup (l : list nat) : forall p, lseg nx p l None -> NoDup l.
Proof.
  induction l as [| i l IH]; intros p H.
  - constructor.
  - destruct H as [-> H]. constructor; [| now apply (IH (nx i))].
    intros Hin. apply in_split in Hin as [a [b ->]].
    pose proof H as H0.
    apply lseg_app in H0 as [r [_ [-> Hb]]].
    pose proof (lseg_func _ _ _ H Hb) as Heq.
    apply (f_equal (@length nat)) in Heq.
    rewrite length_app in Heq. simpl in Heq. lia.
Qed.

Lemma walk_complete (l : list nat) : forall fuel p,
  lseg nx p l None -> (length l < fuel)%nat -> walk fuel nx p = Some l.
Proof.
  induction l as [| i l IH]; intros fuel p H Hf.
  - simpl in H. subst p. destruct fuel; [inversion Hf | reflexivity].
  - destruct H as [-> H]. destruct fuel as [| fuel]; [inversion Hf |].
    simpl in *. rewrite (IH fuel (nx i) H) by lia. reflexivity.
Qed.

Lemma walk_sound : forall fuel p l,
  walk fuel nx p = Some l -> lseg nx p l None.
Proof.
  induction fuel as [| fuel IH]; intros p l H; [discriminate H |].
  simpl in H. destruct p as [i |].
  - destruct (walk fuel nx (nx i)) as [l' |] eqn:W; [| discriminate H].
    injection H as <-. split; [reflexivity | now apply IH].
  - injection H as <-. reflexivity.
Qed.

End ChainFacts.

Lemma lseg_ext (nx nx' : nat -> option nat) (l : list nat) : forall p q,
  (forall i, In i l -> nx i = nx' i) -> lseg nx p l q -> lseg nx' p l q.
Proof.
  induction l as [| i l IH]; intros p q Hext H.
  - exact H.
  - destruct H as [-> H]. split; [reflexivity |].
    rewrite <- (Hext i (or_introl eq_refl)).
    apply IH; [| exact H]. intros j Hj. apply Hext. now right.
Qed.

(** ** Record updates *)

Lemma upd_same {A : Type} (f : nat -> A) (i : nat) (v : A) : upd f i v i = v.
Proof. unfold upd. now rewrite Nat.eqb_refl. Qed.

Lemma upd_other {A : Type} (f : nat -> A) (i j : nat) (v : A) :
  j <> i -> upd f i v j = f j.
Proof. intros H. unfold upd. apply Nat.eqb_neq in H. now rewrite H. Qed.

Lemma same_but_link_refl (d : DriveMovement) : same_but_link d d.
Proof. destruct d. reflexivity. Qed.

Lemma same_but_link_with_nextDM (d : DriveMovement) (n : DMPtr) :
  same_but_link d (with_nextDM d n).
Proof. destruct d. reflexivity. Qed.

Lemma same_but_link_trans (a b c : DriveMovement) :
  same_but_link a b -> same_but_link b c -> same_but_link a c.
Proof.
  unfold same_but_link. intros -> ->. destruct a. reflexivity.
Qed.

Lemma same_but_link_time (d d' : DriveMovement) :
  same_but_link d d' -> nextStepTime d' = nextStepTime d.
Proof. unfold same_but_link. intros ->. reflexivity. Qed.

Lemma same_but_link_state (d d' : DriveMovement) :
  same_but_link d d' -> state d' = state d.
Proof. unfold same_but_link. intros ->. reflexivity. Qed.

(** ** InsertDM *)

(** The address [InsertDM] stops at after walking past the nodes [l1]. *)
Fixpoint last_addr (dmp : DMPtrPtr) (l1 : list nat) : DMPtrPtr :=
  match l1 with
  | [] => dmp
  | e :: l1' => last_addr (NextDMAddr e) l1'
  end.

Definition addr_outside (dmp : DMPtrPtr) (l : list nat) (dm : nat) : Prop :=
  match dmp with
  | ActiveDMsAddr => True
  | NextDMAddr e => ~ In e l /\ e <> dm
  end.

Lemma last_addr_cases (l1 : list nat) : forall dmp,
  last_addr dmp l1 = dmp \/ exists x, In x l1 /\ last_addr dmp l1 = NextDMAddr x.
Proof.
  induction l1 as [| e l1 IH]; intros dmp; simpl.
  - now left.
  - right. destruct (IH (NextDMAddr e)) as [-> | [x [Hx ->]]].
    + exists e. split; [now left | reflexivity].
    + exists x. split; [now right | reflexivity].
Qed.

Lemma InsertDM_loop_spec (m : Move) (dm : nat) : forall l fuel dmp,
  lseg (links m) (load m dmp) l None -> (length l < fuel)%nat ->
  exists l1 l2,
    InsertDM_loop fuel m dm dmp = Some (last_addr dmp l1) /\
    l = l1 ++ l2 /\
    Forall (fun e => steps_before m e dm = true) l1 /\
    (forall e, hd_error l2 = Some e -> steps_before m e dm = false) /\
    lseg (links m) (load m (last_addr dmp l1)) l2 None.
Proof.
  induction l as [| i l IH]; intros fuel dmp H Hf.
  - destruct fuel as [| fuel]; [inversion Hf |].
    exists [], []. simpl in *. rewrite H.
    repeat split; auto. intros e He. discriminate He.
  - destruct fuel as [| fuel]; [inversion Hf |].
    destruct H as [Hi H]. simpl. rewrite Hi.
    destruct (steps_before m i dm) eqn:B.
    + destruct (IH fuel (NextDMAddr i)) as [l1 [l2 [H1 [H2 [H3 [H4 H5]]]]]].
      * exact H.
      * simpl in Hf. lia.
      * exists (i :: l1), l2. simpl. rewrite H1, H2.
        repeat split; auto.
    + exists [], (i :: l). simpl. rewrite Hi.
      repeat split; auto. intros e He. injection He as <-. exact B.
Qed.

Lemma links_upd_dm_link (m : Move) (i : nat) (v : DMPtr) (j : nat) :
  links (upd_dm m i (fun d => with_nextDM d v)) j =
  if Nat.eqb j i then v else links m j.
Proof.
  unfold links, upd_dm, upd. simpl. now destruct (Nat.eqb j i).
Qed.

Lemma links_store (m : Move) (a : DMPtrPtr) (v : DMPtr) (j : nat) :
  links (store m a v) j =
  match a with
  | ActiveDMsAddr => links m j
  | NextDMAddr e => if Nat.eqb j e then v else links m j
  end.
Proof.
  destruct a as [| e]; [reflexivity | apply links_upd_dm_link].
Qed.

(** The state [InsertDM] leaves when its search stopped at address [a]. *)
Definition inserted_at (m : Move) (dm : nat) (a : DMPtrPtr) : Move :=
  store (upd_dm m dm (fun d => with_nextDM d (load m a))) a (Some dm).

Lemma links_inserted_at (m : Move) (dm : nat) (a : DMPtrPtr) (j : nat) :
  links (inserted_at m dm a) j =
  match a with
  | ActiveDMsAddr => if Nat.eqb j dm then load m a else links m j
  | NextDMAddr e =>
      if Nat.eqb j e then Some dm
      else if Nat.eqb j dm then load m a else links m j
  end.
Proof.
  unfold inserted_at. rewrite links_store.
  destruct a as [| e]; rewrite links_upd_dm_link; reflexivity.
Qed.

Lemma activeDMs_inserted_at (m : Move) (dm : nat) (a : DMPtrPtr) :
  activeDMs (inserted_at m dm a) =
  match a with ActiveDMsAddr => Some dm | NextDMAddr _ => activeDMs m end.
Proof. destruct a; reflexivity. Qed.

Lemma load_inserted_other (m : Move) (dm : nat) (a dmp : DMPtrPtr) (l : list nat) :
  addr_outside dmp l dm ->
  (exists x, In x l /\ a = NextDMAddr x) ->
  load (inserted_at m dm a) dmp = load m dmp.
Proof.
  intros Hout [x [Hx ->]]. destruct dmp as [| e]; [reflexivity |].
  destruct Hout as [He Hdm].
  change (links (inserted_at m dm (NextDMAddr x)) e = links m e).
  rewrite links_inserted_at.
  destruct (Nat.eqb_spec e x) as [-> | _]; [contradiction |].
  destruct (Nat.eqb_spec e dm) as [-> | _]; [contradiction | reflexivity].
Qed.

Lemma lseg_inserted (m : Move) (dm : nat) (l2 : list nat) : forall l1 dmp,
  NoDup (l1 ++ l2) -> ~ In dm (l1 ++ l2) ->
  addr_outside dmp (l1 ++ l2) dm ->
  lseg (links m) (load m dmp) (l1 ++ l2) None ->
  lseg (links (inserted_at m dm (last_addr dmp l1)))
       (load (inserted_at m dm (last_addr dmp l1)) dmp)
       (l1 ++ dm :: l2) None.
Proof.
  induction l1 as [| i l1 IH]; intros dmp Hnd Hdm Hout H; simpl in *.
  - split.
    + destruct dmp as [| e]; [reflexivity |].
      change (links (inserted_at m dm (NextDMAddr e)) e = Some dm).
      rewrite links_inserted_at. now rewrite Nat.eqb_refl.
    + assert (Hl : links (inserted_at m dm dmp) dm = load m dmp).
      { rewrite links_inserted_at. destruct dmp as [| e].
        - now rewrite Nat.eqb_refl.
        - destruct Hout as [_ Hne].
          destruct (Nat.eqb_spec dm e) as [-> | _]; [contradiction |].
          now rewrite Nat.eqb_refl. }
      rewrite Hl. apply lseg_ext with (nx := links m); [| exact H].
      intros j Hj. rewrite links_inserted_at.
      assert (j <> dm) by (intros ->; contradiction).
      destruct dmp as [| e].
      * destruct (Nat.eqb_spec j dm); [contradiction | reflexivity].
      * destruct Hout as [He _].
        destruct (Nat.eqb_spec j e) as [-> | _]; [contradiction |].
        destruct (Nat.eqb_spec j dm); [contradiction | reflexivity].
  - destruct H as [Hi H]. inversion Hnd as [| ? ? Hni Hnd']; subst.
    assert (Hlast : exists x, In x (i :: l1) /\
                              last_addr (NextDMAddr i) l1 = NextDMAddr x).
    { destruct (last_addr_cases l1 (NextDMAddr i)) as [-> | [x [Hx ->]]].
      - exists i. split; [now left | reflexivity].
      - exists x. split; [now right | reflexivity]. }
    split.
    + rewrite <- Hi.
      apply load_inserted_other with (l := (i :: l1) ++ l2).
      * exact Hout.
      * destruct Hlast as [x [Hx ->]]. exists x. split; [| reflexivity].
        apply in_or_app. now left.
    + apply (IH (NextDMAddr i)).
      * exact Hnd'.
      * intros Hin. apply Hdm. now right.
      * split; [exact Hni |]. intros ->. apply Hdm. now left.
      * exact H.
Qed.

Lemma dms_inserted_at (m : Move) (dm : nat) (a : DMPtrPtr) (j : nat) :
  same_but_link (dms m j) (dms (inserted_at m dm a) j).
Proof.
  unfold inserted_at, store, upd_dm, upd.
  destruct a as [| e]; simpl.
  - destruct (Nat.eqb j dm) eqn:Ej.
    + apply Nat.eqb_eq in Ej. subst j. apply same_but_link_with_nextDM.
    + apply same_but_link_refl.
  - destruct (Nat.eqb_spec j e) as [-> | Hje].
    + destruct (Nat.eqb_spec e dm) as [-> | Hed].
      * eapply same_but_link_trans; apply same_but_link_with_nextDM.
      * apply same_but_link_with_nextDM.
    + destruct (Nat.eqb_spec j dm) as [-> | Hjd].
      * apply same_but_link_with_nextDM.
      * apply same_but_link_refl.
Qed.

(** Fields of [Move] other than the list structure. *)
Definition same_counters (m m' : Move) : Prop :=
  movementAccumulators m' = movementAccumulators m /\
  stepErrors m' = stepErrors m /\
  numHiccups m' = numHiccups m /\
  lastStepLowTime m' = lastStepLowTime m /\
  lastDirChangeTime m' = lastDirChangeTime m /\
  simulating m' = simulating m.

Lemma same_counters_inserted_at (m : Move) (dm : nat) (a : DMPtrPtr) :
  same_counters m (inserted_at m dm a).
Proof. destruct a; repeat split. Qed.

Lemma dms_inserted_at_frame (m : Move) (dm : nat) (l1 : list nat) (j : nat) :
  j <> dm -> ~ In j l1 ->
  dms (inserted_at m dm (last_addr ActiveDMsAddr l1)) j = dms m j.
Proof.
  intros Hj Hl1. unfold inserted_at, store, upd_dm, upd.
  destruct (last_addr_cases l1 ActiveDMsAddr) as [-> | [x [Hx ->]]]; simpl.
  - destruct (Nat.eqb_spec j dm); [contradiction | reflexivity].
  - destruct (Nat.eqb_spec j x) as [-> | _]; [contradiction |].
    destruct (Nat.eqb_spec j dm); [contradiction | reflexivity].
Qed.

(** What one call of [InsertDM] does to a well-formed active list. *)
Lemma InsertDM_spec (m : Move) (dm : nat) (l : list nat) (fuel : nat) :
  active_list m l -> ~ In dm l -> (length l < fuel)%nat ->
  exists l1 l2 m',
    InsertDM fuel m dm = Some m' /\
    l = l1 ++ l2 /\
    Forall (fun e => steps_before m e dm = true) l1 /\
    (forall e, hd_error l2 = Some e -> steps_before m e dm = false) /\
    active_list m' (l1 ++ dm :: l2) /\
    (forall j, same_but_link (dms m j) (dms m' j)) /\
    same_counters m m' /\
    (forall j, j <> dm -> ~ In j l -> dms m' j = dms m j).
Proof.
  intros Hl Hdm Hf.
  destruct (InsertDM_loop_spec m dm l fuel ActiveDMsAddr Hl Hf)
    as [l1 [l2 [H1 [H2 [H3 [H4 H5]]]]]].
  exists l1, l2, (inserted_at m dm (last_addr ActiveDMsAddr l1)).
  unfold InsertDM. rewrite H1.
  split; [reflexivity |]. split; [exact H2 |]. split; [exact H3 |].
  split; [exact H4 |]. split.
  { subst l. unfold active_list.
    apply (lseg_inserted m dm l2 l1 ActiveDMsAddr).
    - apply (lseg_NoDup _ _ _ Hl).
    - exact Hdm.
    - exact I.
    - exact Hl. }
  split; [intros j; apply dms_inserted_at |].
  split; [apply same_counters_inserted_at |].
  intros j Hj Hjl. apply dms_inserted_at_frame; [exact Hj |].
  intros Hin. apply Hjl. subst l. apply in_or_app. now left.
Qed.

(** ** Order of the active list *)

Lemma Sorted_middle {A : Type} (R : A -> A -> Prop) (x : A) (l2 : list A) :
  forall l1,
    Sorted R (l1 ++ l2) -> Forall (fun e => R e x) l1 -> HdRel R x l2 ->
    Sorted R (l1 ++ x :: l2).
Proof.
  induction l1 as [| a l1 IH]; intros Hs Hall Hhd; simpl in *.
  - now constructor.
  - apply Sorted_inv in Hs as [Hs Ha]. inversion Hall as [| ? ? Rax Hall']; subst.
    constructor; [now apply IH |].
    destruct l1 as [| b l1]; simpl in *.
    + now constructor.
    + constructor. now inversion Ha.
Qed.


Lemma Sorted_equiv {A : Type} (R R' : A -> A -> Prop) (l : list A) :
  (forall a b, R a b -> R' a b) -> Sorted R l -> Sorted R' l.
Proof.
  intros Himp. induction 1 as [| a l Hs IH Hhd]; constructor; [exact IH |].
  destruct Hhd; constructor. now apply Himp.
Qed.

Lemma Sorted_ext_in {A : Type} (R R' : A -> A -> Prop) (l : list A) :
  (forall a b, In a l -> In b l -> R a b -> R' a b) ->
  Sorted R l -> Sorted R' l.
Proof.
  induction l as [| x l IH]; intros Himp Hs; [constructor |].
  apply Sorted_inv in Hs as [Hs Hhd]. constructor.
  - apply IH; [| exact Hs]. intros a b Ha Hb. apply Himp; now right.
  - destruct Hhd as [| y l' Hxy]; constructor.
    apply Himp; [now left | right; now left | exact Hxy].
Qed.

Lemma NoDup_app_disjoint {A : Type} (l1 l2 : list A) (x : A) :
  NoDup (l1 ++ l2) -> In x l1 -> ~ In x l2.
Proof.
  induction l1 as [| a l1 IH]; intros Hnd H1 H2; [contradiction |].
  simpl in Hnd. inversion Hnd as [| ? ? Ha Hnd']; subst.
  destruct H1 as [-> | H1].
  - apply Ha, in_or_app. now right.
  - now apply (IH Hnd' H1).
Qed.

Lemma time_le_preserved (m m' : Move) :
  (forall j, same_but_link (dms m j) (dms m' j)) ->
  forall a b, time_le m a b -> time_le m' a b.
Proof.
  intros Hsame a b. unfold time_le.
  now rewrite (same_but_link_time _ _ (Hsame a)), (same_but_link_time _ _ (Hsame b)).
Qed.

Lemma steps_before_time_le (m : Move) (e dm : nat) :
  steps_before m e dm = true -> time_le m e dm.
Proof.
  unfold steps_before, time_le. intros H. apply Z.ltb_lt in H. lia.
Qed.

Lemma not_steps_before_time_le (m : Move) (e dm : nat) :
  steps_before m e dm = false -> time_le m dm e.
Proof.
  unfold steps_before, time_le. intros H. apply Z.ltb_ge in H.
  now apply sdiff_nonneg_flip.
Qed.

(** [time_le] is "before or at the same time" in the sense of the
    comparison of [InsertDM]. *)
Lemma time_le_before_or_same (m : Move) (a b : nat) :
  is_uint32 (nextStepTime (dms m a)) -> is_uint32 (nextStepTime (dms m b)) ->
  (time_le m a b <->
   steps_before m a b = true
   \/ nextStepTime (dms m a) = nextStepTime (dms m b)).
Proof.
  intros Ha Hb. unfold time_le, steps_before. rewrite Z.ltb_lt.
  rewrite <- (sdiff_zero_iff _ _ Ha Hb). lia.
Qed.


(** [InsertDM] on a well-formed list: the result, and that a sorted list
    stays sorted. *)
Lemma InsertDM_full (m : Move) (dm : nat) (l : list nat) (fuel : nat) :
  active_list m l -> ~ In dm l -> (length l < fuel)%nat ->
  exists l1 l2 m',
    InsertDM fuel m dm = Some m' /\
    l = l1 ++ l2 /\
    Forall (fun e => steps_before m e dm = true) l1 /\
    active_list m' (l1 ++ dm :: l2) /\
    (active_sorted m l -> active_sorted m' (l1 ++ dm :: l2)) /\
    (forall j, same_but_link (dms m j) (dms m' j)) /\
    same_counters m m' /\
    (forall j, j <> dm -> ~ In j l -> dms m' j = dms m j).
Proof.
  intros Hl Hdm Hf.
  destruct (InsertDM_spec m dm l fuel Hl Hdm Hf)
    as [l1 [l2 [m' [H1 [H2 [H3 [H4 [H5 [H6 [H7 H8]]]]]]]]]].
  exists l1, l2, m'.
  split; [exact H1 |]. split; [exact H2 |]. split; [exact H3 |].
  split; [exact H5 |].
  split; [| split; [exact H6 | split; [exact H7 | exact H8]]].
  intros Hs.
  apply Sorted_equiv with (R := time_le m).
  { now apply time_le_preserved. }
  subst l. apply Sorted_middle.
  - exact Hs.
  - eapply Forall_impl; [| exact H3]. intros e. apply steps_before_time_le.
  - destruct l2 as [| e l2]; constructor.
    apply not_steps_before_time_le. now apply H4.
Qed.

(** [InsertDM] keeps a sorted list sorted. *)
Lemma InsertDM_sorted (m : Move) (dm : nat) (l : list nat) (fuel : nat) :
  active_list m l -> ~ In dm l -> active_sorted m l -> (length l < fuel)%nat ->
  exists l1 l2 m',
    InsertDM fuel m dm = Some m' /\
    l = l1 ++ l2 /\
    Forall (fun e => steps_before m e dm = true) l1 /\
    active_list m' (l1 ++ dm :: l2) /\
    active_sorted m' (l1 ++ dm :: l2) /\
    (forall j, same_but_link (dms m j) (dms m' j)) /\
    same_counters m m'.
Proof.
  intros Hl Hdm Hs Hf.
  destruct (InsertDM_full m dm l fuel Hl Hdm Hf)
    as [l1 [l2 [m' [H1 [H2 [H3 [H4 [H5 [H6 [H7 _]]]]]]]]]].
  exists l1, l2, m'. auto 10.
Qed.


(** ** DeactivateDM *)

Section DeactivateFacts.
Context {E : Env}.

(** The state [DeactivateDM] leaves when it found [x] behind address [a]. *)
Definition removed_at (m : Move) (x : nat) (a : DMPtrPtr) : Move :=
  upd_dm (store m a (nextDM (dms m x))) x (fun d => with_state d idle).

Lemma links_upd_dm_state (m : Move) (i : nat) (s : DMState) (j : nat) :
  links (upd_dm m i (fun d => with_state d s)) j = links m j.
Proof.
  unfold links, upd_dm, upd. simpl. now destruct (Nat.eqb_spec j i) as [-> |].
Qed.

Lemma links_removed_at (m : Move) (x : nat) (a : DMPtrPtr) (j : nat) :
  links (removed_at m x a) j =
  match a with
  | ActiveDMsAddr => links m j
  | NextDMAddr e => if Nat.eqb j e then links m x else links m j
  end.
Proof.
  unfold removed_at. rewrite links_upd_dm_state. apply links_store.
Qed.

Lemma load_removed_at (m : Move) (x : nat) (a dmp : DMPtrPtr) :
  load (removed_at m x a) dmp =
  match dmp with
  | ActiveDMsAddr =>
      match a with ActiveDMsAddr => links m x | NextDMAddr _ => activeDMs m end
  | NextDMAddr e => links (removed_at m x a) e
  end.
Proof. destruct dmp, a; reflexivity. Qed.

Lemma DeactivateDM_loop_found (m : Move) (x : nat) (l2 : list nat) :
  forall l1 fuel dmp,
    NoDup (l1 ++ x :: l2) ->
    addr_outside dmp (l1 ++ x :: l2) x ->
    lseg (links m) (load m dmp) (l1 ++ x :: l2) None ->
    (length (l1 ++ x :: l2) < fuel)%nat ->
    DeactivateDM_loop fuel m x dmp = Some (removed_at m x (last_addr dmp l1)) /\
    lseg (links (removed_at m x (last_addr dmp l1)))
         (load (removed_at m x (last_addr dmp l1)) dmp) (l1 ++ l2) None.
Proof.
  induction l1 as [| i l1 IH]; intros fuel dmp Hnd Hout H Hf;
    (destruct fuel as [| fuel]; [inversion Hf |]); simpl in *.
  - destruct H as [Hx H]. rewrite Hx, Nat.eqb_refl.
    split; [reflexivity |].
    inversion Hnd as [| ? ? Hnx Hnd2]; subst.
    assert (Hload : load (removed_at m x dmp) dmp = links m x).
    { rewrite load_removed_at. destruct dmp as [| e]; [reflexivity |].
      rewrite links_removed_at. now rewrite Nat.eqb_refl. }
    rewrite Hload. apply lseg_ext with (nx := links m); [| exact H].
    intros j Hj. rewrite links_removed_at. destruct dmp as [| e]; [reflexivity |].
    destruct Hout as [He _].
    destruct (Nat.eqb_spec j e) as [-> | _]; [| reflexivity].
    exfalso. apply He. now right.
  - destruct H as [Hi H]. rewrite Hi.
    inversion Hnd as [| ? ? Hni Hnd2]; subst.
    destruct (Nat.eqb_spec i x) as [-> | Hix].
    { exfalso. apply Hni. apply in_or_app. right. now left. }
    destruct (IH fuel (NextDMAddr i)) as [IH1 IH2].
    + exact Hnd2.
    + split; [exact Hni | exact Hix].
    + exact H.
    + lia.
    + split; [exact IH1 |]. split.
      * rewrite <- Hi.
        destruct (last_addr_cases l1 (NextDMAddr i)) as [Ha | [y [Hy Ha]]];
          rewrite Ha; rewrite load_removed_at;
          (destruct dmp as [| e]; [reflexivity |]);
          rewrite links_removed_at; destruct Hout as [He _].
        -- destruct (Nat.eqb_spec e i) as [-> | _]; [| reflexivity].
           exfalso. apply He. now left.
        -- destruct (Nat.eqb_spec e y) as [-> | _]; [| reflexivity].
           exfalso. apply He. right. apply in_or_app. now left.
      * exact IH2.
Qed.

Lemma DeactivateDM_loop_absent (m : Move) (x : nat) : forall l fuel dmp,
  ~ In x l ->
  lseg (links m) (load m dmp) l None -> (length l < fuel)%nat ->
  DeactivateDM_loop fuel m x dmp = Some m.
Proof.
  induction l as [| i l IH]; intros fuel dmp Hx H Hf;
    (destruct fuel as [| fuel]; [inversion Hf |]); simpl in *.
  - now rewrite H.
  - destruct H as [Hi H]. rewrite Hi.
    destruct (Nat.eqb_spec i x) as [-> | Hix].
    + exfalso. apply Hx. now left.
    + apply (IH fuel (NextDMAddr i)); [| exact H | lia].
      intros Hin. apply Hx. now right.
Qed.

Lemma dms_removed_at (m : Move) (x : nat) (a : DMPtrPtr) (j : nat) :
  j <> x -> same_but_link (dms m j) (dms (removed_at m x a) j).
Proof.
  intros Hj. unfold removed_at, store, upd_dm, upd.
  destruct a as [| e]; simpl;
    (destruct (Nat.eqb_spec j x) as [-> | _]; [contradiction |]).
  - apply same_but_link_refl.
  - destruct (Nat.eqb_spec j e) as [-> | _].
    + apply same_but_link_with_nextDM.
    + apply same_but_link_refl.
Qed.

Lemma state_removed_at (m : Move) (x : nat) (a : DMPtrPtr) :
  state (dms (removed_at m x a) x) = idle.
Proof.
  unfold removed_at, upd_dm, upd. simpl. now rewrite Nat.eqb_refl.
Qed.

Lemma same_counters_removed_at (m : Move) (x : nat) (a : DMPtrPtr) :
  same_counters m (removed_at m x a).
Proof. destruct a; repeat split. Qed.

(** C7 (amended).  Stopping a drive that is in the active list removes it
    from the list and idles it.  If [dmToRemove] is in the (well-formed)
    active list, then after [DeactivateDM] it is absent from the list and its
    state is [DMState::idle]; the other entries stay in the list in their
    previous order, and every other [DriveMovement] keeps all fields apart
    from, for the predecessor, the [nextDM] link.  If [dmToRemove] is not in
    the active list, [DeactivateDM] changes nothing at all: the state of
    [dmToRemove] is not set to idle. *)
Theorem DeactivateDM_removes_and_idles
  (m : Move) (dmToRemove : nat) (l : list nat) (fuel : nat) :
  active_list m l -> (length l < fuel)%nat ->
  (In dmToRemove l ->
   exists m' l1 l2,
     DeactivateDM fuel m dmToRemove = Some m' /\
     l = l1 ++ dmToRemove :: l2 /\
     active_list m' (l1 ++ l2) /\
     ~ In dmToRemove (l1 ++ l2) /\
     state (dms m' dmToRemove) = idle /\
     (forall j, j <> dmToRemove -> same_but_link (dms m j) (dms m' j)) /\
     same_counters m m') /\
  (~ In dmToRemove l -> DeactivateDM fuel m dmToRemove = Some m).
Proof.
  intros Hl Hf. split.
  - intros Hin. apply in_split in Hin as [l1 [l2 ->]].
    pose proof (lseg_NoDup _ _ _ Hl) as Hnd.
    destruct (DeactivateDM_loop_found m dmToRemove l2 l1 fuel ActiveDMsAddr
                Hnd I Hl Hf) as [H1 H2].
    exists (removed_at m dmToRemove (last_addr ActiveDMsAddr l1)), l1, l2.
    split; [exact H1 |]. split; [reflexivity |]. split; [exact H2 |].
    split.
    { apply NoDup_remove_2 in Hnd. exact Hnd. }
    split; [apply state_removed_at |].
    split; [intros j Hj; now apply dms_removed_at |].
    apply same_counters_removed_at.
  - intros Hnin. now apply (DeactivateDM_loop_absent m dmToRemove l).
Qed.

End DeactivateFacts.

(** ** The segment pool *)

(** C8.  Segment pool allocation never fails and transfers ownership.
    [Allocate(next)] always returns a non-null segment whose [next] pointer
    is the supplied argument.  With a non-empty free list it returns the
    former head of the free list, which is then no longer on the free list
    (the free list is its former tail), and [numCreated] is unchanged; with
    an empty free list it constructs a segment at an address not handed out
    before and increments [numCreated] by one. *)
Theorem Allocate_never_fails_and_transfers_ownership
  (pool : SegmentPool) (p_next : option nat) :
  exists ms,
    fst (Allocate pool p_next) = Some ms /\
    next (segs (snd (Allocate pool p_next)) ms) = p_next /\
    (forall hd, freeList pool = Some hd ->
       ms = hd /\
       freeList (snd (Allocate pool p_next)) = next (segs pool hd) /\
       numCreated (snd (Allocate pool p_next)) = numCreated pool /\
       heapTop (snd (Allocate pool p_next)) = heapTop pool) /\
    (freeList pool = None ->
       ms = heapTop pool /\
       freeList (snd (Allocate pool p_next)) = None /\
       numCreated (snd (Allocate pool p_next)) = wrap32 (numCreated pool + 1) /\
       heapTop (snd (Allocate pool p_next)) = S (heapTop pool)) /\
    (forall fl, free_list pool fl ->
       free_list (snd (Allocate pool p_next)) (tl fl) /\ ~ In ms (tl fl)).
Proof.
  unfold Allocate. destruct (freeList pool) as [hd |] eqn:Hfree; simpl.
  - exists hd. rewrite upd_same.
    split; [reflexivity |]. split; [reflexivity |].
    split; [intros ? [= <-]; repeat split |].
    split; [discriminate |].
    intros fl Hfl. unfold free_list in *. simpl.
    pose proof (lseg_NoDup _ _ _ Hfl) as Hnd.
    rewrite Hfree in Hfl. destruct fl as [| x tl]; [discriminate Hfl |].
    destruct Hfl as [[= <-] Htl]. simpl.
    inversion Hnd as [| ? ? Hni _]; subst. split; [| exact Hni].
    apply lseg_ext with (nx := fun i => next (segs pool i)); [| exact Htl].
    intros i Hi. rewrite upd_other; [reflexivity |].
    intros ->. contradiction.
  - exists (heapTop pool). rewrite upd_same.
    split; [reflexivity |]. split; [reflexivity |].
    split; [discriminate |].
    split; [repeat split |].
    intros fl Hfl. unfold free_list in *. simpl.
    rewrite Hfree in Hfl. destruct (lseg_None _ _ _ Hfl) as [-> _].
    simpl. split; [reflexivity | intros []].
Qed.

(** ** Wrap-around comparison of step times *)

Section TimeFacts.
Context {E : Env}.




End TimeFacts.

(** ** The extrusion accumulator *)

Lemma wrap32_to_int32 (z : Z) : wrap32 (to_int32 z) = wrap32 z.
Proof.
  unfold to_int32. destruct (wrap32 z <? half_modulus).
  - apply wrap32_idem.
  - unfold wrap32. rewrite Zminus_mod, Z_mod_same_full, Z.sub_0_r.
    now rewrite !Zmod_mod.
Qed.

Lemma wrap32_add_l (a b : Z) : wrap32 (wrap32 a + b) = wrap32 (a + b).
Proof. unfold wrap32. now rewrite Zplus_mod_idemp_l. Qed.

Lemma wrap32_add_r (a b : Z) : wrap32 (a + wrap32 b) = wrap32 (a + b).
Proof. unfold wrap32. now rewrite Zplus_mod_idemp_r. Qed.

Lemma wrap32_eq_add (a b c : Z) :
  wrap32 a = wrap32 b -> wrap32 (a + c) = wrap32 (b + c).
Proof.
  intros H. rewrite <- (wrap32_add_l a), H. apply wrap32_add_l.
Qed.

Lemma to_int32_eq_wrap (a b : Z) : wrap32 a = wrap32 b -> to_int32 a = to_int32 b.
Proof. unfold to_int32. now intros ->. Qed.

Section AccumulatorFacts.
Context {E : Env}.

(** A series of calls of [GetAccumulatedExtrusion] for drive [d]; before each
    call the drive has moved, which changes its [DriveMovement] by the next
    function of [motion].  The result is the list of returned values and the
    final state. *)
Fixpoint extrusion_calls (m : Move) (d : nat)
  (motion : list (DriveMovement -> DriveMovement)) : list Z * Move :=
  match motion with
  | [] => ([], m)
  | f :: rest =>
      let m1 := upd_dm m d f in
      let '(ret, _, m2) := GetAccumulatedExtrusion m1 d in
      let (rets, mf) := extrusion_calls m2 d rest in
      (ret :: rets, mf)
  end.

Definition sumZ (l : list Z) : Z := fold_right Z.add 0 l.

Lemma extrusion_calls_sum (d : nat) :
  forall motion m,
    wrap32 (sumZ (fst (extrusion_calls m d motion))
            + movementAccumulators (snd (extrusion_calls m d motion)) d)
    = wrap32 (movementAccumulators m d).
Proof.
  induction motion as [| f rest IH]; intros m; simpl.
  - reflexivity.
  - set (m1 := upd_dm m d f).
    set (m2 := set_movementAccumulators m1 _).
    specialize (IH m2).
    destruct (extrusion_calls m2 d rest) as [rets mf]. simpl in *.
    rewrite <- Z.add_assoc, <- wrap32_add_r, IH.
    subst m2 m1. simpl. rewrite !upd_same, wrap32_add_r.
    rewrite <- wrap32_add_l, wrap32_to_int32, wrap32_add_l.
    rewrite <- wrap32_add_r, wrap32_to_int32, wrap32_add_r.
    f_equal. lia.
Qed.

Lemma extrusion_calls_last (d : nat) :
  forall motion m,
    motion <> [] ->
    movementAccumulators (snd (extrusion_calls m d motion)) d
    = to_int32 (- GetNetStepsTaken (dms (snd (extrusion_calls m d motion)) d)).
Proof.
  induction motion as [| f rest IH]; intros m Hne; [contradiction |].
  simpl. set (m1 := upd_dm m d f).
  set (m2 := set_movementAccumulators m1 _).
  destruct rest as [| g rest].
  - simpl. subst m2. simpl. now rewrite upd_same.
  - specialize (IH m2 ltac:(discriminate)).
    destruct (extrusion_calls m2 d (g :: rest)) as [rets mf]. exact IH.
Qed.

(** C10.  Read-and-reset accumulator.  [GetAccumulatedExtrusion(d)] returns
    [movementAccumulators[d] + GetNetStepsTaken(d)] (in 32-bit arithmetic)
    and rebases [movementAccumulators[d]] to [-GetNetStepsTaken(d)], leaving
    everything else alone; an immediately following call returns 0; and over
    any series of calls with motion in between the returned values add up,
    modulo 2^32, to the accumulator at the start plus the net steps at the
    last call, so every step is counted once. *)
Theorem GetAccumulatedExtrusion_reads_and_resets (m : Move) (d : nat) :
  let ret := fst (fst (GetAccumulatedExtrusion m d)) in
  let m' := snd (GetAccumulatedExtrusion m d) in
  ret = to_int32 (movementAccumulators m d + GetNetStepsTaken (dms m d)) /\
  (- half_modulus <= movementAccumulators m d + GetNetStepsTaken (dms m d)
                  < half_modulus ->
   ret = movementAccumulators m d + GetNetStepsTaken (dms m d)) /\
  movementAccumulators m' d = to_int32 (- GetNetStepsTaken (dms m d)) /\
  (forall d', d' <> d -> movementAccumulators m' d' = movementAccumulators m d') /\
  dms m' = dms m /\ activeDMs m' = activeDMs m /\
  fst (fst (GetAccumulatedExtrusion m' d)) = 0 /\
  (forall motion, motion <> [] ->
     wrap32 (sumZ (fst (extrusion_calls m d motion)))
     = wrap32 (movementAccumulators m d
               + GetNetStepsTaken (dms (snd (extrusion_calls m d motion)) d))).
Proof.
  simpl. split; [reflexivity |].
  split; [intros H; now apply to_int32_small |].
  split; [now rewrite upd_same |].
  split; [intros d' Hd'; now apply upd_other |].
  split; [reflexivity |]. split; [reflexivity |].
  split.
  - rewrite upd_same. change 0 with (to_int32 0). apply to_int32_eq_wrap.
    rewrite <- wrap32_add_l, wrap32_to_int32, wrap32_add_l. f_equal. lia.
  - intros motion Hne.
    pose proof (extrusion_calls_sum d motion m) as Hsum.
    pose proof (extrusion_calls_last d motion m Hne) as Hlast.
    rewrite Hlast in Hsum.
    rewrite <- wrap32_add_r, wrap32_to_int32, wrap32_add_r in Hsum.
    apply (wrap32_eq_add _ _
             (GetNetStepsTaken (dms (snd (extrusion_calls m d motion)) d)))
      in Hsum.
    rewrite <- Hsum. f_equal. lia.
Qed.

End AccumulatorFacts.

(** ** The segment builder *)

(** Each segment starts where the one before it ends. *)
Fixpoint contiguous (calls : list SegmentArgs) : Prop :=
  match calls with
  | a :: (b :: _) as rest =>
      arg_startTime b = wrap32 (arg_startTime a + arg_duration a)
      /\ contiguous rest
  | _ => True
  end.

(** The trapezoid in the words of the specification: an acceleration, a
    steady and a deceleration segment back to back, each present exactly
    when its duration is not zero. *)
Definition trapezoid_spec (dda : DDA) (startTime : Z) (params : PrepParams)
  (stepsPerMm : float) (moveFlags : MovementFlags) : list SegmentArgs :=
  (if accelClocks params =? 0 then []
   else [mkArgs startTime (accelClocks params)
                (fmul (accelDistance params) stepsPerMm)
                (fmul (startSpeed dda) stepsPerMm)
                (fmul (acceleration dda) stepsPerMm) moveFlags])
  ++ (if steadyClocks params =? 0 then []
      else [mkArgs (wrap32 (startTime + accelClocks params))
                   (steadyClocks params)
                   (fmul (fsub (decelStartDistance params)
                               (accelDistance params)) stepsPerMm)
                   (fmul (topSpeed dda) stepsPerMm) (float_of_Z 0) moveFlags])
  ++ (if decelClocks params =? 0 then []
      else [mkArgs (wrap32 (startTime + accelClocks params + steadyClocks params))
                   (decelClocks params)
                   (fmul (fsub (totalDistance dda) (decelStartDistance params))
                         stepsPerMm)
                   (fmul (topSpeed dda) stepsPerMm)
                   (fneg (fmul (deceleration dda) stepsPerMm)) moveFlags]).

Section BuilderFacts.
Context {E : Env}.

Lemma unshaped_segments_spec (dda : DDA) (startTime : Z) (params : PrepParams)
  (stepsPerMm : float) (moveFlags : MovementFlags) :
  is_uint32 startTime -> is_uint32 (accelClocks params) ->
  is_uint32 (steadyClocks params) -> is_uint32 (decelClocks params) ->
  unshaped_segments dda startTime params stepsPerMm moveFlags
  = trapezoid_spec dda startTime params stepsPerMm moveFlags.
Proof.
  unfold is_uint32. intros Hs Ha Ht Hd.
  unfold unshaped_segments, trapezoid_spec, steadyDistance, decelDistance.
  rewrite wrap32_add_l.
  rewrite (wrap32_small (accelClocks params)) by exact Ha.
  rewrite (wrap32_small (steadyClocks params)) by exact Ht.
  rewrite (wrap32_small (decelClocks params)) by exact Hd.
  f_equal; [| f_equal].
  - destruct (Z.ltb_spec 0 (accelClocks params));
      destruct (Z.eqb_spec (accelClocks params) 0); try lia; reflexivity.
  - destruct (Z.ltb_spec 0 (steadyClocks params));
      destruct (Z.eqb_spec (steadyClocks params) 0); try lia; reflexivity.
  - destruct (Z.eqb_spec (decelClocks params) 0); reflexivity.
Qed.

Lemma trapezoid_spec_contiguous (dda : DDA) (startTime : Z)
  (params : PrepParams) (stepsPerMm : float) (moveFlags : MovementFlags) :
  contiguous (trapezoid_spec dda startTime params stepsPerMm moveFlags).
Proof.
  unfold trapezoid_spec.
  destruct (Z.eqb_spec (accelClocks params) 0) as [Ha | Ha];
    destruct (Z.eqb_spec (steadyClocks params) 0) as [Ht | Ht];
    destruct (Z.eqb_spec (decelClocks params) 0) as [Hd | Hd];
    simpl; try rewrite Ha; try rewrite Ht;
    rewrite ?Z.add_0_r, ?wrap32_add_l, ?wrap32_idem;
    repeat split; reflexivity.
Qed.

(** C3.  Trapezoid segmentation without shaping.  With input shaping
    disabled and the start time and the three phase durations 32-bit tick
    counts, [AddLinearSegments] is: the calls [calls] of [AddSegment] for
    the drive, in this order, followed by the scheduling of the drive.
    [calls] are at most three: acceleration, steady and deceleration, each
    made exactly when its duration is not zero, with start times
    [startTime], [startTime + accelClocks] and
    [startTime + accelClocks + steadyClocks] (32-bit sums) and durations
    [accelClocks], [steadyClocks] and [decelClocks]; and each of them starts
    where the one before it ends. *)
Theorem unshaped_segments_form_a_contiguous_trapezoid
  (n fuel : nat) (m : Move) (h : Hw) (dda : DDA) (logicalDrive : nat)
  (startTime : Z) (params : PrepParams) (steps : float)
  (moveFlags : MovementFlags) :
  is_uint32 startTime -> is_uint32 (accelClocks params) ->
  is_uint32 (steadyClocks params) -> is_uint32 (decelClocks params) ->
  let calls := trapezoid_spec dda startTime params
                              (fdiv steps (totalDistance dda)) moveFlags in
  AddLinearSegments n fuel m h dda logicalDrive startTime params steps false
                    moveFlags
  = AddLinearSegments_schedule n fuel (AddSegment_calls m logicalDrive calls)
                               h logicalDrive (segments (dms m logicalDrive)) /\
  (forall j, j <> logicalDrive ->
             dms (AddSegment_calls m logicalDrive calls) j = dms m j) /\
  dms (AddSegment_calls m logicalDrive calls) logicalDrive
  = fold_left AddSegment calls (dms m logicalDrive) /\
  (length calls <= 3)%nat /\
  contiguous calls.
Proof.
  intros Hs Ha Ht Hd calls.
  split.
  { unfold AddLinearSegments, AddLinearSegments_calls.
    rewrite unshaped_segments_spec by assumption. reflexivity. }
  split.
  { intros j Hj. unfold AddSegment_calls. generalize m.
    induction calls as [| c r IH]; intros m0; simpl; [reflexivity |].
    rewrite IH. unfold upd_dm, upd. simpl.
    apply Nat.eqb_neq in Hj. now rewrite Hj. }
  split.
  { unfold AddSegment_calls. generalize m.
    induction calls as [| c r IH]; intros m0; simpl; [reflexivity |].
    rewrite IH. unfold upd_dm, upd. simpl. now rewrite Nat.eqb_refl. }
  split.
  - unfold calls, trapezoid_spec. rewrite !length_app.
    destruct (accelClocks params =? 0), (steadyClocks params =? 0),
      (decelClocks params =? 0); simpl; lia.
  - apply trapezoid_spec_contiguous.
Qed.

End BuilderFacts.

(** ** StepDrivers: putting the stepped drives back *)

(** The drive is in a motion state. *)
Definition still_moving {E : Env} (m : Move) (i : nat) : bool :=
  Nat.leb firstMotionState (state (dms m i)).

(** The drive is neither in a motion state nor idle. *)
Definition in_error {E : Env} (m : Move) (i : nat) : bool :=
  negb (still_moving m i) && negb (Nat.eqb (state (dms m i)) idle).

(** [++counter] on an [unsigned int]. *)
Definition incr32 (e : Z) : Z := wrap32 (e + 1).

(** The stepping data of a drive are the same in [d] and [d']. *)
Definition same_motion (d d' : DriveMovement) : Prop :=
  drive d' = drive d /\ nextStepTime d' = nextStepTime d /\
  segmentFlags d' = segmentFlags d /\ direction d' = direction d /\
  segments d' = segments d /\ nextStep d' = nextStep d.

(** Events that neither move a step pin nor poll the endstops. *)
Definition quiet_event (e : Event) : Prop :=
  match e with
  | StepDriversHigh _ | StepDriversLow _ | CheckEndstopsCalled => False
  | _ => True
  end.

Definition quiet (evs : list Event) : Prop := Forall quiet_event evs.

Lemma same_motion_refl (d : DriveMovement) : same_motion d d.
Proof. repeat split. Qed.

Lemma same_motion_trans (a b c : DriveMovement) :
  same_motion a b -> same_motion b c -> same_motion a c.
Proof.
  unfold same_motion. intros [A1 [A2 [A3 [A4 [A5 A6]]]]] [B1 [B2 [B3 [B4 [B5 B6]]]]].
  repeat split; congruence.
Qed.

Lemma same_but_link_motion (d d' : DriveMovement) :
  same_but_link d d' -> same_motion d d'.
Proof. unfold same_but_link. intros ->. repeat split. Qed.

Lemma ptr_eqb_refl (p : DMPtr) : ptr_eqb p p = true.
Proof. destruct p; simpl; [apply Nat.eqb_refl | reflexivity]. Qed.

Lemma ptr_eqb_eq (p q : DMPtr) : ptr_eqb p q = true -> p = q.
Proof.
  destruct p, q; simpl; try discriminate; try reflexivity.
  intros H. apply Nat.eqb_eq in H. now subst.
Qed.

Lemma active_list_ext (m m' : Move) (l : list nat) :
  activeDMs m' = activeDMs m ->
  (forall j, In j l -> links m' j = links m j) ->
  active_list m l -> active_list m' l.
Proof.
  intros Ha Hl H. unfold active_list in *. rewrite Ha.
  apply lseg_ext with (nx := links m); [| exact H].
  intros j Hj. symmetry. now apply Hl.
Qed.

Section ReinsertFacts.
Context {E : Env}.

Lemma SetDirection_spec (m : Move) (h : Hw) (a : nat) (d : bool) :
  dms (fst (SetDirection m h a d)) = dms m /\
  activeDMs (fst (SetDirection m h a d)) = activeDMs m /\
  stepErrors (fst (SetDirection m h a d)) = stepErrors m /\
  numHiccups (fst (SetDirection m h a d)) = numHiccups m /\
  movementDelay (snd (SetDirection m h a d)) = movementDelay h /\
  exists evs, events (snd (SetDirection m h a d)) = events h ++ evs /\ quiet evs.
Proof.
  unfold SetDirection.
  destruct (negb (Z.land (GetDriversBitmap a) GetSlowDriversBitmap =? 0)); simpl.
  - repeat split.
    exists [BusyWait; SetDriverDirection a d]. split.
    + now rewrite <- app_assoc.
    + repeat constructor.
  - repeat split.
    exists [SetDriverDirection a d]. split; [reflexivity | repeat constructor].
Qed.

Lemma StepDrivers_reinsert_one_spec (n : nat) (m : Move) (h : Hw) (i : nat)
  (a : list nat) :
  active_list m a -> ~ In i a -> (length a < n)%nat ->
  exists m2 h2 a2,
    StepDrivers_reinsert_one n m h i = Some (m2, h2) /\
    active_list m2 a2 /\
    (if still_moving m i
     then exists b1 b2, a = b1 ++ b2 /\ a2 = b1 ++ i :: b2
     else a2 = a) /\
    (active_sorted m a -> active_sorted m2 a2) /\
    stepErrors m2 = (if in_error m i then incr32 (stepErrors m)
                     else stepErrors m) /\
    state (dms m2 i) = (if in_error m i then idle else state (dms m i)) /\
    (forall j, j <> i -> state (dms m2 j) = state (dms m j)) /\
    (forall j, same_motion (dms m j) (dms m2 j)) /\
    (forall j, j <> i -> ~ In j a -> dms m2 j = dms m j) /\
    numHiccups m2 = numHiccups m /\
    movementDelay h2 = movementDelay h /\
    exists evs, events h2 = events h ++ evs /\ quiet evs.
Proof.
  intros Hl Hi Hn. unfold StepDrivers_reinsert_one, in_error, still_moving.
  destruct (Nat.leb firstMotionState (state (dms m i))) eqn:Hmov.
  - (* still moving: update the direction pin, then insert *)
    match goal with
    | |- context [match ?X with | (_, _) => _ end] =>
        assert (Hdir : exists m1 h1,
          X = (m1, h1) /\
          activeDMs m1 = activeDMs m /\
          (forall j, j <> i -> dms m1 j = dms m j) /\
          (forall j, links m1 j = links m j) /\
          (forall j, state (dms m1 j) = state (dms m j)) /\
          (forall j, same_motion (dms m j) (dms m1 j)) /\
          stepErrors m1 = stepErrors m /\ numHiccups m1 = numHiccups m /\
          movementDelay h1 = movementDelay h /\
          exists evs, events h1 = events h ++ evs /\ quiet evs)
    end.
    { destruct (directionChanged (dms m i)).
      - match goal with
        | |- context [SetDirection ?m0 ?h0 ?a0 ?d0] =>
            destruct (SetDirection_spec m0 h0 a0 d0)
              as [S1 [S2 [S3 [S4 [S5 S6]]]]];
            destruct (SetDirection m0 h0 a0 d0) as [m1 h1]
        end.
        simpl in S1, S2, S3, S4, S5, S6.
        exists m1, h1. split; [reflexivity |].
        split; [exact S2 |].
        assert (Hd : forall j, dms m1 j =
                               if Nat.eqb j i
                               then with_directionChanged (dms m i) false
                               else dms m j).
        { intros j. rewrite S1. reflexivity. }
        split.
        { intros j Hj. rewrite Hd. apply Nat.eqb_neq in Hj. now rewrite Hj. }
        split.
        { intros j. unfold links. rewrite Hd. now destruct (Nat.eqb j i) eqn:Ej;
            [apply Nat.eqb_eq in Ej; subst |]. }
        split.
        { intros j. rewrite Hd. now destruct (Nat.eqb j i) eqn:Ej;
            [apply Nat.eqb_eq in Ej; subst |]. }
        split.
        { intros j. rewrite Hd. destruct (Nat.eqb j i) eqn:Ej.
          - apply Nat.eqb_eq in Ej. subst. repeat split.
          - apply same_motion_refl. }
        auto.
      - exists m, h. split; [reflexivity |].
        split; [reflexivity |]. split; [reflexivity |]. split; [reflexivity |].
        split; [reflexivity |]. split; [intros; apply same_motion_refl |].
        split; [reflexivity |]. split; [reflexivity |]. split; [reflexivity |].
        exists []. split; [now rewrite app_nil_r | constructor]. }
    destruct Hdir as [m1 [h1 [Heq [D1 [D2 [D3 [D4 [D5 [D6 [D7 [D8 D9]]]]]]]]]]].
    rewrite Heq.
    assert (Hl1 : active_list m1 a).
    { apply active_list_ext with (m := m); auto. }
    destruct (InsertDM_full m1 i a n Hl1 Hi Hn)
      as [b1 [b2 [m2 [I1 [I2 [I3 [I4 [I5 [I6 [I7 I8]]]]]]]]]].
    rewrite I1. exists m2, h1, (b1 ++ i :: b2).
    split; [reflexivity |]. split; [exact I4 |].
    split; [exists b1, b2; split; [exact I2 | reflexivity] |].
    split.
    { intros Hs. apply I5. apply Sorted_equiv with (R := time_le m); [| exact Hs].
      intros x y. unfold time_le.
      destruct (D5 x) as [_ [-> _]]. destruct (D5 y) as [_ [-> _]]. auto. }
    destruct I7 as [_ [I7e [I7h _]]]. simpl.
    split; [congruence |].
    split; [rewrite (same_but_link_state _ _ (I6 i)); apply D4 |].
    split; [intros j _; rewrite (same_but_link_state _ _ (I6 j)); apply D4 |].
    split.
    { intros j. eapply same_motion_trans; [apply D5 |].
      apply same_but_link_motion, I6. }
    split; [intros j Hj Hja; rewrite I8 by assumption; now apply D2 |].
    split; [congruence |]. split; [exact D8 | exact D9].
  - (* not moving *)
    simpl. destruct (Nat.eqb (state (dms m i)) idle) eqn:Hidle; simpl.
    + (* idle: the drive has finished *)
      exists m, h, a. split; [reflexivity |]. split; [exact Hl |].
      split; [reflexivity |]. split; [auto |].
      split; [reflexivity |]. split; [reflexivity |]. split; [reflexivity |].
      split; [intros; apply same_motion_refl |].
      split; [reflexivity |]. split; [reflexivity |]. split; [reflexivity |].
      exists []. split; [now rewrite app_nil_r | constructor].
    + (* step error *)
      set (m2 := upd_dm (set_stepErrors m (wrap32 (stepErrors m + 1))) i
                        (fun d => with_state d idle)).
      exists m2, h, a. split; [reflexivity |].
      split.
      { apply active_list_ext with (m := m); [reflexivity | | exact Hl].
        intros j _. unfold m2. rewrite links_upd_dm_state. reflexivity. }
      split; [reflexivity |].
      split.
      { intros Hs. apply Sorted_equiv with (R := time_le m); [| exact Hs].
        intros x y. unfold time_le, m2, upd_dm, upd. simpl.
        destruct (Nat.eqb_spec x i) as [-> |], (Nat.eqb_spec y i) as [-> |];
          simpl; auto. }
      split; [reflexivity |].
      split; [subst m2; unfold upd_dm, upd; simpl; now rewrite Nat.eqb_refl |].
      split.
      { intros j Hj. subst m2. unfold upd_dm, upd. simpl.
        apply Nat.eqb_neq in Hj. now rewrite Hj. }
      split.
      { intros j. subst m2. unfold upd_dm, upd. simpl.
        destruct (Nat.eqb j i) eqn:Ej.
        - apply Nat.eqb_eq in Ej. subst. repeat split.
        - apply same_motion_refl. }
      split.
      { intros j Hj _. subst m2. unfold upd_dm, upd. simpl.
        apply Nat.eqb_neq in Hj. now rewrite Hj. }
      split; [reflexivity |]. split; [reflexivity |].
      exists []. split; [now rewrite app_nil_r | constructor].
Qed.

End ReinsertFacts.

Section ReinsertLoopFacts.
Context {E : Env}.

Lemma still_moving_state (m m' : Move) (j : nat) :
  state (dms m' j) = state (dms m j) -> still_moving m' j = still_moving m j.
Proof. unfold still_moving. now intros ->. Qed.

Lemma in_error_state (m m' : Move) (j : nat) :
  state (dms m' j) = state (dms m j) -> in_error m' j = in_error m j.
Proof. unfold in_error, still_moving. now intros ->. Qed.

Lemma in_error_not_moving (m : Move) (j : nat) :
  in_error m j = true -> still_moving m j = false.
Proof.
  unfold in_error. intros H. apply andb_true_iff in H as [H _].
  now apply negb_true_iff in H.
Qed.

Lemma StepDrivers_reinsert_spec (n : nat) (dm_end : DMPtr) :
  forall due fuel m h a dmToInsert,
    lseg (links m) dmToInsert due dm_end ->
    active_list m a ->
    (forall x, dm_end = Some x -> In x a) ->
    NoDup (due ++ a) ->
    (length due + length a < n)%nat ->
    (length due < fuel)%nat ->
    exists m' h' a',
      StepDrivers_reinsert n fuel m h dmToInsert dm_end = Some (m', h') /\
      active_list m' a' /\
      Permutation a' (filter (still_moving m) due ++ a) /\
      (active_sorted m a -> active_sorted m' a') /\
      stepErrors m'
      = Nat.iter (length (filter (in_error m) due)) incr32 (stepErrors m) /\
      (forall j, In j due -> in_error m j = true -> state (dms m' j) = idle) /\
      (forall j, (In j due -> in_error m j = false) ->
                 state (dms m' j) = state (dms m j)) /\
      (forall j, same_motion (dms m j) (dms m' j)) /\
      (forall j, ~ In j due -> ~ In j a -> dms m' j = dms m j) /\
      numHiccups m' = numHiccups m /\
      movementDelay h' = movementDelay h /\
      exists evs, events h' = events h ++ evs /\ quiet evs.
Proof.
  induction due as [| i r IH]; intros fuel m h a dmToInsert Hseg Hl Hend Hnd Hn Hf;
    (destruct fuel as [| fuel]; [inversion Hf |]).
  - simpl in Hseg. subst dmToInsert. simpl. rewrite ptr_eqb_refl.
    exists m, h, a. split; [reflexivity |]. split; [exact Hl |].
    split; [apply Permutation_refl |]. split; [auto |].
    split; [reflexivity |]. split; [intros j [] |].
    split; [reflexivity |]. split; [intros; apply same_motion_refl |].
    split; [reflexivity |]. split; [reflexivity |]. split; [reflexivity |].
    exists []. split; [now rewrite app_nil_r | constructor].
  - destruct Hseg as [-> Hseg].
    simpl in Hnd. inversion Hnd as [| ? ? Hi Hnd']; subst.
    assert (Hia : ~ In i a) by (intros X; apply Hi, in_or_app; now right).
    assert (Hir : ~ In i r) by (intros X; apply Hi, in_or_app; now left).
    assert (Hne : ptr_eqb (Some i) dm_end = false).
    { destruct dm_end as [x |]; [| reflexivity]. simpl.
      apply Nat.eqb_neq. intros ->. apply Hia. now apply Hend. }
    cbn [StepDrivers_reinsert]. rewrite Hne.
    destruct (StepDrivers_reinsert_one_spec n m h i a Hl Hia ltac:(simpl in Hn; lia))
      as [m2 [h2 [a2 [R1 [R2 [R3 [R4 [R5 [R6 [R7 [R8 [R9 [R10 [R11 R12]]]]]]]]]]]]]].
    rewrite R1.
    assert (Hperm2 : Permutation a2 ((if still_moving m i then [i] else []) ++ a)).
    { destruct (still_moving m i).
      - destruct R3 as [b1 [b2 [-> ->]]]. simpl.
        apply Permutation_sym, Permutation_middle.
      - subst a2. apply Permutation_refl. }
    assert (Hdisj : forall j, In j r -> j <> i /\ ~ In j a).
    { intros j Hj. split; [intros ->; contradiction |].
      exact (NoDup_app_disjoint _ _ j Hnd' Hj). }
    assert (Hstate_r : forall j, In j r -> state (dms m2 j) = state (dms m j)).
    { intros j Hj. apply R7. now apply (Hdisj j). }
    assert (Hseg2 : lseg (links m2) (links m i) r dm_end).
    { apply lseg_ext with (nx := links m); [| exact Hseg].
      intros j Hj. destruct (Hdisj j Hj) as [Hji Hja].
      unfold links. now rewrite R9. }
    assert (Hend2 : forall x, dm_end = Some x -> In x a2).
    { intros x Hx. apply (Permutation_in x (Permutation_sym Hperm2)).
      apply in_or_app. right. now apply Hend. }
    assert (Hnd2 : NoDup (r ++ a2)).
    { apply (Permutation_NoDup
               (l := r ++ (if still_moving m i then [i] else []) ++ a)).
      - apply Permutation_app_head, Permutation_sym, Hperm2.
      - destruct (still_moving m i); simpl; [| exact Hnd'].
        apply (Permutation_NoDup (Permutation_middle r a i)). exact Hnd. }
    assert (Hlen2 : (length a2 <= S (length a))%nat).
    { rewrite (Permutation_length Hperm2), length_app.
      destruct (still_moving m i); simpl; lia. }
    destruct (IH fuel m2 h2 a2 (links m i) Hseg2 R2 Hend2 Hnd2
                ltac:(simpl in Hn; lia) ltac:(simpl in Hf; lia))
      as [m' [h' [a' [L1 [L2 [L3 [L4 [L5 [L6 [L7 [L8 [L9 [L10 [L11 L12]]]]]]]]]]]]]].
    exists m', h', a'. split; [exact L1 |]. split; [exact L2 |].
    assert (Hfm : filter (still_moving m2) r = filter (still_moving m) r).
    { apply filter_ext_in. intros j Hj. apply still_moving_state. auto. }
    assert (Hfe : filter (in_error m2) r = filter (in_error m) r).
    { apply filter_ext_in. intros j Hj. apply in_error_state. auto. }
    split.
    { rewrite Hfm in L3. eapply Permutation_trans; [exact L3 |].
      eapply Permutation_trans;
        [apply Permutation_app_head, Hperm2 |].
      simpl. destruct (still_moving m i); simpl.
      - apply Permutation_sym, Permutation_middle.
      - apply Permutation_refl. }
    split; [auto |].
    split.
    { rewrite L5, Hfe, R5. simpl. destruct (in_error m i); simpl.
      - now rewrite <- Nat.iter_succ_r.
      - reflexivity. }
    split.
    { intros j [<- | Hj] He.
      - rewrite L7.
        + rewrite R6, He. reflexivity.
        + intros Hjr. contradiction.
      - apply L6; [exact Hj |]. rewrite in_error_state with (m := m); auto. }
    split.
    { intros j Hj. destruct (Nat.eq_dec j i) as [-> | Hji].
      - rewrite L7 by (intros X; contradiction).
        rewrite R6, (Hj (or_introl eq_refl)). reflexivity.
      - rewrite L7.
        + now apply R7.
        + intros Hjr. rewrite in_error_state with (m := m); auto.
          apply Hj. now right. }
    split; [intros j; eapply same_motion_trans; [apply R8 | apply L8] |].
    split.
    { intros j Hj Hja.
      assert (Hji : j <> i) by (intros ->; apply Hj; now left).
      rewrite L9.
      - now apply R9.
      - intros X. apply Hj. now right.
      - intros X. apply (Permutation_in j Hperm2) in X.
        apply in_app_or in X as [X | X]; [| contradiction].
        destruct (still_moving m i); [| contradiction].
        destruct X as [-> | []]. now apply Hji. }
    split; [congruence |]. split; [congruence |].
    destruct R12 as [e1 [Re1 Rq1]], L12 as [e2 [Le2 Lq2]].
    exists (e1 ++ e2). split.
    + now rewrite Le2, Re1, app_assoc.
    + now apply Forall_app.
Qed.

End ReinsertLoopFacts.

(** ** StepDrivers: finding the due drives and pulsing them *)

(** The longest prefix of [l] whose steps are all due at [now]. *)
Fixpoint due_prefix (m : Move) (now : Z) (l : list nat) : list nat :=
  match l with
  | [] => []
  | i :: l' =>
      if step_due now (dms m i) then i :: due_prefix m now l' else []
  end.

(** What is left of [l] after its due prefix. *)
Fixpoint after_due (m : Move) (now : Z) (l : list nat) : list nat :=
  match l with
  | [] => []
  | i :: l' => if step_due now (dms m i) then after_due m now l' else l
  end.

(** The driver bits of the drives [l], OR-ed onto [acc]. *)
Definition drivers_of {E : Env} (m : Move) (l : list nat) (acc : Z) : Z :=
  fold_left (fun acc i => Z.lor acc (GetDriversBitmap (drive (dms m i)))) l acc.

(** The segment flags of the drives [l], OR-ed onto [acc]. *)
Definition flags_of (m : Move) (l : list nat) (acc : MovementFlags)
  : MovementFlags :=
  fold_left (fun acc i => flags_or acc (segmentFlags (dms m i))) l acc.

(** Events other than a step pulse going high or an endstop poll. *)
Definition no_pulse_or_poll (e : Event) : Prop :=
  match e with
  | StepDriversHigh _ | CheckEndstopsCalled => False
  | _ => True
  end.

Lemma quiet_no_pulse_or_poll (evs : list Event) :
  quiet evs -> Forall no_pulse_or_poll evs.
Proof.
  apply Forall_impl. intros e. now destruct e.
Qed.

Lemma due_prefix_split (m : Move) (now : Z) (l : list nat) :
  l = due_prefix m now l ++ after_due m now l.
Proof.
  induction l as [| i l IH]; simpl; [reflexivity |].
  destruct (step_due now (dms m i)); simpl; [now f_equal | reflexivity].
Qed.

Lemma due_prefix_all_due (m : Move) (now : Z) (l : list nat) :
  Forall (fun i => step_due now (dms m i) = true) (due_prefix m now l).
Proof.
  induction l as [| i l IH]; simpl; [constructor |].
  destruct (step_due now (dms m i)) eqn:D; now constructor.
Qed.

Lemma after_due_head_not_due (m : Move) (now : Z) (l : list nat) (i : nat) :
  hd_error (after_due m now l) = Some i -> step_due now (dms m i) = false.
Proof.
  induction l as [| x l IH]; simpl; [discriminate |].
  destruct (step_due now (dms m x)) eqn:D; [exact IH |].
  simpl. now intros [= <-].
Qed.

Lemma checkEndstops_flags_of (m : Move) (l : list nat) : forall acc,
  checkEndstops (flags_of m l acc)
  = checkEndstops acc || existsb (fun i => checkEndstops (segmentFlags (dms m i))) l.
Proof.
  induction l as [| i l IH]; intros acc; simpl.
  - now rewrite orb_false_r.
  - unfold flags_of in *. simpl. rewrite IH. simpl. now rewrite orb_assoc.
Qed.

Section SelectFacts.
Context {E : Env}.

Lemma drivers_of_lor (m : Move) (l : list nat) : forall acc,
  drivers_of m l acc = Z.lor acc (drivers_of m l 0).
Proof.
  induction l as [| i l IH]; intros acc; simpl.
  - now rewrite Z.lor_0_r.
  - unfold drivers_of in *. simpl.
    rewrite (IH (Z.lor acc _)), (IH (GetDriversBitmap _)).
    now rewrite Z.lor_assoc.
Qed.

(** A drive whose driver bits are shared with none of the drives [l] has no
    bit in their union. *)
Lemma drivers_of_disjoint (m : Move) (bits : Z) (l : list nat) :
  (forall j, In j l -> Z.land (GetDriversBitmap (drive (dms m j))) bits = 0) ->
  Z.land (drivers_of m l 0) bits = 0.
Proof.
  induction l as [| i l IH]; intros H; simpl.
  - reflexivity.
  - unfold drivers_of in *. simpl.
    fold (drivers_of m l (GetDriversBitmap (drive (dms m i)))).
    rewrite drivers_of_lor. rewrite Z.land_lor_distr_l.
    rewrite (H i (or_introl eq_refl)). unfold drivers_of. rewrite IH.
    + reflexivity.
    + intros j Hj. apply H. now right.
Qed.

Lemma StepDrivers_due_spec (m : Move) (now : Z) :
  forall l fuel p driversStepping flags,
    lseg (links m) p l None -> (length l < fuel)%nat ->
    exists q,
      StepDrivers_due fuel m now p driversStepping flags
      = Some (q, drivers_of m (due_prefix m now l) driversStepping,
              flags_of m (due_prefix m now l) flags) /\
      lseg (links m) p (due_prefix m now l) q /\
      lseg (links m) q (after_due m now l) None.
Proof.
  induction l as [| i l IH]; intros fuel p ds fl H Hf;
    (destruct fuel as [| fuel]; [inversion Hf |]).
  - simpl in H. subst p. exists None. simpl. auto.
  - destruct H as [-> H]. simpl.
    destruct (step_due now (dms m i)) eqn:D.
    + destruct (IH fuel (links m i)
                  (Z.lor ds (GetDriversBitmap (drive (dms m i))))
                  (flags_or fl (segmentFlags (dms m i))) H
                  ltac:(simpl in Hf; lia)) as [q [Q1 [Q2 Q3]]].
      exists q. split; [exact Q1 |]. split; [| exact Q3].
      simpl. split; [reflexivity | exact Q2].
    + exists (Some i). simpl. split; [reflexivity |].
      split; [reflexivity |]. split; [reflexivity | exact H].
Qed.

Lemma links_upd_dm_calc (m : Move) (i j : nat) :
  links (upd_dm m i CalcNextStepTime) j = links m j.
Proof.
  unfold links, upd_dm, upd. simpl.
  destruct (Nat.eqb_spec j i) as [-> |]; [| reflexivity].
  apply CalcNextStepTime_nextDM.
Qed.

Lemma StepDrivers_calc_spec (q : DMPtr) :
  forall due fuel m p,
    lseg (links m) p due q ->
    (forall x, q = Some x -> ~ In x due) ->
    NoDup due -> (length due < fuel)%nat ->
    exists m',
      StepDrivers_calc fuel m p q = Some m' /\
      (forall j, In j due -> dms m' j = CalcNextStepTime (dms m j)) /\
      (forall j, ~ In j due -> dms m' j = dms m j) /\
      (forall j, links m' j = links m j) /\
      activeDMs m' = activeDMs m /\ same_counters m m'.
Proof.
  induction due as [| i r IH]; intros fuel m p H Hq Hnd Hf;
    (destruct fuel as [| fuel]; [inversion Hf |]).
  - simpl in H. subst p. simpl. rewrite ptr_eqb_refl.
    exists m. split; [reflexivity |]. split; [intros j [] |].
    repeat split.
  - destruct H as [-> H]. inversion Hnd as [| ? ? Hi Hnd']; subst.
    assert (Hne : ptr_eqb (Some i) q = false).
    { destruct q as [x |]; [| reflexivity]. simpl.
      apply Nat.eqb_neq. intros ->. apply (Hq x eq_refl). now left. }
    cbn [StepDrivers_calc]. rewrite Hne.
    set (m1 := upd_dm m i CalcNextStepTime).
    assert (Hnext : nextDM (dms m1 i) = links m i).
    { change (links m1 i = links m i). apply links_upd_dm_calc. }
    rewrite Hnext.
    destruct (IH fuel m1 (links m i)) as [m' [C1 [C2 [C3 [C4 [C5 C6]]]]]].
    + apply lseg_ext with (nx := links m); [| exact H].
      intros j _. symmetry. apply links_upd_dm_calc.
    + intros x Hx Hin. apply (Hq x Hx). now right.
    + exact Hnd'.
    + simpl in Hf. lia.
    + exists m'. split; [exact C1 |].
      split.
      { intros j [<- | Hj].
        - rewrite C3 by exact Hi. unfold m1, upd_dm, upd. simpl.
          now rewrite Nat.eqb_refl.
        - rewrite C2 by exact Hj. unfold m1, upd_dm, upd. simpl.
          destruct (Nat.eqb_spec j i) as [-> |]; [contradiction | reflexivity]. }
      split.
      { intros j Hj. rewrite C3 by (intros X; apply Hj; now right).
        unfold m1, upd_dm, upd. simpl.
        destruct (Nat.eqb_spec j i) as [-> |]; [| reflexivity].
        exfalso. apply Hj. now left. }
      split; [intros j; rewrite C4; apply links_upd_dm_calc |].
      split; [exact C5 |].
      destruct C6 as [A1 [A2 [A3 [A4 [A5 A6]]]]]. repeat split; assumption.
Qed.

Lemma StepDrivers_pulse_spec (n : nat) (m : Move) (h : Hw) (q : DMPtr)
  (due : list nat) (driversStepping : Z) :
  lseg (links m) (activeDMs m) due q ->
  (forall x, q = Some x -> ~ In x due) ->
  NoDup due -> (length due < n)%nat ->
  exists m' h',
    StepDrivers_pulse n m h q driversStepping = Some (m', h') /\
    (forall j, In j due -> dms m' j = CalcNextStepTime (dms m j)) /\
    (forall j, ~ In j due -> dms m' j = dms m j) /\
    (forall j, links m' j = links m j) /\
    activeDMs m' = activeDMs m /\
    stepErrors m' = stepErrors m /\ numHiccups m' = numHiccups m /\
    movementDelay h' = movementDelay h /\
    exists pre post,
      events h' = events h ++ pre ++ StepDriversHigh driversStepping :: post /\
      quiet pre /\ Forall no_pulse_or_poll post.
Proof.
  intros Hseg Hq Hnd Hn.
  destruct (StepDrivers_calc_spec q due n m (activeDMs m) Hseg Hq Hnd Hn)
    as [m1 [C1 [C2 [C3 [C4 [C5 [_ [C6 [C7 _]]]]]]]]].
  unfold StepDrivers_pulse.
  destruct (SUPPORT_SLOW_DRIVERS
            && negb (Z.land driversStepping GetSlowDriversBitmap =? 0)).
  - simpl. rewrite C1. eexists. eexists. split; [reflexivity |].
    simpl. repeat (split; [assumption |]). split; [reflexivity |].
    exists [BusyWait], [BusyWait; StepDriversLow driversStepping].
    split; [| split; repeat constructor].
    rewrite <- !app_assoc. reflexivity.
  - rewrite C1. eexists. eexists. split; [reflexivity |].
    simpl. repeat (split; [assumption |]). split; [reflexivity |].
    exists [], [StepDriversLow driversStepping].
    split; [| split; repeat constructor].
    rewrite <- !app_assoc. reflexivity.
Qed.

End SelectFacts.

Section StepDriversFacts.
Context {E : Env}.

(** The movement clock as [StepDrivers] reads it again after the endstop
    check. *)
Definition clock_after_check (h : Hw) : Z :=
  fst (GetMovementTimerTicks h).

Lemma StepDrivers_select_spec (n : nat) (m : Move) (h : Hw) (now : Z)
  (l l1 : list nat) :
  active_list m l -> (length l < n)%nat ->
  (checkEndstops (flags_of m (due_prefix m now l) flags_Clear) = true ->
   active_list (fst (CheckEndstops m)) l1 /\ (length l1 < n)%nat) ->
  let chk := checkEndstops (flags_of m (due_prefix m now l) flags_Clear) in
  let m1 := if chk then fst (CheckEndstops m) else m in
  let lst := if chk then l1 else l in
  let now1 := if chk then clock_after_check h else now in
  exists h1 q,
    StepDrivers_select n m h now
    = Some (m1, h1, q, drivers_of m1 (due_prefix m1 now1 lst) 0) /\
    lseg (links m1) (activeDMs m1) (due_prefix m1 now1 lst) q /\
    lseg (links m1) q (after_due m1 now1 lst) None /\
    movementDelay h1 = movementDelay h /\
    exists pre,
      events h1 = events h ++ (if chk then CheckEndstopsCalled :: pre else []) /\
      quiet pre.
Proof.
  intros Hl Hn Hchk. unfold StepDrivers_select.
  destruct (StepDrivers_due_spec m now l n (activeDMs m) 0 flags_Clear Hl Hn)
    as [q [Q1 [Q2 Q3]]].
  rewrite Q1.
  destruct (checkEndstops (flags_of m (due_prefix m now l) flags_Clear)) eqn:C;
    cbn zeta.
  - destruct (Hchk eq_refl) as [Hl1 Hn1].
    destruct (CheckEndstops m) as [m1 wake]. simpl in Hl1.
    set (h2 := if SUPPORT_CAN_EXPANSION && wake
               then emit (emit h CheckEndstopsCalled) WakeAsyncSender
               else emit h CheckEndstopsCalled).
    assert (Hh2 : timerReads h2 = timerReads h /\
                  movementDelay h2 = movementDelay h /\
                  exists pre, events h2 = events h ++ CheckEndstopsCalled :: pre
                              /\ quiet pre).
    { unfold h2. destruct (SUPPORT_CAN_EXPANSION && wake); simpl.
      - repeat split. exists [WakeAsyncSender]. split.
        + now rewrite <- app_assoc.
        + repeat constructor.
      - repeat split. exists []. split; [reflexivity | constructor]. }
    destruct Hh2 as [T1 [T2 [pre [T3 T4]]]].
    assert (Hnow : fst (GetMovementTimerTicks h2) = clock_after_check h).
    { unfold clock_after_check, GetMovementTimerTicks, GetTimerTicks. simpl.
      now rewrite T1, T2. }
    destruct (GetMovementTimerTicks h2) as [now' h3] eqn:G.
    simpl in Hnow. subst now'.
    destruct (StepDrivers_due_spec m1 (clock_after_check h) l1 n (activeDMs m1)
                0 flags_Clear Hl1 Hn1) as [q' [P1 [P2 P3]]].
    rewrite P1. simpl.
    exists h3, q'. split; [reflexivity |]. split; [exact P2 |].
    split; [exact P3 |].
    assert (Hh3 : movementDelay h3 = movementDelay h2 /\ events h3 = events h2).
    { unfold GetMovementTimerTicks, GetTimerTicks in G.
      injection G as _ <-. split; reflexivity. }
    destruct Hh3 as [U1 U2].
    split; [congruence |]. exists pre. split; [congruence | exact T4].
  - simpl. exists h, q. split; [reflexivity |]. split; [exact Q2 |].
    split; [exact Q3 |]. split; [reflexivity |].
    exists []. split; [now rewrite app_nil_r | constructor].
Qed.

Lemma StepDrivers_finish_spec (n : nat) (m1 : Move) (h1 : Hw) (q : DMPtr)
  (ds : Z) (due rest : list nat) :
  lseg (links m1) (activeDMs m1) due q ->
  lseg (links m1) q rest None ->
  (length (due ++ rest) < n)%nat ->
  exists m2 h2 m' h' a',
    StepDrivers_pulse n m1 h1 q ds = Some (m2, h2) /\
    StepDrivers_reinsert n n (set_activeDMs m2 q) h2 (activeDMs m2) q
    = Some (m', h') /\
    (forall j, In j due -> dms m2 j = CalcNextStepTime (dms m1 j)) /\
    (forall j, ~ In j due -> dms m2 j = dms m1 j) /\
    stepErrors m2 = stepErrors m1 /\
    active_list m' a' /\
    Permutation a' (filter (still_moving m2) due ++ rest) /\
    (active_sorted m1 rest -> active_sorted m' a') /\
    stepErrors m'
    = Nat.iter (length (filter (in_error m2) due)) incr32 (stepErrors m1) /\
    (forall j, In j due -> in_error m2 j = true -> state (dms m' j) = idle) /\
    (forall j, (In j due -> in_error m2 j = false) ->
               state (dms m' j) = state (dms m2 j)) /\
    (forall j, same_motion (dms m2 j) (dms m' j)) /\
    numHiccups m' = numHiccups m1 /\
    movementDelay h' = movementDelay h1 /\
    exists pre post,
      events h' = events h1 ++ pre ++ StepDriversHigh ds :: post /\
      quiet pre /\ Forall no_pulse_or_poll post.
Proof.
  intros Hdue Hrest Hn.
  assert (Hall : lseg (links m1) (activeDMs m1) (due ++ rest) None).
  { apply lseg_app. now exists q. }
  pose proof (lseg_NoDup _ _ _ Hall) as Hnd.
  assert (Hq : forall x, q = Some x -> In x rest).
  { intros x ->. destruct rest as [| y rest]; [discriminate Hrest |].
    destruct Hrest as [[= ->] _]. now left. }
  assert (Hqd : forall x, q = Some x -> ~ In x due).
  { intros x Hx Hin. apply (NoDup_app_disjoint _ _ x Hnd Hin). now apply Hq. }
  rewrite length_app in Hn.
  destruct (StepDrivers_pulse_spec n m1 h1 q due ds Hdue Hqd
              (NoDup_app_remove_r _ _ Hnd) ltac:(lia))
    as [m2 [h2 [P1 [P2 [P3 [P4 [P5 [P6 [P7 [P8 P9]]]]]]]]]].
  set (m3 := set_activeDMs m2 q).
  assert (Hseg3 : lseg (links m3) (activeDMs m2) due q).
  { rewrite P5. apply lseg_ext with (nx := links m1); [| exact Hdue].
    intros j _. symmetry. apply P4. }
  assert (Hl3 : active_list m3 rest).
  { unfold active_list. simpl.
    apply lseg_ext with (nx := links m1); [| exact Hrest].
    intros j _. symmetry. apply P4. }
  destruct (StepDrivers_reinsert_spec n q due n m3 h2 rest (activeDMs m2)
              Hseg3 Hl3 Hq Hnd ltac:(lia) ltac:(lia))
    as [m' [h' [a' [L1 [L2 [L3 [L4 [L5 [L6 [L7 [L8 [L9 [L10 [L11 L12]]]]]]]]]]]]]].
  exists m2, h2, m', h', a'.
  split; [exact P1 |]. split; [exact L1 |]. split; [exact P2 |].
  split; [exact P3 |]. split; [exact P6 |]. split; [exact L2 |].
  split; [exact L3 |].
  split.
  { intros Hs. apply L4. apply Sorted_ext_in with (R := time_le m1); [| exact Hs].
    intros a b Ha Hb. unfold time_le. simpl.
    rewrite !P3; [auto | |]; intros X;
      eapply (NoDup_app_disjoint _ _ _ Hnd X); eassumption. }
  split; [rewrite L5; simpl; now rewrite P6 |].
  split; [exact L6 |]. split; [exact L7 |]. split; [exact L8 |].
  split; [rewrite L10; exact P7 |]. split; [congruence |].
  destruct P9 as [pre [post [E1 [E2 E3]]]], L12 as [evs [E4 E5]].
  exists pre, (post ++ evs). split.
  - rewrite E4, E1. rewrite <- !app_assoc. reflexivity.
  - split; [exact E2 |]. apply Forall_app. split; [exact E3 |].
    now apply quiet_no_pulse_or_poll.
Qed.

End StepDriversFacts.

Section SchedulerTheorems.
Context {E : Env}.

(** C4.  Endstop check precedes pulses.  Let the active list of [m] be the
    well-formed chain [l].  The due set of [StepDrivers] is the maximal
    prefix of [l] whose steps are due at [now], and the segment flags of the
    due drives are OR-ed together, so the combined [checkEndstops] flag is
    set exactly when a due drive has it.  [StepDrivers] returns, and in its
    record of outputs there is exactly one "step pins high" event.  If the
    combined flag is set (and [CheckEndstops] leaves a well-formed list
    [l1]), [CheckEndstops] is invoked before that event; the pins driven
    high are those of the due prefix of the list as [CheckEndstops] left
    it, at the clock value read after the check; hence a drive that is no
    longer in the list, and shares no driver with a listed drive, gets no
    pulse.  Otherwise the pins are those of the first due set and the
    endstops are not polled. *)
Theorem StepDrivers_checks_endstops_before_pulses
  (n : nat) (m : Move) (h : Hw) (now : Z) (l l1 : list nat) :
  let due := due_prefix m now l in
  let chk := existsb (fun i => checkEndstops (segmentFlags (dms m i))) due in
  let m1 := fst (CheckEndstops m) in
  let due1 := due_prefix m1 (clock_after_check h) l1 in
  active_list m l -> (length l < n)%nat ->
  (chk = true -> active_list m1 l1 /\ (length l1 < n)%nat) ->
  l = due ++ after_due m now l /\
  Forall (fun i => step_due now (dms m i) = true) due /\
  (forall i, hd_error (after_due m now l) = Some i ->
             step_due now (dms m i) = false) /\
  checkEndstops (flags_of m due flags_Clear) = chk /\
  exists m' h',
    StepDrivers n m h now = Some (m', h') /\
    if chk then
      (exists pre post,
         events h'
         = events h ++ CheckEndstopsCalled :: pre
           ++ StepDriversHigh (Z.land (drivers_of m1 due1 0)
                                      (steppingEnabledDrivers m1)) :: post /\
         quiet pre /\ Forall no_pulse_or_poll post) /\
      (forall bits,
         (forall j, In j l1 ->
                    Z.land (GetDriversBitmap (drive (dms m1 j))) bits = 0) ->
         Z.land (Z.land (drivers_of m1 due1 0) (steppingEnabledDrivers m1)) bits
         = 0)
    else
      exists pre post,
        events h'
        = events h ++ pre
          ++ StepDriversHigh (Z.land (drivers_of m due 0)
                                     (steppingEnabledDrivers m)) :: post /\
        quiet pre /\ Forall no_pulse_or_poll post.
Proof.
  intros due chk m1 due1 Hl Hn Hchk.
  assert (Hflags : checkEndstops (flags_of m due flags_Clear) = chk).
  { apply checkEndstops_flags_of. }
  split; [apply due_prefix_split |].
  split; [apply due_prefix_all_due |].
  split; [apply after_due_head_not_due |].
  split; [exact Hflags |].
  assert (Hchk' : checkEndstops (flags_of m (due_prefix m now l) flags_Clear)
                  = true ->
                  active_list (fst (CheckEndstops m)) l1 /\ (length l1 < n)%nat).
  { fold due. rewrite Hflags. exact Hchk. }
  destruct (StepDrivers_select_spec n m h now l l1 Hl Hn Hchk')
    as [h1 [q [S1 [S2 [S3 [S4 [pre1 [S5 S6]]]]]]]].
  fold due in S1, S2, S3, S5. rewrite Hflags in S1, S2, S3, S5.
  unfold StepDrivers. rewrite S1. cbn zeta.
  destruct chk eqn:C.
  - cbv beta iota in S2, S3, S5 |- *.
    fold m1 in S2, S3 |- *. fold due1 in S2, S3 |- *.
    destruct (Hchk eq_refl) as [Hl1 Hn1].
    destruct (StepDrivers_finish_spec n m1 h1 q
                (Z.land (drivers_of m1 due1 0) (steppingEnabledDrivers m1))
                due1 (after_due m1 (clock_after_check h) l1) S2 S3)
      as (m2 & h2 & m' & h' & a' & F1 & F2 & _ & _ & _ & _ & _ & _ & _ & _
          & _ & _ & _ & _ & F3).
    { unfold due1. now rewrite <- due_prefix_split. }
    rewrite F1, F2. exists m', h'. split; [reflexivity |].
    split.
    + destruct F3 as [pre [post [E1 [E2 E3]]]].
      exists (pre1 ++ pre), post. split.
      * rewrite E1, S5. rewrite <- !app_assoc. reflexivity.
      * split; [now apply Forall_app | exact E3].
    + intros bits Hbits.
      rewrite <- Z.land_assoc, (Z.land_comm (steppingEnabledDrivers m1) bits),
        Z.land_assoc.
      rewrite drivers_of_disjoint; [reflexivity |].
      intros j Hj. apply Hbits.
      rewrite (due_prefix_split m1 (clock_after_check h) l1).
      apply in_or_app. now left.
  - cbv beta iota in S2, S3, S5 |- *. fold due.
    destruct (StepDrivers_finish_spec n m h1 q
                (Z.land (drivers_of m due 0) (steppingEnabledDrivers m))
                due (after_due m now l) S2 S3)
      as (m2 & h2 & m' & h' & a' & F1 & F2 & _ & _ & _ & _ & _ & _ & _ & _
          & _ & _ & _ & _ & F3).
    { unfold due. now rewrite <- due_prefix_split. }
    rewrite F1, F2. exists m', h'. split; [reflexivity |].
    destruct F3 as [pre [post [E1 [E2 E3]]]].
    exists pre, post. split; [| split; assumption].
    rewrite E1, S5. now rewrite app_nil_r.
Qed.

(** C6.  Step errors are counted, local and non-fatal.
    In [StepDrivers]: let the active list be the well-formed chain [l] (and
    let [CheckEndstops], if it is called, leave a well-formed chain [l1]),
    and let [due] be the drives that are stepped.  [StepDrivers] returns;
    [stepErrors] is incremented once for every drive of [due] whose state
    after [CalcNextStepTime] is neither a motion state nor idle; each such
    drive is forced to [DMState::idle] and is not in the active list
    afterwards; every other drive has the state that [CalcNextStepTime] gave
    it, or, if it was not stepped, the state it had; every drive of [due]
    in a motion state and every drive that was not due is in the active
    list afterwards; and a drive of [due] that is not in a motion state -
    in error or finished - is not.
    In [AddLinearSegments], when the drive had no segments, scheduling the
    first segment fails and the drive is not idle: [stepErrors] is
    incremented by one, that drive is forced to idle, and the active list
    and all other drives are left as they are. *)
Theorem step_errors_are_counted_and_local
  (n fuel : nat) (m : Move) (h : Hw) (now : Z) (l l1 : list nat)
  (dda : DDA) (logicalDrive : nat) (startTime : Z) (params : PrepParams)
  (steps : float) (useInputShaping : bool) (moveFlags : MovementFlags) :
  (let chk := existsb (fun i => checkEndstops (segmentFlags (dms m i)))
                      (due_prefix m now l) in
   let m1 := if chk then fst (CheckEndstops m) else m in
   let lst := if chk then l1 else l in
   let now1 := if chk then clock_after_check h else now in
   let due := due_prefix m1 now1 lst in
   let rest := after_due m1 now1 lst in
   let stepped := fun j => CalcNextStepTime (dms m1 j) in
   let moving := fun j => Nat.leb firstMotionState (state (stepped j)) in
   let error := fun j => negb (moving j)
                         && negb (Nat.eqb (state (stepped j)) idle) in
   active_list m l -> (length l < n)%nat ->
   (chk = true ->
    active_list (fst (CheckEndstops m)) l1 /\ (length l1 < n)%nat) ->
   exists m' h' a',
     StepDrivers n m h now = Some (m', h') /\
     active_list m' a' /\
     Permutation a' (filter moving due ++ rest) /\
     stepErrors m'
     = Nat.iter (length (filter error due)) incr32 (stepErrors m1) /\
     (forall j, In j due -> error j = true ->
                state (dms m' j) = idle /\ ~ In j a') /\
     (forall j, In j due -> error j = false ->
                state (dms m' j) = state (stepped j)) /\
     (forall j, ~ In j due -> state (dms m' j) = state (dms m1 j)) /\
     (forall j, In j due -> moving j = true -> In j a') /\
     (forall j, In j due -> moving j = false -> ~ In j a') /\
     (forall j, In j rest -> In j a')) /\
  (let m1 := AddSegment_calls m logicalDrive
               (AddLinearSegments_calls dda startTime params steps
                                        useInputShaping moveFlags) in
   segments (dms m logicalDrive) = None ->
   fst (ScheduleFirstSegment (dms m1 logicalDrive)) = false ->
   state (snd (ScheduleFirstSegment (dms m1 logicalDrive))) <> idle ->
   exists m',
     AddLinearSegments n fuel m h dda logicalDrive startTime params steps
                       useInputShaping moveFlags = Some (m', h) /\
     stepErrors m' = incr32 (stepErrors m1) /\
     state (dms m' logicalDrive) = idle /\
     activeDMs m' = activeDMs m1 /\
     (forall j, j <> logicalDrive -> dms m' j = dms m1 j)).
Proof.
  split.
  - intros chk m1 lst now1 due rest stepped moving error Hl Hn Hchk.
    assert (Hflags : checkEndstops (flags_of m (due_prefix m now l) flags_Clear)
                     = chk) by apply checkEndstops_flags_of.
    assert (Hchk' : checkEndstops (flags_of m (due_prefix m now l) flags_Clear)
                    = true ->
                    active_list (fst (CheckEndstops m)) l1
                    /\ (length l1 < n)%nat).
    { rewrite Hflags. exact Hchk. }
    destruct (StepDrivers_select_spec n m h now l l1 Hl Hn Hchk')
      as [h1 [q [S1 [S2 [S3 _]]]]].
    rewrite Hflags in S1, S2, S3.
    fold m1 lst now1 in S1, S2, S3. fold due in S1, S2. fold rest in S3.
    assert (Hlst : active_list m1 lst /\ (length lst < n)%nat).
    { unfold m1, lst. destruct chk; [now apply Hchk | now split]. }
    destruct Hlst as [Hlst Hlen].
    assert (Hsplit : lst = due ++ rest) by apply due_prefix_split.
    assert (Hnd : NoDup (due ++ rest)).
    { rewrite <- Hsplit. exact (lseg_NoDup _ _ _ Hlst). }
    unfold StepDrivers. rewrite S1. cbn zeta.
    destruct (StepDrivers_finish_spec n m1 h1 q
                (Z.land (drivers_of m1 due 0) (steppingEnabledDrivers m1))
                due rest S2 S3)
      as (m2 & h2 & m' & h' & a' & F1 & F2 & Fa & Fb & _ & Fl & Fp & _ & Fs
          & Fe & Fo & _).
    { now rewrite <- Hsplit. }
    rewrite F1, F2. exists m', h', a'.
    assert (Hmov : forall j, In j due -> still_moving m2 j = moving j).
    { intros j Hj. unfold still_moving, moving, stepped. now rewrite (Fa j Hj). }
    assert (Herr : forall j, In j due -> in_error m2 j = error j).
    { intros j Hj. unfold in_error, error. rewrite (Hmov j Hj).
      unfold stepped. now rewrite (Fa j Hj). }
    assert (Hperm : Permutation a' (filter moving due ++ rest)).
    { rewrite <- (filter_ext_in (still_moving m2) moving due Hmov). exact Fp. }
    assert (Hout : forall j, In j due -> moving j = false -> ~ In j a').
    { intros j Hj Hmv Hin. apply (Permutation_in j Hperm) in Hin.
      apply in_app_or in Hin as [Hin | Hin].
      - apply filter_In in Hin as [_ Hin]. congruence.
      - exact (NoDup_app_disjoint _ _ j Hnd Hj Hin). }
    split; [reflexivity |]. split; [exact Fl |]. split; [exact Hperm |].
    split.
    { rewrite Fs. now rewrite (filter_ext_in (in_error m2) error due Herr). }
    split.
    { intros j Hj He. split.
      - apply (Fe j Hj). now rewrite (Herr j Hj).
      - apply (Hout j Hj). unfold error in He.
        apply andb_true_iff in He as [He _]. now apply negb_true_iff in He. }
    split.
    { intros j Hj He. rewrite (Fo j).
      - unfold stepped. now rewrite (Fa j Hj).
      - intros _. now rewrite (Herr j Hj). }
    split.
    { intros j Hj. rewrite (Fo j) by (intros X; contradiction).
      now rewrite (Fb j Hj). }
    split.
    { intros j Hj Hmv. apply (Permutation_in j (Permutation_sym Hperm)).
      apply in_or_app. left. apply filter_In. now split. }
    split; [exact Hout |].
    intros j Hj. apply (Permutation_in j (Permutation_sym Hperm)).
    apply in_or_app. now right.
  - intros m1 Hsegs Hfail Hstate.
    unfold AddLinearSegments, AddLinearSegments_schedule.
    rewrite Hsegs. fold m1.
    destruct (ScheduleFirstSegment (dms m1 logicalDrive)) as [ok d'] eqn:HS.
    simpl in Hfail, Hstate. subst ok.
    assert (Hd : dms (upd_dm m1 logicalDrive (fun _ => d')) logicalDrive = d').
    { unfold upd_dm, upd. simpl. now rewrite Nat.eqb_refl. }
    rewrite Hd. apply Nat.eqb_neq in Hstate. rewrite Hstate. simpl.
    eexists. split; [reflexivity |].
    split; [reflexivity |].
    split; [unfold upd_dm, upd; simpl; now rewrite Nat.eqb_refl |].
    split; [reflexivity |].
    intros j Hj. unfold upd_dm, upd. simpl.
    apply Nat.eqb_neq in Hj. now rewrite Hj.
Qed.

End SchedulerTheorems.

(** ** Interrupt: hiccups *)

Section HiccupFacts.
Context {E : Env}.

(** The delay inserted at retry [j] (counted from 0) of the hiccup loop. *)
Definition hiccup_amount (j : nat) : Z :=
  wrap32 (HiccupTime + Z.of_nat j * HiccupIncrement).

(** The sum of [cnt] successive hiccup delays, from retry [j0] on. *)
Fixpoint hiccup_sum (j0 cnt : nat) : Z :=
  match cnt with
  | O => 0
  | S c => (HiccupTime + Z.of_nat j0 * HiccupIncrement) + hiccup_sum (S j0) c
  end.

(** The timer after [k] failed retries, the first of them retry [j0]. *)
Fixpoint hiccup_hw (h : Hw) (j0 k : nat) : Hw :=
  match k with
  | O => h
  | S k' =>
      hiccup_hw
        (snd (GetMovementTimerTicks (IncreaseMovementDelay h (hiccup_amount j0))))
        (S j0) k'
  end.

Lemma hiccup_amount_next (j : nat) :
  wrap32 (hiccup_amount j + HiccupIncrement) = hiccup_amount (S j).
Proof.
  unfold hiccup_amount. rewrite wrap32_add_l. f_equal. lia.
Qed.

Lemma hiccup_sum_lower_bound (j0 cnt : nat) :
  0 < HiccupTime -> 0 <= HiccupIncrement ->
  Z.of_nat cnt * HiccupTime <= hiccup_sum j0 cnt.
Proof.
  intros HT HI. revert j0. induction cnt as [| c IH]; intros j0.
  - simpl. lia.
  - cbn [hiccup_sum]. specialize (IH (S j0)). nia.
Qed.

Lemma hiccup_sum_closed_form (cnt : nat) :
  2 * hiccup_sum 0 cnt
  = 2 * Z.of_nat cnt * HiccupTime
    + Z.of_nat cnt * (Z.of_nat cnt - 1) * HiccupIncrement.
Proof.
  assert (G : forall c j0,
             2 * hiccup_sum j0 c
             = 2 * Z.of_nat c * HiccupTime
               + (2 * Z.of_nat j0 * Z.of_nat c
                  + Z.of_nat c * (Z.of_nat c - 1)) * HiccupIncrement).
  { induction c as [| c IH]; intros j0.
    - simpl. lia.
    - cbn [hiccup_sum]. specialize (IH (S j0)). nia. }
  rewrite G. lia.
Qed.

Lemma wrap32_hiccup_step (a : Z) (j0 c : nat) :
  wrap32 (wrap32 (a + hiccup_amount j0) + hiccup_sum (S j0) c)
  = wrap32 (a + hiccup_sum j0 (S c)).
Proof.
  rewrite wrap32_add_l.
  replace (a + hiccup_amount j0 + hiccup_sum (S j0) c)
    with (hiccup_amount j0 + (a + hiccup_sum (S j0) c)) by lia.
  unfold hiccup_amount. rewrite wrap32_add_l.
  change (hiccup_sum j0 (S c))
    with (HiccupTime + Z.of_nat j0 * HiccupIncrement + hiccup_sum (S j0) c).
  f_equal. lia.
Qed.

Lemma Interrupt_hiccup_spec (m : Move) (hd : nat) :
  activeDMs m = Some hd ->
  forall k fuel h j0 inserted,
    (forall j, (j < k)%nat ->
       CallbackAlreadyDue
         (IncreaseMovementDelay (hiccup_hw h j0 j) (hiccup_amount (j0 + j)))
         (nextStepTime (dms m hd)) = true) ->
    CallbackAlreadyDue
      (IncreaseMovementDelay (hiccup_hw h j0 k) (hiccup_amount (j0 + k)))
      (nextStepTime (dms m hd)) = false ->
    (k < fuel)%nat ->
    exists h',
      Interrupt_hiccup fuel m h (hiccup_amount j0) inserted = Some (m, h') /\
      movementDelay h' = wrap32 (movementDelay h + hiccup_sum j0 (S k)) /\
      events h'
      = events h
        ++ map (fun j => MovementDelayIncreased (hiccup_amount j)) (seq j0 (S k))
        ++ CallbackScheduled (nextStepTime (dms m hd))
        :: (if SUPPORT_CAN_EXPANSION && negb InExpansionMode
            then [InsertHiccup (wrap32 (inserted + hiccup_sum j0 (S k)))]
            else []).
Proof.
  intros Hhd. induction k as [| k IH]; intros fuel h j0 inserted Hlate Hok Hf;
    (destruct fuel as [| fuel]; [inversion Hf |]).
  - simpl in Hok. rewrite Nat.add_0_r in Hok.
    cbn [Interrupt_hiccup]. unfold ScheduleNextStepInterrupt. rewrite Hhd.
    unfold ScheduleMovementCallbackFromIsr. rewrite Hok. cbn [negb].
    assert (Hins : wrap32 (inserted + hiccup_amount j0)
                   = wrap32 (inserted + hiccup_sum j0 1)).
    { unfold hiccup_amount. rewrite wrap32_add_r. cbn [hiccup_sum].
      f_equal. lia. }
    assert (Hdel : wrap32 (movementDelay h + hiccup_amount j0)
                   = wrap32 (movementDelay h + hiccup_sum j0 1)).
    { unfold hiccup_amount. rewrite wrap32_add_r. cbn [hiccup_sum].
      f_equal. lia. }
    destruct (SUPPORT_CAN_EXPANSION && negb InExpansionMode);
      eexists; (split; [reflexivity |]); simpl;
      (split; [exact Hdel |]); rewrite <- ?app_assoc; simpl;
      try rewrite Hins; reflexivity.
  - pose proof (Hlate 0%nat ltac:(lia)) as H0.
    simpl in H0. rewrite Nat.add_0_r in H0.
    cbn [Interrupt_hiccup]. unfold ScheduleNextStepInterrupt. rewrite Hhd.
    unfold ScheduleMovementCallbackFromIsr. rewrite H0. cbn [negb].
    set (h1 := IncreaseMovementDelay h (hiccup_amount j0)) in *.
    destruct (GetMovementTimerTicks h1) as [now' h3] eqn:G.
    assert (Hh3 : h3 = snd (GetMovementTimerTicks h1)) by (now rewrite G).
    rewrite hiccup_amount_next.
    destruct (IH fuel h3 (S j0) (wrap32 (inserted + hiccup_amount j0)))
      as [h' [A1 [A2 A3]]].
    + intros j Hj. specialize (Hlate (S j) ltac:(lia)).
      cbn [hiccup_hw] in Hlate. fold h1 in Hlate. rewrite <- Hh3 in Hlate.
      now replace (S j0 + j)%nat with (j0 + S j)%nat by lia.
    + cbn [hiccup_hw] in Hok. fold h1 in Hok. rewrite <- Hh3 in Hok.
      now replace (S j0 + k)%nat with (j0 + S k)%nat by lia.
    + lia.
    + exists h'. split; [exact A1 |].
      assert (Hd3 : movementDelay h3 = wrap32 (movementDelay h + hiccup_amount j0)
                    /\ events h3
                       = events h ++ [MovementDelayIncreased (hiccup_amount j0)]).
      { rewrite Hh3. unfold h1. split; reflexivity. }
      destruct Hd3 as [D1 D2].
      split.
      * rewrite A2, D1. apply wrap32_hiccup_step.
      * rewrite A3, D2. rewrite <- app_assoc. cbn [seq map app].
        destruct (SUPPORT_CAN_EXPANSION && negb InExpansionMode);
          [| reflexivity].
        rewrite wrap32_hiccup_step. reflexivity.
Qed.

(** One pass of the loop of [Interrupt] that ends in a hiccup. *)
Lemma Interrupt_loop_hiccup
  (n fuel : nat) (m m1 : Move) (h h1 : Hw) (now isrStartTime : Z)
  (hd k : nat) :
  let t := nextStepTime (dms m1 hd) in
  let h3 := snd (GetMovementTimerTicks h1) in
  let total := hiccup_sum 0 (S k) in
  StepDrivers n m h now = Some (m1, h1) ->
  activeDMs m1 = Some hd ->
  CallbackAlreadyDue h1 t = true ->
  to_int32 MaxStepInterruptTime
  <= to_int32 (fst (GetMovementTimerTicks h1) - isrStartTime) ->
  (forall j, (j < k)%nat ->
     CallbackAlreadyDue
       (IncreaseMovementDelay (hiccup_hw h3 0 j) (hiccup_amount j)) t = true) ->
  CallbackAlreadyDue
    (IncreaseMovementDelay (hiccup_hw h3 0 k) (hiccup_amount k)) t = false ->
  (k < fuel)%nat ->
  exists h',
    Interrupt_loop n (S fuel) m h now isrStartTime
    = Some (set_numHiccups m1 (incr32 (numHiccups m1)), h') /\
    movementDelay h' = wrap32 (movementDelay h1 + total) /\
    events h'
    = events h1
      ++ map (fun j => MovementDelayIncreased (hiccup_amount j)) (seq 0 (S k))
      ++ CallbackScheduled t
      :: (if SUPPORT_CAN_EXPANSION && negb InExpansionMode
          then [InsertHiccup (wrap32 total)] else []) /\
    (0 < HiccupTime -> 0 <= HiccupIncrement -> total < half_modulus ->
     0 < sdiff (wrap32 (t + movementDelay h')) (wrap32 (t + movementDelay h1))).
Proof.
  intros t h3 total HSD Hhd Hdue Hlong Hlate Hok Hf.
  cbn [Interrupt_loop]. rewrite HSD, Hhd.
  unfold ScheduleNextStepInterrupt. rewrite Hhd.
  unfold ScheduleMovementCallbackFromIsr. fold t. rewrite Hdue. cbn [negb].
  destruct (GetMovementTimerTicks h1) as [now' h3'] eqn:G.
  simpl in Hlong. subst h3. simpl in Hlate, Hok.
  apply Z.leb_le in Hlong. rewrite Hlong.
  assert (Hdelay : movementDelay h3' = movementDelay h1
                   /\ events h3' = events h1).
  { unfold GetMovementTimerTicks, GetTimerTicks in G. injection G as _ <-.
    split; reflexivity. }
  destruct Hdelay as [D1 D2].
  set (m2 := set_numHiccups m1 (wrap32 (numHiccups m1 + 1))).
  assert (Hhd2 : activeDMs m2 = Some hd) by exact Hhd.
  assert (Ht2 : nextStepTime (dms m2 hd) = t) by reflexivity.
  destruct (Interrupt_hiccup_spec m2 hd Hhd2 k fuel h3' 0%nat 0)
    as [h' [A1 [A2 A3]]].
  - intros j Hj. rewrite Ht2. now apply Hlate.
  - rewrite Ht2. exact Hok.
  - exact Hf.
  - exists h'. split.
    + replace (wrap32 HiccupTime) with (hiccup_amount 0).
      * exact A1.
      * unfold hiccup_amount. f_equal. lia.
    + rewrite Ht2 in A3. rewrite D1 in A2. rewrite D2 in A3.
      split; [exact A2 |]. split; [exact A3 |].
      intros HT HI Htot. unfold sdiff.
      assert (Hpos : 0 < total).
      { pose proof (hiccup_sum_lower_bound 0 (S k) HT HI). fold total in H. lia. }
      rewrite A2. fold total.
      assert (Heq : to_int32 (wrap32 (t + wrap32 (movementDelay h1 + total))
                              - wrap32 (t + movementDelay h1))
                    = to_int32 total).
      { apply to_int32_eq_wrap. unfold wrap32.
        rewrite <- Zminus_mod.
        replace (t + (movementDelay h1 + total) mod modulus
                 - (t + movementDelay h1))
          with ((movementDelay h1 + total) mod modulus + - movementDelay h1)
          by lia.
        rewrite Zplus_mod_idemp_l. f_equal. lia. }
      rewrite Heq, to_int32_small; [exact Hpos |].
      rewrite half_modulus_eq in *. lia.
Qed.

(** The loop of [Interrupt] after [i] passes each of which found the next
    step due at once and the time limit not yet reached: the state, the
    timer, and the clock value read for the next pass.  No result if one of
    the passes ends the loop. *)
Fixpoint Interrupt_passes (n i : nat) (m : Move) (h : Hw)
  (now isrStartTime : Z) : option (Move * Hw * Z) :=
  match i with
  | O => Some (m, h, now)
  | S i' =>
      '(m1, h1) <- StepDrivers n m h now ;;
      match activeDMs m1 with
      | None => None
      | Some hd =>
          if CallbackAlreadyDue h1 (nextStepTime (dms m1 hd)) then
            let (now', h3) := GetMovementTimerTicks h1 in
            if to_int32 MaxStepInterruptTime <=? to_int32 (now' - isrStartTime)
            then None
            else Interrupt_passes n i' m1 h3 now' isrStartTime
          else None
      end
  end.

Lemma Interrupt_loop_passes (n : nat) (isrStartTime : Z) :
  forall i fuel m h now mi hi nowi,
    Interrupt_passes n i m h now isrStartTime = Some (mi, hi, nowi) ->
    Interrupt_loop n (i + fuel) m h now isrStartTime
    = Interrupt_loop n fuel mi hi nowi isrStartTime.
Proof.
  induction i as [| i IH]; intros fuel m h now mi hi nowi H.
  - injection H as <- <- <-. reflexivity.
  - cbn [Interrupt_passes] in H. cbn [Nat.add Interrupt_loop].
    destruct (StepDrivers n m h now) as [[m1 h1] |]; [| discriminate H].
    destruct (activeDMs m1) as [hd |] eqn:A; [| discriminate H].
    unfold ScheduleNextStepInterrupt. rewrite A.
    unfold ScheduleMovementCallbackFromIsr.
    destruct (CallbackAlreadyDue h1 (nextStepTime (dms m1 hd)));
      [| discriminate H].
    cbn [negb].
    destruct (GetMovementTimerTicks h1) as [now' h3].
    destruct (to_int32 MaxStepInterruptTime <=? to_int32 (now' - isrStartTime));
      [discriminate H |].
    now apply IH.
Qed.

(** C5.  Hiccup recovery.  Let [Interrupt] be entered with drives in the
    active list, and let its loop make [i] passes (zero or more) that each
    find the next step due at once and the time limit not reached.  Suppose
    that in the next pass, after [StepDrivers], the active list is not
    empty, the callback for its head cannot be scheduled because it is
    already due, and the time spent in the ISR since its start has reached
    [MaxStepInterruptTime].  Let retry [k] be the first at which the
    callback can be scheduled.  Then [Interrupt] returns; relative to the
    state that [StepDrivers] left, [numHiccups] has been incremented
    exactly once and nothing else in [Move] has changed - in particular no
    [nextStepTime]; the movement delay has been increased [k + 1] times, by
    [HiccupTime + j * HiccupIncrement] at retry [j], and then the callback
    was scheduled; with CAN expansion (not in expansion mode) the total
    inserted is then passed to [CanMotion::InsertHiccup]; and the step of
    the head of the list, whose time on the hardware counter is
    [nextStepTime + movementDelay], is due strictly later than before when
    the delays are positive and their total is below 2^31. *)
Theorem Interrupt_hiccup_recovery
  (n fuel i : nat) (m mi m1 : Move) (h hi h1 : Hw) (nowi : Z) (hd k : nat) :
  let isrStartTime := fst (GetMovementTimerTicks h) in
  let t := nextStepTime (dms m1 hd) in
  let h3 := snd (GetMovementTimerTicks h1) in
  let total := hiccup_sum 0 (S k) in
  activeDMs m <> None ->
  Interrupt_passes n i m (snd (GetMovementTimerTicks h)) isrStartTime
                   isrStartTime
  = Some (mi, hi, nowi) ->
  StepDrivers n mi hi nowi = Some (m1, h1) ->
  activeDMs m1 = Some hd ->
  CallbackAlreadyDue h1 t = true ->
  to_int32 MaxStepInterruptTime
  <= to_int32 (fst (GetMovementTimerTicks h1) - isrStartTime) ->
  (forall j, (j < k)%nat ->
     CallbackAlreadyDue
       (IncreaseMovementDelay (hiccup_hw h3 0 j) (hiccup_amount j)) t = true) ->
  CallbackAlreadyDue
    (IncreaseMovementDelay (hiccup_hw h3 0 k) (hiccup_amount k)) t = false ->
  (k < fuel)%nat ->
  exists m' h',
    Interrupt n (i + S fuel) m h = Some (m', h') /\
    m' = set_numHiccups m1 (incr32 (numHiccups m1)) /\
    (forall j, nextStepTime (dms m' j) = nextStepTime (dms m1 j)) /\
    movementDelay h' = wrap32 (movementDelay h1 + total) /\
    events h'
    = events h1
      ++ map (fun j => MovementDelayIncreased (hiccup_amount j)) (seq 0 (S k))
      ++ CallbackScheduled t
      :: (if SUPPORT_CAN_EXPANSION && negb InExpansionMode
          then [InsertHiccup (wrap32 total)] else []) /\
    (0 < HiccupTime -> 0 <= HiccupIncrement -> total < half_modulus ->
     0 < sdiff (wrap32 (t + movementDelay h')) (wrap32 (t + movementDelay h1))).
Proof.
  intros isrStartTime t h3 total Hne Hpass HSD Hhd Hdue Hlong Hlate Hok Hf.
  destruct (Interrupt_loop_hiccup n fuel mi m1 hi h1 nowi isrStartTime hd k
              HSD Hhd Hdue Hlong Hlate Hok Hf) as (h' & L1 & L2 & L3 & L4).
  exists (set_numHiccups m1 (incr32 (numHiccups m1))), h'.
  split.
  - unfold Interrupt. destruct (activeDMs m) as [x |]; [| contradiction].
    destruct (GetMovementTimerTicks h) as [now h0] eqn:G.
    subst isrStartTime. simpl in Hpass, L1 |- *.
    rewrite (Interrupt_loop_passes n now i (S fuel) m h0 now mi hi nowi Hpass).
    exact L1.
  - split; [reflexivity |]. split; [reflexivity |].
    split; [exact L2 |]. split; [exact L3 | exact L4].
Qed.

End HiccupFacts.

(** ** The order of the active list across the other operations *)

Section OrderFacts.
Context {E : Env}.




End OrderFacts.

(** * Further properties *)

(** ** Inserting a drive and removing it again *)

Section RoundTripFacts.
Context {E : Env}.

Lemma with_nextDM_restore (d : DriveMovement) (v : DMPtr) :
  with_nextDM (with_nextDM d v) (nextDM d) = d.
Proof. destruct d. reflexivity. Qed.

Lemma removed_inserted_dms (m : Move) (dm : nat) (a : DMPtrPtr) (j : nat) :
  j <> dm -> match a with ActiveDMsAddr => True | NextDMAddr e => e <> dm end ->
  dms (removed_at (inserted_at m dm a) dm a) j = dms m j.
Proof.
  intros Hj Ha. unfold removed_at, inserted_at, store, upd_dm, upd.
  destruct a as [| e]; simpl.
  - destruct (Nat.eqb_spec j dm); [contradiction | reflexivity].
  - destruct (Nat.eqb_spec j dm); [contradiction |].
    rewrite !Nat.eqb_refl.
    destruct (Nat.eqb_spec e dm) as [-> | _]; [contradiction |].
    destruct (Nat.eqb_spec dm e) as [-> | _]; [contradiction |].
    destruct (Nat.eqb_spec j e) as [-> | _]; [| reflexivity].
    simpl. apply with_nextDM_restore.
Qed.

Lemma removed_inserted_self (m : Move) (dm : nat) (a : DMPtrPtr) :
  match a with ActiveDMsAddr => True | NextDMAddr e => e <> dm end ->
  dms (removed_at (inserted_at m dm a) dm a) dm
  = with_state (with_nextDM (dms m dm) (load m a)) idle.
Proof.
  intros Ha. unfold removed_at, inserted_at, store, upd_dm, upd.
  destruct a as [| e]; simpl.
  - now rewrite !Nat.eqb_refl.
  - rewrite !Nat.eqb_refl.
    destruct (Nat.eqb_spec dm e) as [-> | _]; [contradiction | reflexivity].
Qed.

Lemma removed_inserted_head (m : Move) (dm : nat) (a : DMPtrPtr) :
  match a with ActiveDMsAddr => True | NextDMAddr e => e <> dm end ->
  activeDMs (removed_at (inserted_at m dm a) dm a) = activeDMs m.
Proof.
  intros Ha. unfold removed_at, inserted_at, store, upd_dm, upd.
  destruct a as [| e]; simpl.
  - now rewrite Nat.eqb_refl.
  - reflexivity.
Qed.

(** X1.  Inserting a drive and removing it again.  Let the active list of
    [m] be the well-formed chain [l] and let [dm] be a drive that is not in
    it.  Then [InsertDM] followed by [DeactivateDM] of the same drive both
    return (walks of [length l + 2] iterations suffice); the active list is
    [l] again, with the same head; every other [DriveMovement] is exactly
    as it was, the link of the predecessor included; the counters of [Move]
    are unchanged; and [dm] itself differs from before at most in its link
    and in its state, which is now [DMState::idle]. *)
Theorem InsertDM_then_DeactivateDM_restores_the_list
  (m : Move) (dm : nat) (l : list nat) (fuel : nat) :
  active_list m l -> ~ In dm l -> (S (length l) < fuel)%nat ->
  exists m1 m2 nxt,
    InsertDM fuel m dm = Some m1 /\
    DeactivateDM fuel m1 dm = Some m2 /\
    active_list m2 l /\
    activeDMs m2 = activeDMs m /\
    (forall j, j <> dm -> dms m2 j = dms m j) /\
    dms m2 dm = with_state (with_nextDM (dms m dm) nxt) idle /\
    same_counters m m2.
Proof.
  intros Hl Hdm Hf.
  destruct (InsertDM_loop_spec m dm l fuel ActiveDMsAddr Hl ltac:(lia))
    as [l1 [l2 [H1 [H2 [_ [_ _]]]]]].
  set (a := last_addr ActiveDMsAddr l1) in *.
  assert (Ha : match a with ActiveDMsAddr => True | NextDMAddr e => e <> dm end).
  { unfold a. destruct (last_addr_cases l1 ActiveDMsAddr) as [-> | [x [Hx ->]]].
    - exact I.
    - intros ->. apply Hdm. subst l. apply in_or_app. now left. }
  set (m1 := inserted_at m dm a).
  assert (Hl1 : active_list m1 (l1 ++ dm :: l2)).
  { subst l. unfold active_list, m1, a.
    apply (lseg_inserted m dm l2 l1 ActiveDMsAddr).
    - apply (lseg_NoDup _ _ _ Hl).
    - exact Hdm.
    - exact I.
    - exact Hl. }
  pose proof (lseg_NoDup _ _ _ Hl1) as Hnd1.
  destruct (DeactivateDM_loop_found m1 dm l2 l1 fuel ActiveDMsAddr Hnd1 I Hl1)
    as [D1 D2].
  { subst l. rewrite length_app in *. simpl in *. lia. }
  exists m1, (removed_at m1 dm a), (load m a).
  split; [unfold InsertDM; now rewrite H1 |].
  split; [exact D1 |].
  split; [subst l; exact D2 |].
  split; [now apply removed_inserted_head |].
  split; [intros j Hj; now apply removed_inserted_dms |].
  split; [now apply removed_inserted_self |].
  unfold m1.
  destruct (same_counters_inserted_at m dm a) as (A1 & A2 & A3 & A4 & A5 & A6).
  destruct (same_counters_removed_at (inserted_at m dm a) dm a)
    as (B1 & B2 & B3 & B4 & B5 & B6).
  repeat split; congruence.
Qed.

End RoundTripFacts.

(** ** AddLinearSegments and the active list *)

Section AddLinearSegmentsFacts.
Context {E : Env}.

(** The state after the calls of [AddSegment] for the drive [dmp]. *)
Lemma AddSegment_calls_frame (dmp : nat) (calls : list SegmentArgs) :
  forall m,
    let m1 := fold_left (fun m' c => upd_dm m' dmp (fun d => AddSegment d c))
                        calls m in
    activeDMs m1 = activeDMs m /\
    (forall j, j <> dmp -> dms m1 j = dms m j) /\
    dms m1 dmp = fold_left AddSegment calls (dms m dmp) /\
    same_counters m m1 /\
    steppingEnabledDrivers m1 = steppingEnabledDrivers m.
Proof.
  induction calls as [| c calls IH]; intros m; simpl.
  - repeat split.
  - destruct (IH (upd_dm m dmp (fun d => AddSegment d c)))
      as (I1 & I2 & I3 & I4 & I5).
    split; [exact I1 |].
    split.
    { intros j Hj. rewrite (I2 j Hj). unfold upd_dm, upd. simpl.
      apply Nat.eqb_neq in Hj. now rewrite Hj. }
    split.
    { rewrite I3. unfold upd_dm, upd. simpl. now rewrite Nat.eqb_refl. }
    split; [exact I4 | exact I5].
Qed.

Lemma AddLinearSegments_find_spec (m : Move) (dmp : nat) : forall l fuel p,
  lseg (links m) p l None -> (length l < fuel)%nat ->
  AddLinearSegments_find fuel m p dmp
  = Some (if in_dec Nat.eq_dec dmp l then true else false).
Proof.
  induction l as [| i l IH]; intros fuel p H Hf;
    (destruct fuel as [| fuel]; [inversion Hf |]).
  - simpl in H. subst p. reflexivity.
  - destruct H as [-> H]. cbn [AddLinearSegments_find].
    destruct (Nat.eqb_spec i dmp) as [-> | Hne].
    + destruct (in_dec Nat.eq_dec dmp (dmp :: l)) as [_ | Hn]; [reflexivity |].
      exfalso. apply Hn. now left.
    + rewrite (IH fuel (nextDM (dms m i)) H) by (simpl in Hf; lia).
      destruct (in_dec Nat.eq_dec dmp l) as [Hin | Hnin];
        destruct (in_dec Nat.eq_dec dmp (i :: l)) as [Hin' | Hnin'];
        try reflexivity.
      * exfalso. apply Hnin'. now right.
      * exfalso. destruct Hin' as [-> | Hin']; [now apply Hne | contradiction].
Qed.

(** X2.  Segments for a drive that still has segments.  If the drive has
    segments attached already, [AddLinearSegments] only hands the new
    segments to [AddSegment] of that drive: it returns with the head of the
    active list, all other drives, the counters and the step timer
    untouched (nothing is scheduled and no output is made). *)
Theorem AddLinearSegments_with_pending_segments_leaves_the_schedule
  (n fuel : nat) (m : Move) (h : Hw) (dda : DDA) (logicalDrive : nat)
  (startTime : Z) (params : PrepParams) (steps : float)
  (useInputShaping : bool)
  (moveFlags : MovementFlags) :
  segments (dms m logicalDrive) <> None ->
  exists m',
    AddLinearSegments n fuel m h dda logicalDrive startTime params steps
                      useInputShaping moveFlags = Some (m', h) /\
    activeDMs m' = activeDMs m /\
    (forall j, j <> logicalDrive -> dms m' j = dms m j) /\
    dms m' logicalDrive
    = fold_left AddSegment
        (AddLinearSegments_calls dda startTime params steps useInputShaping
                                 moveFlags)
        (dms m logicalDrive) /\
    same_counters m m' /\
    steppingEnabledDrivers m' = steppingEnabledDrivers m.
Proof.
  intros Hsegs.
  unfold AddLinearSegments, AddLinearSegments_schedule, AddSegment_calls.
  destruct (segments (dms m logicalDrive)) as [s |]; [| contradiction].
  eexists. split; [reflexivity |].
  apply AddSegment_calls_frame.
Qed.

(** X3.  Scheduling a drive that had no segments.  Let the active list be
    the well-formed, sorted chain [l], and let the drive have no segments
    and not be in [l].  If [ScheduleFirstSegment] succeeds, leaving the drive
    as [d2], and the callback for the first step of [d2] is not already due,
    then [AddLinearSegments] returns; the drive has been inserted into the
    active list, which is sorted again and keeps the old entries in their
    order; the other drives have changed at most in their links and the
    counters not at all; and the step timer has been armed, for the first
    step time of the drive, exactly when the drive has become the head of
    the list and the machine is not simulating - otherwise no output has
    been made. *)
Theorem AddLinearSegments_schedules_a_new_drive_in_order
  (n fuel : nat) (m : Move) (h : Hw) (dda : DDA) (logicalDrive : nat)
  (startTime : Z) (params : PrepParams) (steps : float)
  (useInputShaping : bool)
  (moveFlags : MovementFlags) (l : list nat) (d2 : DriveMovement) :
  let d1 := fold_left AddSegment
              (AddLinearSegments_calls dda startTime params steps
                                       useInputShaping moveFlags)
              (dms m logicalDrive) in
  active_list m l -> ~ In logicalDrive l -> active_sorted m l ->
  (length l < n)%nat ->
  segments (dms m logicalDrive) = None ->
  ScheduleFirstSegment d1 = (true, d2) ->
  CallbackAlreadyDue h (nextStepTime d2) = false ->
  exists m' l1 l2,
    AddLinearSegments n fuel m h dda logicalDrive startTime params steps
                      useInputShaping moveFlags
    = Some (m', match l1 with
                | [] => if simulating m then h
                        else emit h (CallbackScheduled (nextStepTime d2))
                | _ :: _ => h
                end) /\
    l = l1 ++ l2 /\
    active_list m' (l1 ++ logicalDrive :: l2) /\
    active_sorted m' (l1 ++ logicalDrive :: l2) /\
    same_but_link d2 (dms m' logicalDrive) /\
    (forall j, j <> logicalDrive -> same_but_link (dms m j) (dms m' j)) /\
    same_counters m m'.
Proof.
  intros d1 Hl Hnin Hs Hn Hsegs Hsched Hdue.
  unfold AddLinearSegments, AddLinearSegments_schedule, AddSegment_calls.
  rewrite Hsegs.
  set (calls := AddLinearSegments_calls dda startTime params steps
                                        useInputShaping moveFlags) in *.
  set (m1 := fold_left (fun m' c => upd_dm m' logicalDrive
                                      (fun d => AddSegment d c)) calls m).
  destruct (AddSegment_calls_frame logicalDrive calls m)
    as (F1 & F2 & F3 & F4 & _).
  fold m1 in F1, F2, F3, F4. fold d1 in F3.
  rewrite F3, Hsched.
  set (m2 := upd_dm m1 logicalDrive (fun _ => d2)).
  assert (G1 : activeDMs m2 = activeDMs m) by exact F1.
  assert (G2 : forall j, j <> logicalDrive -> dms m2 j = dms m j).
  { intros j Hj. unfold m2, upd_dm, upd. simpl.
    pose proof Hj as Hj'. apply Nat.eqb_neq in Hj'. rewrite Hj'. now apply F2. }
  assert (G3 : dms m2 logicalDrive = d2).
  { unfold m2, upd_dm, upd. simpl. now rewrite Nat.eqb_refl. }
  assert (Hl2 : active_list m2 l).
  { apply (active_list_ext m m2 l G1); [| exact Hl].
    intros j Hj. unfold links. rewrite G2; [reflexivity |].
    intros ->. contradiction. }
  assert (Hs2 : active_sorted m2 l).
  { apply Sorted_ext_in with (R := time_le m); [| exact Hs].
    intros a b Ha Hb. unfold time_le.
    rewrite !G2; [auto | |]; intros ->; contradiction. }
  rewrite (AddLinearSegments_find_spec m2 logicalDrive l n _ Hl2 Hn).
  destruct (in_dec Nat.eq_dec logicalDrive l) as [Hin | _]; [contradiction |].
  destruct (InsertDM_sorted m2 logicalDrive l n Hl2 Hnin Hs2 Hn)
    as [l1 [l2 [m3 [I1 [I2 [_ [I4 [I5 [I6 I7]]]]]]]]].
  rewrite I1.
  assert (Hd3 : same_but_link d2 (dms m3 logicalDrive)).
  { rewrite <- G3. apply I6. }
  assert (Hsim : simulating m3 = simulating m).
  { destruct I7 as (_ & _ & _ & _ & _ & X).
    destruct F4 as (_ & _ & _ & _ & _ & Y).
    rewrite X. unfold m2. simpl. exact Y. }
  exists m3, l1, l2.
  split.
  { destruct l1 as [| x l1].
    - destruct I4 as [Hhd _]. rewrite Hhd. simpl. rewrite Nat.eqb_refl.
      rewrite Hsim. destruct (simulating m); simpl; [reflexivity |].
      unfold ScheduleNextStepInterrupt. rewrite Hhd.
      unfold ScheduleMovementCallbackFromIsr.
      rewrite (same_but_link_time _ _ Hd3), Hdue. reflexivity.
    - destruct I4 as [Hhd _]. rewrite Hhd. simpl.
      destruct (Nat.eqb_spec x logicalDrive) as [-> | _]; [| reflexivity].
      exfalso. apply Hnin. rewrite I2. now left. }
  split; [exact I2 |]. split; [exact I4 |]. split; [exact I5 |].
  split; [exact Hd3 |].
  split.
  { intros j Hj. rewrite <- (G2 j Hj). apply I6. }
  destruct I7 as (B1 & B2 & B3 & B4 & B5 & B6).
  destruct F4 as (A1 & A2 & A3 & A4 & A5 & A6).
  unfold m2 in *. simpl in *. repeat split; congruence.
Qed.

(** X4.  A drive that is in the active list is not inserted again.  Let
    the drive have no segments but still be in the well-formed active list
    [l].  If [ScheduleFirstSegment] succeeds, leaving the drive as [d2] with
    its link as it was, then [AddLinearSegments] returns without calling
    [InsertDM]: the active list is still [l], with the same head, the drive
    is [d2], every other drive and the counters are unchanged, and the step
    timer is left alone. *)
Theorem AddLinearSegments_does_not_insert_a_listed_drive_again
  (n fuel : nat) (m : Move) (h : Hw) (dda : DDA) (logicalDrive : nat)
  (startTime : Z) (params : PrepParams) (steps : float)
  (useInputShaping : bool)
  (moveFlags : MovementFlags) (l : list nat) (d2 : DriveMovement) :
  let d1 := fold_left AddSegment
              (AddLinearSegments_calls dda startTime params steps
                                       useInputShaping moveFlags)
              (dms m logicalDrive) in
  active_list m l -> In logicalDrive l -> (length l < n)%nat ->
  segments (dms m logicalDrive) = None ->
  ScheduleFirstSegment d1 = (true, d2) ->
  nextDM d2 = nextDM (dms m logicalDrive) ->
  exists m',
    AddLinearSegments n fuel m h dda logicalDrive startTime params steps
                      useInputShaping moveFlags = Some (m', h) /\
    active_list m' l /\
    activeDMs m' = activeDMs m /\
    dms m' logicalDrive = d2 /\
    (forall j, j <> logicalDrive -> dms m' j = dms m j) /\
    same_counters m m'.
Proof.
  intros d1 Hl Hin Hn Hsegs Hsched Hlink.
  unfold AddLinearSegments, AddLinearSegments_schedule, AddSegment_calls.
  rewrite Hsegs.
  set (calls := AddLinearSegments_calls dda startTime params steps
                                        useInputShaping moveFlags) in *.
  set (m1 := fold_left (fun m' c => upd_dm m' logicalDrive
                                      (fun d => AddSegment d c)) calls m).
  destruct (AddSegment_calls_frame logicalDrive calls m)
    as (F1 & F2 & F3 & F4 & _).
  fold m1 in F1, F2, F3, F4. fold d1 in F3.
  rewrite F3, Hsched.
  set (m2 := upd_dm m1 logicalDrive (fun _ => d2)).
  assert (G1 : activeDMs m2 = activeDMs m) by exact F1.
  assert (G2 : forall j, j <> logicalDrive -> dms m2 j = dms m j).
  { intros j Hj. unfold m2, upd_dm, upd. simpl.
    pose proof Hj as Hj'. apply Nat.eqb_neq in Hj'. rewrite Hj'. now apply F2. }
  assert (G3 : dms m2 logicalDrive = d2).
  { unfold m2, upd_dm, upd. simpl. now rewrite Nat.eqb_refl. }
  assert (Hl2 : active_list m2 l).
  { apply (active_list_ext m m2 l G1); [| exact Hl].
    intros j _. unfold links.
    destruct (Nat.eq_dec j logicalDrive) as [-> | Hj].
    - now rewrite G3.
    - now rewrite G2. }
  rewrite (AddLinearSegments_find_spec m2 logicalDrive l n _ Hl2 Hn).
  destruct (in_dec Nat.eq_dec logicalDrive l) as [_ | Hnin]; [| contradiction].
  exists m2. split; [reflexivity |]. split; [exact Hl2 |].
  split; [exact G1 |]. split; [exact G3 |]. split; [exact G2 |].
  destruct F4 as (A1 & A2 & A3 & A4 & A5 & A6).
  unfold m2. simpl. repeat split; assumption.
Qed.

End AddLinearSegmentsFacts.

(** ** A step interrupt with nothing due *)

Section QuietInterruptFacts.
Context {E : Env}.

Lemma set_activeDMs_same (m : Move) : set_activeDMs m (activeDMs m) = m.
Proof. destruct m. reflexivity. Qed.

(** X5.  A step interrupt with nothing due.  If the active list is empty,
    or the step of its head is not yet due at [now], then [StepDrivers]
    returns with [Move] exactly as it was: no step time is recomputed, no
    drive is taken out of the list or put back, no step error is counted.
    The endstops are not polled and the timer is not read; the only outputs
    are the step pulse with an empty set of drivers. *)
Theorem StepDrivers_with_nothing_due_changes_nothing
  (n : nat) (m : Move) (h : Hw) (now : Z) :
  (forall i, activeDMs m = Some i -> step_due now (dms m i) = false) ->
  (0 < n)%nat ->
  StepDrivers n m h now
  = Some (m, emit (emit h (StepDriversHigh 0)) (StepDriversLow 0)).
Proof.
  intros Hdue Hn. destruct n as [| n]; [inversion Hn |].
  unfold StepDrivers, StepDrivers_select.
  assert (D : StepDrivers_due (S n) m now (activeDMs m) 0 flags_Clear
              = Some (activeDMs m, 0, flags_Clear)).
  { cbn [StepDrivers_due]. destruct (activeDMs m) as [i |] eqn:A; [| reflexivity].
    now rewrite (Hdue i eq_refl). }
  rewrite D. cbn [checkEndstops flags_Clear].
  rewrite Z.land_0_l.
  unfold StepDrivers_pulse. rewrite Z.land_0_l. simpl (negb (0 =? 0)).
  rewrite andb_false_r.
  cbn [StepDrivers_calc]. rewrite ptr_eqb_refl.
  cbn [StepDrivers_reinsert]. cbn [activeDMs set_activeDMs].
  rewrite ptr_eqb_refl. now rewrite set_activeDMs_same.
Qed.

End QuietInterruptFacts.

(** ** One step for every due drive *)

Section StepOnceFacts.
Context {E : Env}.

(** X6.  One step for every due drive.  Let the active list of [m] be
    the well-formed chain [l] and let no due drive ask for an endstop
    check.  Then [StepDrivers] returns, and [CalcNextStepTime] has been
    applied exactly once to every drive of the due prefix of [l] and to no
    other drive: a due drive has the stepping data that one call of
    [CalcNextStepTime] gives it, and the state that call gives it if that is
    a motion state, else [DMState::idle]; every other drive keeps its
    stepping data and its state.  The new active list consists of the due
    drives that are still moving and the drives that were not due; hiccups
    and the movement delay are unchanged. *)
Theorem StepDrivers_steps_each_due_drive_once
  (n : nat) (m : Move) (h : Hw) (now : Z) (l : list nat) :
  let due := due_prefix m now l in
  let stepped := fun j => CalcNextStepTime (dms m j) in
  let moving := fun j => Nat.leb firstMotionState (state (stepped j)) in
  active_list m l -> (length l < n)%nat ->
  existsb (fun i => checkEndstops (segmentFlags (dms m i))) due = false ->
  exists m' h' a',
    StepDrivers n m h now = Some (m', h') /\
    active_list m' a' /\
    Permutation a' (filter moving due ++ after_due m now l) /\
    (forall j, In j due ->
       same_motion (stepped j) (dms m' j) /\
       state (dms m' j) = if moving j then state (stepped j) else idle) /\
    (forall j, ~ In j due ->
       same_motion (dms m j) (dms m' j) /\ state (dms m' j) = state (dms m j)) /\
    numHiccups m' = numHiccups m /\
    movementDelay h' = movementDelay h.
Proof.
  intros due stepped moving Hl Hn Hchk.
  assert (Hflags : checkEndstops (flags_of m due flags_Clear) = false).
  { rewrite checkEndstops_flags_of. exact Hchk. }
  assert (Hchk' : checkEndstops (flags_of m (due_prefix m now l) flags_Clear)
                  = true ->
                  active_list (fst (CheckEndstops m)) l /\ (length l < n)%nat).
  { fold due. rewrite Hflags. discriminate. }
  destruct (StepDrivers_select_spec n m h now l l Hl Hn Hchk')
    as [h1 [q [S1 [S2 [S3 [S4 _]]]]]].
  fold due in S1, S2, S3. rewrite Hflags in S1, S2, S3.
  cbv beta iota in S1, S2, S3. fold due in S1, S2, S3.
  unfold StepDrivers. rewrite S1. cbn zeta.
  destruct (StepDrivers_finish_spec n m h1 q
              (Z.land (drivers_of m due 0) (steppingEnabledDrivers m))
              due (after_due m now l) S2 S3)
    as (m2 & h2 & m' & h' & a' & F1 & F2 & Fa & Fb & _ & Fl & Fp & _ & _
        & Fe & Fo & Fm & Fh & Fd & _).
  { unfold due. now rewrite <- due_prefix_split. }
  rewrite F1, F2. exists m', h', a'.
  assert (Hmov : forall j, In j due -> still_moving m2 j = moving j).
  { intros j Hj. unfold still_moving, moving, stepped. now rewrite (Fa j Hj). }
  split; [reflexivity |]. split; [exact Fl |].
  split.
  { rewrite <- (filter_ext_in (still_moving m2) moving due Hmov). exact Fp. }
  split.
  { intros j Hj. split.
    - unfold stepped. rewrite <- (Fa j Hj). apply Fm.
    - rewrite <- (Hmov j Hj).
      destruct (still_moving m2 j) eqn:Mv.
      + rewrite (Fo j).
        * unfold stepped. now rewrite (Fa j Hj).
        * intros _. unfold in_error. now rewrite Mv.
      + destruct (Nat.eqb (state (dms m2 j)) idle) eqn:Id.
        * rewrite (Fo j).
          -- now apply Nat.eqb_eq in Id.
          -- intros _. unfold in_error. now rewrite Mv, Id.
        * apply (Fe j Hj). unfold in_error. now rewrite Mv, Id. }
  split.
  { intros j Hj. split.
    - rewrite <- (Fb j Hj). apply Fm.
    - rewrite (Fo j) by (intros X; contradiction). now rewrite (Fb j Hj). }
  split; [exact Fh |]. congruence.
Qed.

End StepOnceFacts.

(** ** How Interrupt leaves the step timer *)

Section InterruptExitFacts.
Context {E : Env}.

(** The last outputs of an interrupt that leaves drives in the list: the
    callback for the step time [t], then at most the hiccup notification. *)
Definition ends_with_callback (evs : list Event) (t : Z) : Prop :=
  exists pre post,
    evs = pre ++ CallbackScheduled t :: post /\
    (post = [] \/ exists x, post = [InsertHiccup x]).

Lemma Interrupt_hiccup_exit (m : Move) (hd : nat) :
  activeDMs m = Some hd ->
  forall fuel h hiccupTime inserted m' h',
    Interrupt_hiccup fuel m h hiccupTime inserted = Some (m', h') ->
    m' = m /\ ends_with_callback (events h') (nextStepTime (dms m hd)).
Proof.
  intros Hhd. induction fuel as [| fuel IH]; intros h ht ins m' h' H;
    [discriminate H |].
  cbn [Interrupt_hiccup] in H.
  unfold ScheduleNextStepInterrupt in H. rewrite Hhd in H.
  unfold ScheduleMovementCallbackFromIsr in H.
  destruct (CallbackAlreadyDue (IncreaseMovementDelay h ht)
                               (nextStepTime (dms m hd))) eqn:D.
  - cbn [negb] in H.
    destruct (GetMovementTimerTicks (IncreaseMovementDelay h ht)) as [now' h3].
    now apply IH in H.
  - cbn [negb] in H.
    destruct (SUPPORT_CAN_EXPANSION && negb InExpansionMode);
      injection H as <- <-; (split; [reflexivity |]).
    + eexists _, [InsertHiccup _]. split.
      * simpl. rewrite <- app_assoc. reflexivity.
      * right. now eexists.
    + eexists _, []. split; [reflexivity | now left].
Qed.

Lemma Interrupt_loop_exit (n : nat) :
  forall fuel m h now isrStartTime m' h',
    Interrupt_loop n fuel m h now isrStartTime = Some (m', h') ->
    match activeDMs m' with
    | None => exists pre, events h' = pre ++ [WakeMoveTask]
    | Some hd => ends_with_callback (events h') (nextStepTime (dms m' hd))
    end.
Proof.
  induction fuel as [| fuel IH]; intros m h now start m' h' H;
    [discriminate H |].
  cbn [Interrupt_loop] in H.
  destruct (StepDrivers n m h now) as [[m1 h1] |]; [| discriminate H].
  destruct (activeDMs m1) as [hd |] eqn:A.
  - unfold ScheduleNextStepInterrupt in H. rewrite A in H.
    unfold ScheduleMovementCallbackFromIsr in H.
    destruct (CallbackAlreadyDue h1 (nextStepTime (dms m1 hd))) eqn:D;
      cbn [negb] in H.
    + destruct (GetMovementTimerTicks h1) as [now' h3].
      destruct (to_int32 MaxStepInterruptTime <=? to_int32 (now' - start)).
      * apply (Interrupt_hiccup_exit _ hd) in H; [| exact A].
        destruct H as [-> H]. simpl. rewrite A. exact H.
      * now apply IH in H.
    + injection H as <- <-. rewrite A.
      eexists _, []. split; [reflexivity | now left].
  - injection H as <- <-. rewrite A. now eexists.
Qed.

(** X7.  How [Interrupt] leaves the step timer.  Whenever [Interrupt]
    returns: if the active list was empty on entry, nothing at all has
    changed; otherwise either the active list is now empty and the last
    thing the ISR did was to wake the Move task, or the list is not empty
    and the callback for the step time of its head has been scheduled, with
    nothing after it but, at most, the hiccup notification to the expansion
    boards.  So the ISR never returns with drives waiting and no callback
    pending. *)
Theorem Interrupt_leaves_the_timer_armed_or_wakes_the_move_task
  (n fuel : nat) (m m' : Move) (h h' : Hw) :
  Interrupt n fuel m h = Some (m', h') ->
  match activeDMs m with
  | None => m' = m /\ h' = h
  | Some _ =>
      match activeDMs m' with
      | None => exists pre, events h' = pre ++ [WakeMoveTask]
      | Some hd => ends_with_callback (events h') (nextStepTime (dms m' hd))
      end
  end.
Proof.
  unfold Interrupt. intros H. destruct (activeDMs m) as [i |].
  - destruct (GetMovementTimerTicks h) as [now h1].
    now apply Interrupt_loop_exit in H.
  - injection H as <- <-. now split.
Qed.

End InterruptExitFacts.

(** ** Returning segments to the pool *)

Definition seg_links (pool : SegmentPool) : nat -> option nat :=
  fun i => next (segs pool i).

Lemma Release_links (pool : SegmentPool) (item j : nat) :
  seg_links (Release pool item) j
  = if Nat.eqb j item then freeList pool else seg_links pool j.
Proof.
  unfold seg_links, Release, upd. simpl. now destruct (Nat.eqb j item).
Qed.

Lemma ReleaseAll_spec : forall l fuel pool item fl,
  lseg (seg_links pool) item l None ->
  free_list pool fl ->
  (forall x, In x l -> ~ In x fl) ->
  (length l < fuel)%nat ->
  exists pool',
    ReleaseAll fuel pool item = Some pool' /\
    free_list pool' (rev l ++ fl) /\
    numCreated pool' = numCreated pool /\
    heapTop pool' = heapTop pool /\
    (forall i, seg_payload (segs pool' i) = seg_payload (segs pool i)) /\
    (forall i, ~ In i l -> segs pool' i = segs pool i).
Proof.
  induction l as [| i l IH]; intros fuel pool item fl Hl Hfl Hdis Hf;
    (destruct fuel as [| fuel]; [inversion Hf |]).
  - simpl in Hl. subst item. exists pool. simpl. repeat split; auto.
  - pose proof (lseg_NoDup _ _ _ Hl) as Hnd.
    inversion Hnd as [| ? ? Hni Hnd']; subst.
    destruct Hl as [-> Hl]. cbn [ReleaseAll].
    destruct (IH fuel (Release pool i) (next (segs pool i)) (i :: fl))
      as (pool' & R1 & R2 & R3 & R4 & R5 & R6).
    + apply lseg_ext with (nx := seg_links pool); [| exact Hl].
      intros j Hj. rewrite Release_links.
      destruct (Nat.eqb_spec j i) as [-> | _]; [contradiction | reflexivity].
    + unfold free_list. split; [reflexivity |].
      change (lseg (seg_links (Release pool i))
                   (seg_links (Release pool i) i) fl None).
      rewrite Release_links, Nat.eqb_refl.
      apply lseg_ext with (nx := seg_links pool); [| exact Hfl].
      intros j Hj. rewrite Release_links.
      destruct (Nat.eqb_spec j i) as [-> | _]; [| reflexivity].
      exfalso. apply (Hdis i); [now left | exact Hj].
    + intros x Hx [<- | Hxfl]; [contradiction |].
      apply (Hdis x); [now right | exact Hxfl].
    + simpl in Hf. lia.
    + exists pool'. split; [exact R1 |].
      split; [simpl; rewrite <- app_assoc; exact R2 |].
      split; [exact R3 |]. split; [exact R4 |].
      split.
      * intros j. rewrite R5. unfold Release, upd. simpl.
        now destruct (Nat.eqb_spec j i) as [-> |].
      * intros j Hj. rewrite R6 by (intros X; apply Hj; now right).
        unfold Release, upd. simpl.
        destruct (Nat.eqb_spec j i) as [-> | _]; [| reflexivity].
        exfalso. apply Hj. now left.
Qed.

(** X8.  [ReleaseAll] returns a chain to the free list.  Let [item] be the
    head of the chain [l] (ending in [nullptr]) and let [l] share no segment
    with the free list [fl].  Then [ReleaseAll] returns ([length l + 1]
    iterations suffice); the free list is then the chain in reverse order
    followed by [fl], a well-formed list without duplicates; [numCreated]
    and the contents of every segment apart from the links are unchanged,
    and segments outside the chain are untouched. *)
Theorem ReleaseAll_returns_the_chain_to_the_free_list
  (fuel : nat) (pool : SegmentPool) (item : option nat) (l fl : list nat) :
  lseg (fun i => next (segs pool i)) item l None ->
  free_list pool fl ->
  (forall x, In x l -> ~ In x fl) ->
  (length l < fuel)%nat ->
  exists pool',
    ReleaseAll fuel pool item = Some pool' /\
    free_list pool' (rev l ++ fl) /\
    NoDup (rev l ++ fl) /\
    numCreated pool' = numCreated pool /\
    heapTop pool' = heapTop pool /\
    (forall i, seg_payload (segs pool' i) = seg_payload (segs pool i)) /\
    (forall i, ~ In i l -> segs pool' i = segs pool i).
Proof.
  intros Hl Hfl Hdis Hf.
  destruct (ReleaseAll_spec l fuel pool item fl Hl Hfl Hdis Hf)
    as (pool' & R1 & R2 & R3 & R4 & R5 & R6).
  exists pool'. split; [exact R1 |]. split; [exact R2 |].
  split; [exact (lseg_NoDup _ _ _ R2) |].
  repeat split; assumption.
Qed.


Lemma Allocate_from_free_list (pool : SegmentPool) (p_next : option nat)
  (x : nat) (fl : list nat) :
  free_list pool (x :: fl) ->
  fst (Allocate pool p_next) = Some x /\
  free_list (snd (Allocate pool p_next)) fl /\
  numCreated (snd (Allocate pool p_next)) = numCreated pool /\
  heapTop (snd (Allocate pool p_next)) = heapTop pool.
Proof.
  intros Hfl. pose proof (lseg_NoDup _ _ _ Hfl) as Hnd.
  inversion Hnd as [| ? ? Hni _]; subst.
  destruct Hfl as [Hx Hfl]. unfold Allocate. rewrite Hx. simpl.
  split; [reflexivity |]. split; [| now split].
  unfold free_list. simpl.
  apply lseg_ext with (nx := fun i => next (segs pool i)); [| exact Hfl].
  intros j Hj. unfold upd.
  destruct (Nat.eqb_spec j x) as [-> | _]; [contradiction | reflexivity].
Qed.

Lemma Allocate_repeatedly_from_free_list : forall l1 pool l2,
  free_list pool (l1 ++ l2) ->
  fst (Allocate_repeatedly (length l1) pool) = map Some l1 /\
  free_list (snd (Allocate_repeatedly (length l1) pool)) l2 /\
  numCreated (snd (Allocate_repeatedly (length l1) pool)) = numCreated pool /\
  heapTop (snd (Allocate_repeatedly (length l1) pool)) = heapTop pool.
Proof.
  induction l1 as [| x l1 IH]; intros pool l2 Hfl.
  - simpl. repeat split. exact Hfl.
  - simpl length. cbn [Allocate_repeatedly].
    destruct (Allocate_from_free_list pool None x (l1 ++ l2) Hfl)
      as (A1 & A2 & A3 & A4).
    destruct (Allocate pool None) as [ms pool1]. simpl in A1, A2, A3, A4.
    destruct (IH pool1 l2 A2) as (B1 & B2 & B3 & B4).
    destruct (Allocate_repeatedly (length l1) pool1) as [rest pool2].
    simpl in *. subst ms. rewrite B1.
    repeat split; [exact B2 | congruence | congruence].
Qed.

(** X9.  Released segments are used again before new ones are made.  After
    [ReleaseAll] of a chain of [n] segments (as in X8), the next [n] calls
    of [Allocate] hand out exactly those segments, the one released last
    first; none of these calls constructs a segment ([numCreated] and the
    heap are as before the release), and afterwards the free list is what
    it was before the release. *)
Theorem released_segments_are_allocated_again_before_new_ones
  (fuel : nat) (pool : SegmentPool) (item : option nat) (l fl : list nat) :
  lseg (fun i => next (segs pool i)) item l None ->
  free_list pool fl ->
  (forall x, In x l -> ~ In x fl) ->
  (length l < fuel)%nat ->
  exists pool',
    ReleaseAll fuel pool item = Some pool' /\
    fst (Allocate_repeatedly (length l) pool') = map Some (rev l) /\
    free_list (snd (Allocate_repeatedly (length l) pool')) fl /\
    numCreated (snd (Allocate_repeatedly (length l) pool')) = numCreated pool /\
    heapTop (snd (Allocate_repeatedly (length l) pool')) = heapTop pool.
Proof.
  intros Hl Hfl Hdis Hf.
  destruct (ReleaseAll_spec l fuel pool item fl Hl Hfl Hdis Hf)
    as (pool' & R1 & R2 & R3 & R4 & _).
  exists pool'. split; [exact R1 |].
  destruct (Allocate_repeatedly_from_free_list (rev l) pool' fl R2)
    as (A1 & A2 & A3 & A4).
  rewrite length_rev in *.
  repeat split; [exact A1 | exact A2 | congruence | congruence].
Qed.

(** ** Microstepping *)

Lemma Qltb_lt (a b : Q) : Qltb a b = true <-> (a < b)%Q.
Proof.
  unfold Qltb. rewrite negb_true_iff. split.
  - intros H. apply Qnot_le_lt. intros Hle.
    apply Qle_bool_iff in Hle. congruence.
  - intros H. destruct (Qle_bool b a) eqn:B; [| reflexivity].
    apply Qle_bool_iff in B. exfalso. now apply (Qlt_not_le a b).
Qed.

Lemma Qltb_ge (a b : Q) : Qltb a b = false <-> (b <= a)%Q.
Proof.
  unfold Qltb. rewrite negb_false_iff. apply Qle_bool_iff.
Qed.

Lemma land_low15 (x : Z) : Z.land (wrap16 x) 0x7FFF = x mod 2 ^ 15.
Proof.
  change 0x7FFF with (Z.ones 15). rewrite Z.land_ones by lia.
  unfold wrap16. change (2 ^ 16) with 65536. change (2 ^ 15) with 32768.
  Z.div_mod_to_equations. lia.
Qed.

Lemma land_bit15 (v : Z) :
  negb (Z.land v 0x8000 =? 0) = Z.testbit v 15.
Proof.
  assert (H : Z.land v 0x8000 = if Z.testbit v 15 then 0x8000 else 0).
  { apply Z.bits_inj'. intros n Hn. rewrite Z.land_spec.
    change 0x8000 with (2 ^ 15).
    destruct (Z.eq_dec n 15) as [-> | Hne].
    - rewrite Z.pow2_bits_true by lia. rewrite andb_true_r.
      destruct (Z.testbit v 15); [now rewrite Z.pow2_bits_true by lia |
                                  now rewrite Z.bits_0].
    - rewrite Z.pow2_bits_false by lia. rewrite andb_false_r.
      destruct (Z.testbit v 15); [now rewrite Z.pow2_bits_false by lia |
                                  now rewrite Z.bits_0]. }
  rewrite H. now destruct (Z.testbit v 15).
Qed.

Lemma testbit15_wrap16 (x : Z) : Z.testbit (wrap16 x) 15 = Z.testbit x 15.
Proof. unfold wrap16. apply Z.mod_pow2_bits_low. lia. Qed.

Lemma lor_bit15_low (x : Z) : Z.lor x 0x8000 mod 2 ^ 15 = x mod 2 ^ 15.
Proof.
  rewrite <- !Z.land_ones by lia. rewrite Z.land_lor_distr_l.
  change (Z.land 0x8000 (Z.ones 15)) with 0. apply Z.lor_0_r.
Qed.

Lemma stored_microsteps (microsteps : Z) (interp : bool) :
  Z.land (wrap16 (if interp then Z.lor microsteps 0x8000 else microsteps))
         0x7FFF
  = microsteps mod 2 ^ 15.
Proof.
  rewrite land_low15. destruct interp; [apply lor_bit15_low | reflexivity].
Qed.

Lemma stored_interpolation (microsteps : Z) (interp : bool) :
  negb (Z.land (wrap16 (if interp then Z.lor microsteps 0x8000
                        else microsteps)) 0x8000 =? 0)
  = interp || Z.testbit microsteps 15.
Proof.
  rewrite land_bit15, testbit15_wrap16. destruct interp; [| reflexivity].
  rewrite Z.lor_spec. change 0x8000 with (2 ^ 15).
  rewrite Z.pow2_bits_true by lia. apply orb_true_r.
Qed.

(** X10.  Microstepping round trip.  For [0 <= microsteps < 0x8000]: after
    [SetMicrostepping(axis, microsteps, interp)],
    [GetMicrostepping(axis, interpolation)] returns [microsteps] and sets
    [interpolation] to [interp]; the one-argument [GetMicrostepping] and
    [GetMicrostepInterpolation] agree with it; the raw value of every other
    axis and all steps/mm values are unchanged. *)
Theorem microstepping_round_trip
  (SetDriversMicrostepping : nat -> Z -> bool -> bool)
  (s : DriveSettings) (axisOrExtruder : nat) (microsteps : Z) (interp : bool) :
  0 <= microsteps < 0x8000 ->
  let s' := snd (SetMicrostepping SetDriversMicrostepping s axisOrExtruder
                                  microsteps interp) in
  GetMicrostepping_interpolation s' axisOrExtruder = (microsteps, interp) /\
  GetMicrostepping s' axisOrExtruder = microsteps /\
  GetMicrostepInterpolation s' axisOrExtruder = interp /\
  (forall other, other <> axisOrExtruder ->
     GetRawMicrostepping s' other = GetRawMicrostepping s other) /\
  (forall a, DriveStepsPerMm s' a = DriveStepsPerMm s a).
Proof.
  intros Hr s'.
  assert (Hraw : microstepping s' axisOrExtruder
                 = wrap16 (if interp then Z.lor microsteps 0x8000
                           else microsteps)).
  { unfold s', SetMicrostepping. simpl. apply upd_same. }
  assert (Hlow : microsteps mod 2 ^ 15 = microsteps).
  { apply Z.mod_small. change (2 ^ 15) with 0x8000. lia. }
  assert (Hbit : Z.testbit microsteps 15 = false).
  { apply Z.bits_above_log2; [lia |].
    destruct (Z.eq_dec microsteps 0) as [-> | Hnz]; [simpl; lia |].
    apply Z.log2_lt_pow2; [lia |]. change (2 ^ 15) with 0x8000. lia. }
  unfold GetMicrostepping_interpolation, GetMicrostepping,
    GetMicrostepInterpolation.
  rewrite Hraw, stored_microsteps, stored_interpolation, Hlow, Hbit,
    orb_false_r.
  repeat split.
  intros other Hother. unfold GetRawMicrostepping, s', SetMicrostepping.
  simpl. now apply upd_other.
Qed.

(** X11.  What is read back for any argument.  After
    [SetMicrostepping(axis, microsteps, interp)] with an arbitrary
    [microsteps], [GetMicrostepping] returns [microsteps] modulo 2^15 and
    the interpolation flag reads back as [interp] or bit 15 of
    [microsteps]: a count of 0x8000 or more is truncated and switches the
    flag on.  The count read back is always below 0x8000 and the raw value
    fits 16 bits. *)
Theorem GetMicrostepping_reads_the_low_15_bits
  (SetDriversMicrostepping : nat -> Z -> bool -> bool)
  (s : DriveSettings) (axisOrExtruder : nat) (microsteps : Z) (interp : bool) :
  let s' := snd (SetMicrostepping SetDriversMicrostepping s axisOrExtruder
                                  microsteps interp) in
  GetMicrostepping_interpolation s' axisOrExtruder
  = (microsteps mod 2 ^ 15, interp || Z.testbit microsteps 15) /\
  0 <= GetMicrostepping s' axisOrExtruder < 0x8000 /\
  0 <= GetRawMicrostepping s' axisOrExtruder < 2 ^ 16.
Proof.
  intros s'.
  assert (Hraw : microstepping s' axisOrExtruder
                 = wrap16 (if interp then Z.lor microsteps 0x8000
                           else microsteps)).
  { unfold s', SetMicrostepping. simpl. apply upd_same. }
  unfold GetMicrostepping_interpolation, GetMicrostepping, GetRawMicrostepping.
  rewrite Hraw, stored_microsteps, stored_interpolation.
  split; [reflexivity |]. split.
  - change 0x8000 with (2 ^ 15). apply Z.mod_pos_bound. lia.
  - unfold wrap16. apply Z.mod_pos_bound. lia.
Qed.

(** ** Steps per mm *)

Lemma fmax_ge_r (a b : Q) : (b <= fmax a b)%Q.
Proof.
  unfold fmax. destruct (Qltb b a) eqn:C.
  - apply Qltb_lt in C. now apply Qlt_le_weak.
  - apply Qle_refl.
Qed.

Lemma fmax_of_ge (a b : Q) : (b <= a)%Q -> (fmax a b == a)%Q.
Proof.
  intros H. unfold fmax. destruct (Qltb b a) eqn:C; [reflexivity |].
  apply Qltb_ge in C. now apply Qle_antisym.
Qed.

(** X12.  Steps per mm are at least one and follow the microstepping.
    After [SetDriveStepsPerMm(axis, value, requestedMicrostepping)] the
    stored steps/mm of the axis are never below 1.  If
    [requestedMicrostepping] is 0 or equals the current microstepping of
    the axis, the stored value is [max(value, 1)].  If it is not 0 and the
    rescaled value [value * current / requested] is at least 1, the stored
    value satisfies [stored * requested = value * current] (in exact
    arithmetic).  The other axes and the microstepping are unchanged. *)
Theorem SetDriveStepsPerMm_is_at_least_one_and_rescales
  (s : DriveSettings) (axisOrExtruder : nat) (value : Q)
  (requestedMicrostepping : Z) :
  let s' := SetDriveStepsPerMm s axisOrExtruder value requestedMicrostepping in
  let current := GetMicrostepping s axisOrExtruder in
  (1 <= DriveStepsPerMm s' axisOrExtruder)%Q /\
  (requestedMicrostepping = 0 \/ requestedMicrostepping = current ->
   DriveStepsPerMm s' axisOrExtruder = fmax value 1) /\
  (requestedMicrostepping <> 0 ->
   (1 <= value * inject_Z current / inject_Z requestedMicrostepping)%Q ->
   (DriveStepsPerMm s' axisOrExtruder * inject_Z requestedMicrostepping
    == value * inject_Z current)%Q) /\
  (forall other, other <> axisOrExtruder ->
     DriveStepsPerMm s' other = DriveStepsPerMm s other) /\
  (forall a, GetRawMicrostepping s' a = GetRawMicrostepping s a).
Proof.
  intros s' current.
  unfold DriveStepsPerMm, s', SetDriveStepsPerMm. cbn [driveStepsPerMm].
  rewrite upd_same. fold (GetMicrostepping s axisOrExtruder). fold current.
  split; [apply fmax_ge_r |].
  split.
  { intros [-> | ->].
    - reflexivity.
    - rewrite Z.eqb_refl. cbn [negb]. now destruct (negb (current =? 0)). }
  split.
  { intros Hnz Hge.
    assert (Hq : ~ (inject_Z requestedMicrostepping == 0)%Q).
    { unfold Qeq, inject_Z. simpl. lia. }
    apply Z.eqb_neq in Hnz. rewrite Hnz. cbn [negb].
    destruct (Z.eqb_spec current requestedMicrostepping) as [Heq | Hne];
      cbn [negb].
    - rewrite Heq in *.
      assert (Hv : (value * inject_Z requestedMicrostepping
                    / inject_Z requestedMicrostepping == value)%Q)
        by (field; exact Hq).
      rewrite Hv in Hge. now rewrite (fmax_of_ge _ _ Hge).
    - rewrite (fmax_of_ge _ _ Hge). field. exact Hq. }
  split.
  { intros other Hother. now apply upd_other. }
  reflexivity.
Qed.

(** ** Axis compensation settings *)

(** X13.  Axis compensation is bounds-checked.  Reading [AxisCompensation]
    after [SetAxisCompensation(axis, tangent)] gives [tangent] for the axis
    written, when that axis is 0, 1 or 2, and the previous value for every
    other axis; a write to an axis of 3 or more changes nothing, and a read
    of such an axis gives 0. *)
Theorem AxisCompensation_ignores_axes_out_of_range
  (s : Compensation) (axis other : nat) (tangent : Q) :
  AxisCompensation (SetAxisCompensation s axis tangent) other
  = (if (axis <? 3)%nat && (other =? axis)%nat then tangent
     else AxisCompensation s other) /\
  ((3 <= axis)%nat ->
   SetAxisCompensation s axis tangent = s /\ AxisCompensation s axis = 0%Q).
Proof.
  unfold AxisCompensation, SetAxisCompensation. split.
  - destruct (axis <? 3)%nat eqn:A; simpl; [| reflexivity].
    unfold upd. destruct (Nat.eqb_spec other axis) as [-> | Hne].
    + now rewrite A.
    + reflexivity.
  - intros H. apply Nat.ltb_ge in H. now rewrite H.
Qed.

(** ** The skew transform and its inverse *)

Section AxisTransformFacts.
Context {G : Geometry}.

Local Open Scope Q_scope.

(** The transforms change mapped axes only. *)
Lemma AxisTransform_axis_frame (s : Compensation) (xAxes yAxes : AxesBitmap)
  (lx ly : nat) (p : nat -> Q) (axis a : nat) :
  (a <> axis \/ (IsBitSet xAxes a = false /\ IsBitSet yAxes a = false)) ->
  AxisTransform_axis s xAxes yAxes lx ly p axis a = p a.
Proof.
  intros H. unfold AxisTransform_axis.
  destruct H as [Hne | [Hx Hy]].
  - destruct (IsBitSet xAxes axis), (IsBitSet yAxes axis);
      rewrite ?upd_other by exact Hne; reflexivity.
  - destruct (Nat.eq_dec a axis) as [-> | Hne].
    + now rewrite Hx, Hy.
    + destruct (IsBitSet xAxes axis), (IsBitSet yAxes axis);
        rewrite ?upd_other by exact Hne; reflexivity.
Qed.

Lemma InverseAxisTransform_axis_frame (s : Compensation)
  (xAxes yAxes : AxesBitmap) (lx ly : nat) (p : nat -> Q) (axis a : nat) :
  (a <> axis \/ (IsBitSet xAxes a = false /\ IsBitSet yAxes a = false)) ->
  InverseAxisTransform_axis s xAxes yAxes lx ly p axis a = p a.
Proof.
  intros H. unfold InverseAxisTransform_axis.
  destruct H as [Hne | [Hx Hy]].
  - destruct (IsBitSet xAxes axis), (IsBitSet yAxes axis);
      rewrite ?upd_other by exact Hne; reflexivity.
  - destruct (Nat.eq_dec a axis) as [-> | Hne].
    + now rewrite Hx, Hy.
    + destruct (IsBitSet xAxes axis), (IsBitSet yAxes axis);
        rewrite ?upd_other by exact Hne; reflexivity.
Qed.

Lemma fold_axis_frame (f : (nat -> Q) -> nat -> nat -> Q) (a : nat) :
  forall la p,
    (forall q axis, In axis la -> f q axis a = q a) ->
    fold_left f la p a = p a.
Proof.
  induction la as [| x la IH]; intros p Hf; simpl; [reflexivity |].
  rewrite IH.
  - apply Hf. now left.
  - intros q axis Hin. apply Hf. now right.
Qed.

(** The shift that the transform gives axis [a] when [tanXY] is zero. *)
Definition shear (s : Compensation) (xAxes yAxes : AxesBitmap) (z : Q)
  (a : nat) : Q :=
  (if IsBitSet xAxes a then tanXZ s * z else 0)
  + (if IsBitSet yAxes a then tanYZ s * z else 0).

Lemma AxisTransform_axis_shear (s : Compensation) (xAxes yAxes : AxesBitmap)
  (lx ly : nat) (z : Q) (q : nat -> Q) (axis a : nat) :
  tanXY s == 0 -> q Z_AXIS = z ->
  IsBitSet xAxes Z_AXIS = false -> IsBitSet yAxes Z_AXIS = false ->
  AxisTransform_axis s xAxes yAxes lx ly q axis a
  == q a + (if Nat.eqb a axis then shear s xAxes yAxes z axis else 0).
Proof.
  intros Ht Hz Hbx Hby. unfold AxisTransform_axis, shear.
  assert (H0 : forall v, tanXY s * v == 0) by (intros v; rewrite Ht; ring).
  destruct (Nat.eqb_spec a axis) as [-> | Hne].
  - destruct (IsBitSet xAxes axis) eqn:Bx, (IsBitSet yAxes axis) eqn:By;
      rewrite ?upd_same.
    + assert (Hax : Z_AXIS <> axis) by (intros <-; congruence).
      rewrite (upd_other _ _ Z_AXIS) by exact Hax.
      rewrite Hz. destruct (compensateXY s); try rewrite H0; ring.
    + rewrite Hz. destruct (compensateXY s); try rewrite H0; ring.
    + rewrite Hz. destruct (compensateXY s); try rewrite H0; ring.
    + ring.
  - destruct (IsBitSet xAxes axis), (IsBitSet yAxes axis);
      rewrite ?upd_other by exact Hne; ring.
Qed.

Lemma InverseAxisTransform_axis_shear (s : Compensation)
  (xAxes yAxes : AxesBitmap) (lx ly : nat) (z : Q) (q : nat -> Q)
  (axis a : nat) :
  tanXY s == 0 -> q Z_AXIS = z ->
  IsBitSet xAxes Z_AXIS = false -> IsBitSet yAxes Z_AXIS = false ->
  InverseAxisTransform_axis s xAxes yAxes lx ly q axis a
  == q a - (if Nat.eqb a axis then shear s xAxes yAxes z axis else 0).
Proof.
  intros Ht Hz Hbx Hby. unfold InverseAxisTransform_axis, shear.
  assert (H0 : forall v, tanXY s * v == 0) by (intros v; rewrite Ht; ring).
  destruct (Nat.eqb_spec a axis) as [-> | Hne].
  - destruct (IsBitSet xAxes axis) eqn:Bx, (IsBitSet yAxes axis) eqn:By;
      rewrite ?upd_same.
    + assert (Hax : Z_AXIS <> axis) by (intros <-; congruence).
      rewrite (upd_other _ _ Z_AXIS) by exact Hax.
      rewrite Hz. destruct (compensateXY s); try rewrite H0; ring.
    + rewrite Hz. destruct (compensateXY s); try rewrite H0; ring.
    + rewrite Hz. destruct (compensateXY s); try rewrite H0; ring.
    + ring.
  - destruct (IsBitSet xAxes axis), (IsBitSet yAxes axis);
      rewrite ?upd_other by exact Hne; ring.
Qed.

Lemma fold_shear (f : (nat -> Q) -> nat -> nat -> Q) (sign : Q)
  (sh : nat -> Q) (z : Q) :
  (forall q axis a, q Z_AXIS = z ->
     f q axis a == q a + (if Nat.eqb a axis then sign * sh axis else 0)) ->
  (forall q axis, f q axis Z_AXIS = q Z_AXIS) ->
  forall la p a,
    NoDup la -> p Z_AXIS = z ->
    fold_left f la p a
    == p a + (if in_dec Nat.eq_dec a la then sign * sh a else 0).
Proof.
  intros Hstep Hz. induction la as [| x la IH]; intros p a Hnd Hp.
  - simpl. ring.
  - inversion Hnd as [| ? ? Hx Hnd']; subst. cbn [fold_left].
    assert (Hp' : f p x Z_AXIS = p Z_AXIS) by apply Hz.
    rewrite (IH (f p x) a Hnd' Hp').
    rewrite (Hstep p x a eq_refl).
    destruct (Nat.eqb_spec a x) as [-> | Hne].
    + destruct (in_dec Nat.eq_dec x la) as [Hin | _]; [contradiction |].
      destruct (in_dec Nat.eq_dec x (x :: la)) as [_ | Hn];
        [ring | exfalso; apply Hn; now left].
    + destruct (in_dec Nat.eq_dec a la) as [Hin | Hnin];
        destruct (in_dec Nat.eq_dec a (x :: la)) as [Hin' | Hnin'];
        try ring.
      * exfalso. apply Hnin'. now right.
      * exfalso. destruct Hin' as [-> | Hin']; [now apply Hne | contradiction].
Qed.

(** With or without skew, the transforms touch only the visible axes that
    are X or Y axes of the tool. *)
Lemma AxisTransform_frame
  (s : Compensation) (tool : Tool) (xyzPoint : nat -> Q) (a : nat) :
  (IsBitSet (GetXAxes tool) a = false /\ IsBitSet (GetYAxes tool) a = false)
  \/ (GetVisibleAxes <= a)%nat ->
  AxisTransform s tool xyzPoint a = xyzPoint a /\
  InverseAxisTransform s tool xyzPoint a = xyzPoint a.
Proof.
  intros Ha. unfold InverseAxisTransform, AxisTransform.
  destruct (LowestSetBit (GetYAxes tool) <? GetVisibleAxes)%nat; [| now split].
  split; apply fold_axis_frame; intros q axis Hin;
    [apply AxisTransform_axis_frame | apply InverseAxisTransform_axis_frame];
    (destruct Ha as [Ha | Ha]; [now right | left]);
    apply in_seq in Hin; lia.
Qed.

Lemma AxisTransform_round_trip
  (s : Compensation) (tool : Tool) (xyzPoint : nat -> Q) :
  tanXY s == 0 ->
  IsBitSet (GetXAxes tool) Z_AXIS = false ->
  IsBitSet (GetYAxes tool) Z_AXIS = false ->
  forall a,
    InverseAxisTransform s tool (AxisTransform s tool xyzPoint) a
    == xyzPoint a.
Proof.
  intros Ht Hbx Hby.
  set (xA := GetXAxes tool) in *. set (yA := GetYAxes tool) in *.
  set (lx := LowestSetBit xA). set (ly := LowestSetBit yA).
  intros a. unfold InverseAxisTransform, AxisTransform.
  fold xA yA lx ly. destruct (ly <? GetVisibleAxes)%nat; [| reflexivity].
  set (z := xyzPoint Z_AXIS).
  set (sh := shear s xA yA z).
  set (fwd := fold_left (AxisTransform_axis s xA yA lx ly)
                        (seq 0 GetVisibleAxes) xyzPoint).
  assert (Fz : forall q axis,
                 AxisTransform_axis s xA yA lx ly q axis Z_AXIS = q Z_AXIS).
  { intros q axis. apply AxisTransform_axis_frame. right. now split. }
  assert (Iz : forall q axis,
                 InverseAxisTransform_axis s xA yA lx ly q axis Z_AXIS
                 = q Z_AXIS).
  { intros q axis. apply InverseAxisTransform_axis_frame. right. now split. }
  assert (F : forall b,
                fwd b
                == xyzPoint b + (if in_dec Nat.eq_dec b (seq 0 GetVisibleAxes)
                                 then 1 * sh b else 0)).
  { intros b. apply (fold_shear _ 1 sh z); [| exact Fz | | reflexivity].
    - intros q axis c Hq.
      rewrite (AxisTransform_axis_shear s xA yA lx ly z q axis c Ht Hq Hbx Hby).
      unfold sh. destruct (Nat.eqb c axis); ring.
    - apply seq_NoDup. }
  assert (Hfz : fwd Z_AXIS = z).
  { unfold fwd. apply fold_axis_frame. intros q axis _. apply Fz. }
  assert (Inv : fold_left (InverseAxisTransform_axis s xA yA lx ly)
                          (seq 0 GetVisibleAxes) fwd a
                == fwd a + (if in_dec Nat.eq_dec a (seq 0 GetVisibleAxes)
                            then (-1) * sh a else 0)).
  { apply (fold_shear _ (-1) sh z); [| exact Iz | | exact Hfz].
    - intros q axis c Hq.
      rewrite (InverseAxisTransform_axis_shear s xA yA lx ly z q axis c
                 Ht Hq Hbx Hby).
      unfold sh. destruct (Nat.eqb c axis); ring.
    - apply seq_NoDup. }
  rewrite Inv, (F a).
  destruct (in_dec Nat.eq_dec a (seq 0 GetVisibleAxes)); ring.
Qed.

(** X14.  Without XY skew the inverse skew transform is exact.  If
    [tanXY] is zero and the Z axis is not mapped as an X or Y axis of the
    tool, [InverseAxisTransform] applied to the result of [AxisTransform]
    gives back every coordinate (in exact arithmetic), for any axis mapping
    of the tool.  In all cases - with or without skew, whatever the axis
    mapping - both transforms leave alone every axis that is neither an X
    nor a Y axis of the tool, and every axis that is not visible. *)
Theorem InverseAxisTransform_undoes_AxisTransform_without_XY_skew
  (s : Compensation) (tool : Tool) (xyzPoint : nat -> Q) :
  (tanXY s == 0 ->
   IsBitSet (GetXAxes tool) Z_AXIS = false ->
   IsBitSet (GetYAxes tool) Z_AXIS = false ->
   forall a,
     InverseAxisTransform s tool (AxisTransform s tool xyzPoint) a
     == xyzPoint a) /\
  (forall a,
     (IsBitSet (GetXAxes tool) a = false /\ IsBitSet (GetYAxes tool) a = false)
     \/ (GetVisibleAxes <= a)%nat ->
     AxisTransform s tool xyzPoint a = xyzPoint a /\
     InverseAxisTransform s tool xyzPoint a = xyzPoint a).
Proof.
  split.
  - apply AxisTransform_round_trip.
  - apply AxisTransform_frame.
Qed.

(** X15.  The skew transform and its inverse on a Cartesian tool.  With
    three visible axes, X mapped to axis 0, Y to axis 1 and Z axis 2:
    [AxisTransform] leaves Z alone and, if [compensateXY], gives
    [x + tanXY*y + tanXZ*z] and [y + tanYZ*z], else [x + tanXZ*z] and
    [y + tanXY*(x + tanXZ*z) + tanYZ*z].  [InverseAxisTransform] applied to
    the result restores Z; if [compensateXY] it restores Y and leaves X at
    [x - tanXY*tanYZ*z]; else it restores X and leaves Y at
    [y + tanXY*tanXZ*z] (in exact arithmetic).  So the round trip is exact
    exactly when that product vanishes. *)
Theorem InverseAxisTransform_residual_on_a_Cartesian_tool
  (s : Compensation) (tool : Tool) (xyzPoint : nat -> Q) :
  GetVisibleAxes = 3%nat -> Z_AXIS = 2%nat ->
  LowestSetBit (GetXAxes tool) = 0%nat ->
  LowestSetBit (GetYAxes tool) = 1%nat ->
  (forall a, (a < 3)%nat -> IsBitSet (GetXAxes tool) a = Nat.eqb a 0) ->
  (forall a, (a < 3)%nat -> IsBitSet (GetYAxes tool) a = Nat.eqb a 1) ->
  let x := xyzPoint 0%nat in
  let y := xyzPoint 1%nat in
  let z := xyzPoint 2%nat in
  let forward := AxisTransform s tool xyzPoint in
  let back := InverseAxisTransform s tool forward in
  forward 2%nat == z /\
  (if compensateXY s
   then forward 0%nat == x + tanXY s * y + tanXZ s * z /\
        forward 1%nat == y + tanYZ s * z
   else forward 0%nat == x + tanXZ s * z /\
        forward 1%nat == y + tanXY s * (x + tanXZ s * z) + tanYZ s * z) /\
  back 2%nat == z /\
  (if compensateXY s
   then back 0%nat == x - tanXY s * tanYZ s * z /\ back 1%nat == y
   else back 0%nat == x /\ back 1%nat == y + tanXY s * tanXZ s * z).
Proof.
  intros Hn Hz Hlx Hly Hbx Hby x y z forward back.
  pose proof (Hbx 0%nat ltac:(lia)) as X0. pose proof (Hbx 1%nat ltac:(lia)) as X1.
  pose proof (Hbx 2%nat ltac:(lia)) as X2. pose proof (Hby 0%nat ltac:(lia)) as Y0.
  pose proof (Hby 1%nat ltac:(lia)) as Y1. pose proof (Hby 2%nat ltac:(lia)) as Y2.
  cbn [Nat.eqb] in X0, X1, X2, Y0, Y1, Y2.
  unfold back, forward, InverseAxisTransform, AxisTransform.
  rewrite Hn, Hlx, Hly. cbn [Nat.ltb Nat.leb seq fold_left].
  set (f := AxisTransform_axis s (GetXAxes tool) (GetYAxes tool) 0 1).
  set (g := InverseAxisTransform_axis s (GetXAxes tool) (GetYAxes tool) 0 1).
  set (c := compensateXY s).
  set (p1 := f xyzPoint 0%nat).
  assert (P1 : p1 0%nat = x + ((if c then tanXY s * y else 0) + tanXZ s * z)
               /\ p1 1%nat = y /\ p1 2%nat = z).
  { unfold p1, f, AxisTransform_axis. rewrite X0, Y0, Hz. repeat split. }
  clearbody p1. destruct P1 as (P10 & P11 & P12).
  set (p2 := f p1 1%nat).
  assert (P2 : p2 0%nat = p1 0%nat
               /\ p2 1%nat = p1 1%nat + ((if c then 0 else tanXY s * p1 0%nat)
                                         + tanYZ s * p1 2%nat)
               /\ p2 2%nat = p1 2%nat).
  { unfold p2, f, AxisTransform_axis. rewrite X1, Y1, Hz. repeat split. }
  clearbody p2. destruct P2 as (P20 & P21 & P22).
  set (p3 := f p2 2%nat).
  assert (P3 : p3 0%nat = p2 0%nat /\ p3 1%nat = p2 1%nat /\ p3 2%nat = p2 2%nat).
  { unfold p3, f, AxisTransform_axis. rewrite X2, Y2. repeat split. }
  clearbody p3. destruct P3 as (P30 & P31 & P32).
  set (q1 := g p3 0%nat).
  assert (Q1 : q1 0%nat = p3 0%nat - ((if c then tanXY s * p3 1%nat else 0)
                                      + tanXZ s * p3 2%nat)
               /\ q1 1%nat = p3 1%nat /\ q1 2%nat = p3 2%nat).
  { unfold q1, g, InverseAxisTransform_axis. rewrite X0, Y0, Hz. repeat split. }
  clearbody q1. destruct Q1 as (Q10 & Q11 & Q12).
  set (q2 := g q1 1%nat).
  assert (Q2 : q2 0%nat = q1 0%nat
               /\ q2 1%nat = q1 1%nat - ((if c then 0 else tanXY s * q1 0%nat)
                                         + tanYZ s * q1 2%nat)
               /\ q2 2%nat = q1 2%nat).
  { unfold q2, g, InverseAxisTransform_axis. rewrite X1, Y1, Hz. repeat split. }
  clearbody q2. destruct Q2 as (Q20 & Q21 & Q22).
  set (q3 := g q2 2%nat).
  assert (Q3 : q3 0%nat = q2 0%nat /\ q3 1%nat = q2 1%nat /\ q3 2%nat = q2 2%nat).
  { unfold q3, g, InverseAxisTransform_axis. rewrite X2, Y2. repeat split. }
  clearbody q3. destruct Q3 as (Q30 & Q31 & Q32).
  rewrite Q30, Q31, Q32, Q20, Q21, Q22, Q10, Q11, Q12, P30, P31, P32,
    P20, P21, P22, P10, P11, P12.
  destruct c; repeat split; ring.
Qed.

End AxisTransformFacts.

(** ** The bed transform and its inverse *)

Section BedTransformFacts.
Context {G : Geometry}.

Local Open Scope Q_scope.

(** The taper settings are consistent: with taper in use the height is
    positive and [recipTaperHeight] is its reciprocal. *)
Definition taper_ok (s : Compensation) : Prop :=
  useTaper s = true ->
  0 < taperHeight s /\ recipTaperHeight s == 1 / taperHeight s.

Lemma fold_left_ext_in {A B : Type} (f g : A -> B -> A) (l : list B) :
  (forall acc x, In x l -> f acc x = g acc x) ->
  forall a, fold_left f l a = fold_left g l a.
Proof.
  induction l as [| x l IH]; intros H a; simpl; [reflexivity |].
  rewrite (H a x (or_introl eq_refl)). apply IH.
  intros acc y Hy. apply H. now right.
Qed.

(** The height correction does not read the height. *)
Lemma ComputeHeightCorrection_ignores_Z (s : Compensation) (tool : Tool)
  (p : nat -> Q) (v : Q) :
  ~ In Z_AXIS (Iterate (GetAxisMapping tool (GetAxisNumber 0))) ->
  ~ In Z_AXIS (Iterate (GetAxisMapping tool (GetAxisNumber 1))) ->
  ComputeHeightCorrection s tool (upd p Z_AXIS v)
  = ComputeHeightCorrection s tool p.
Proof.
  intros H0 H1. unfold ComputeHeightCorrection.
  f_equal.
  assert (Hfold :
    fold_left
      (fun acc axis0Axis =>
         fold_left
           (fun '(zCorrection, numCorrections) axis1Axis =>
              (zCorrection
               + GetInterpolatedHeightError
                   (upd p Z_AXIS v axis0Axis + GetOffset tool axis0Axis)
                   (upd p Z_AXIS v axis1Axis + GetOffset tool axis1Axis),
               S numCorrections))
           (Iterate (GetAxisMapping tool (GetAxisNumber 1))) acc)
      (Iterate (GetAxisMapping tool (GetAxisNumber 0))) (0, 0%nat)
    = fold_left
      (fun acc axis0Axis =>
         fold_left
           (fun '(zCorrection, numCorrections) axis1Axis =>
              (zCorrection
               + GetInterpolatedHeightError
                   (p axis0Axis + GetOffset tool axis0Axis)
                   (p axis1Axis + GetOffset tool axis1Axis),
               S numCorrections))
           (Iterate (GetAxisMapping tool (GetAxisNumber 1))) acc)
      (Iterate (GetAxisMapping tool (GetAxisNumber 0))) (0, 0%nat)).
  { apply fold_left_ext_in. intros acc a0 Ha0.
    apply fold_left_ext_in. intros [zc nc] a1 Ha1.
    rewrite !upd_other; [reflexivity | |]; intros ->; contradiction. }
  cbv zeta. rewrite Hfold. reflexivity.
Qed.

Lemma SetTaperHeight_taper_ok (s : Compensation) (h : Q) :
  taper_ok (SetTaperHeight s h).
Proof.
  unfold taper_ok, SetTaperHeight. destruct (Qltb 1 h) eqn:C; simpl.
  - intros _. apply Qltb_lt in C. split; [lra | reflexivity].
  - discriminate.
Qed.

(** X16.  [SetTaperHeight] keeps the taper settings consistent.  After
    [SetTaperHeight(h)]: if [h > 1] the taper is in use, [GetTaperHeight]
    returns [h] and, in exact arithmetic, [recipTaperHeight * h = 1] (the
    code stores the quotient rounded to [float], so there the product is 1
    up to that rounding only); if [h <= 1] the taper is off,
    [GetTaperHeight] returns 0 and the stored height and reciprocal are as
    before; in both cases the settings are, in exact arithmetic, consistent
    in the sense that the bed transform needs, and the other compensation
    settings are untouched. *)
Theorem SetTaperHeight_keeps_the_taper_consistent
  (s : Compensation) (h : Q) :
  let s' := SetTaperHeight s h in
  taper_ok s' /\
  (1 < h -> GetTaperHeight s' = h /\ recipTaperHeight s' * h == 1) /\
  (h <= 1 -> GetTaperHeight s' = 0 /\ useTaper s' = false /\
             taperHeight s' = taperHeight s /\
             recipTaperHeight s' = recipTaperHeight s) /\
  tangents s' = tangents s /\ compensateXY s' = compensateXY s /\
  usingMesh s' = usingMesh s /\ zShift s' = zShift s.
Proof.
  intros s'. split; [apply SetTaperHeight_taper_ok |].
  unfold s', SetTaperHeight, GetTaperHeight.
  split.
  - intros Hh. pose proof Hh as Hh'. apply Qltb_lt in Hh'. rewrite Hh'. simpl.
    split; [reflexivity |]. field. intros X. rewrite X in Hh. lra.
  - split.
    + intros Hh. apply Qltb_ge in Hh. rewrite Hh. simpl. repeat split.
    + destruct (Qltb 1 h); repeat split.
Qed.

Lemma BedTransform_round_trip
  (s : Compensation) (tool : Tool) (xyzPoint : nat -> Q) :
  taper_ok s ->
  ~ In Z_AXIS (Iterate (GetAxisMapping tool (GetAxisNumber 0))) ->
  ~ In Z_AXIS (Iterate (GetAxisMapping tool (GetAxisNumber 1))) ->
  (useTaper s = true ->
   taperHeight s <= ComputeHeightCorrection s tool xyzPoint ->
   xyzPoint Z_AXIS + GetOffset tool Z_AXIS < taperHeight s) ->
  (forall a,
     InverseBedTransform s tool (BedTransform s tool xyzPoint) a
     == xyzPoint a) /\
  (forall a, a <> Z_AXIS ->
     BedTransform s tool xyzPoint a = xyzPoint a /\
     InverseBedTransform s tool xyzPoint a = xyzPoint a).
Proof.
  intros Hok H0 H1 Hcase.
  set (zc := ComputeHeightCorrection s tool xyzPoint) in *.
  set (z := xyzPoint Z_AXIS) in *. set (off := GetOffset tool Z_AXIS) in *.
  assert (Hframe : forall a, a <> Z_AXIS ->
            BedTransform s tool xyzPoint a = xyzPoint a /\
            InverseBedTransform s tool xyzPoint a = xyzPoint a).
  { intros a Ha. unfold BedTransform, InverseBedTransform.
    destruct (usingMesh s); [| now split]. split.
    - destruct (negb (useTaper s) || Qltb _ _); [| reflexivity].
      now apply upd_other.
    - destruct (negb (useTaper s) || Qle_bool _ _); [now apply upd_other |].
      destruct (Qltb _ _); [now apply upd_other | reflexivity]. }
  split; [| exact Hframe].
  assert (Hpt : forall (q : nat -> Q) v a,
            (v == z) -> (forall b, b <> Z_AXIS -> q b = xyzPoint b) ->
            (if Nat.eqb a Z_AXIS then v else q a) == xyzPoint a).
  { intros q v a Hv Hq. destruct (Nat.eqb_spec a Z_AXIS) as [-> | Hne].
    - exact Hv.
    - now rewrite Hq. }
  intros a. unfold BedTransform. fold z off zc.
  destruct (usingMesh s) eqn:M.
  2:{ unfold InverseBedTransform. now rewrite M. }
  assert (Hsub : negb (useTaper s) || Qle_bool (taperHeight s) zc = true ->
            InverseBedTransform s tool (upd xyzPoint Z_AXIS (z + zc)) a
            == xyzPoint a).
  { intros C. set (p1 := upd xyzPoint Z_AXIS (z + zc)).
    unfold InverseBedTransform. rewrite M.
    assert (Hzc1 : ComputeHeightCorrection s tool p1 = zc)
      by (unfold p1; now apply ComputeHeightCorrection_ignores_Z).
    rewrite Hzc1, C.
    assert (Hp1z : p1 Z_AXIS = z + zc) by (unfold p1; apply upd_same).
    rewrite Hp1z. unfold upd at 1.
    apply (Hpt p1 (z + zc - zc) a); [ring |].
    intros b Hb. unfold p1. now apply upd_other. }
  destruct (useTaper s) eqn:T.
  2:{ cbn [negb orb andb]. now apply Hsub. }
  (* taper in use *)
  destruct (Hok T) as [Hpos Hrec].
  specialize (Hcase eq_refl).
  cbn [negb orb andb].
  destruct (Qltb zc (taperHeight s)) eqn:Hzcb.
  - (* the correction is below the taper height *)
    pose proof Hzcb as Hzc. apply Qltb_lt in Hzc.
    assert (Hleb : Qle_bool (taperHeight s) zc = false).
    { destruct (Qle_bool (taperHeight s) zc) eqn:B; [| reflexivity].
      apply Qle_bool_iff in B. lra. }
    assert (Hdpos : 0 < 1 - zc * recipTaperHeight s).
    { assert (W : zc / taperHeight s < 1) by (apply Qlt_shift_div_r; lra).
      assert (E : zc * (1 / taperHeight s) == zc / taperHeight s)
        by (field; lra).
      rewrite Hrec, E. lra. }
    assert (Hden : ~ (1 - zc * recipTaperHeight s == 0)).
    { intros X. rewrite X in Hdpos. lra. }
    destruct (Qltb (z + off) (taperHeight s)) eqn:TH.
    + (* below the taper height: the tapered correction was applied *)
      set (p1 := upd xyzPoint Z_AXIS
                     (z + (taperHeight s - (z + off)) * recipTaperHeight s * zc)).
      unfold InverseBedTransform. rewrite M, T. cbn [negb orb].
      assert (Hzc1 : ComputeHeightCorrection s tool p1 = zc)
        by (unfold p1; now apply ComputeHeightCorrection_ignores_Z).
      rewrite Hzc1, Hleb. fold off.
      assert (Hp1z : p1 Z_AXIS
                     = z + (taperHeight s - (z + off)) * recipTaperHeight s * zc)
        by (unfold p1; apply upd_same).
      rewrite Hp1z.
      set (zreq := (z + (taperHeight s - (z + off)) * recipTaperHeight s * zc
                    - (taperHeight s - off) * zc * recipTaperHeight s)
                   / (1 - zc * recipTaperHeight s)).
      assert (Hzreq : zreq == z).
      { unfold zreq. field. exact Hden. }
      assert (Hlt : Qltb (zreq + off) (taperHeight s) = true).
      { apply Qltb_lt. rewrite Hzreq. now apply Qltb_lt. }
      rewrite Hlt. unfold upd at 1.
      apply (Hpt p1 zreq a Hzreq).
      intros b Hb. unfold p1. now apply upd_other.
    + (* at or above the taper height: no correction was applied *)
      unfold InverseBedTransform. rewrite M, T. cbn [negb orb].
      fold zc. rewrite Hleb. fold off z.
      set (zreq := (z - (taperHeight s - off) * zc * recipTaperHeight s)
                   / (1 - zc * recipTaperHeight s)).
      assert (Hge : Qltb (zreq + off) (taperHeight s) = false).
      { apply Qltb_ge. apply Qltb_ge in TH.
        assert (E : zreq + off
                    == (z + off - zc) / (1 - zc * recipTaperHeight s)).
        { unfold zreq. rewrite Hrec. field. split; [lra |].
          rewrite Hrec in Hden. intros X. apply Hden.
          assert (W : 1 - zc * (1 / taperHeight s)
                      == (taperHeight s - zc) / taperHeight s) by (field; lra).
          rewrite W. rewrite X. field. lra. }
        rewrite E. apply Qle_shift_div_l; [exact Hdpos |].
        rewrite Hrec.
        assert (W : taperHeight s * (1 - zc * (1 / taperHeight s))
                    == taperHeight s - zc) by (field; lra).
        rewrite W. lra. }
      rewrite Hge. reflexivity.
  - (* the correction is at least the taper height: it is applied in full,
       and only below the taper height *)
    apply Qltb_ge in Hzcb. specialize (Hcase Hzcb).
    apply Qltb_lt in Hcase. rewrite Hcase.
    apply Hsub. apply Qle_bool_iff in Hzcb. rewrite Hzcb. reflexivity.
Qed.

(** X17.  The inverse bed transform undoes the bed transform.  Let the
    taper settings be consistent (as [SetTaperHeight] leaves them) and let
    the Z axis not be among the axes that the grid axes are mapped to.
    Unless the taper is in use and both the height correction at the point
    and the height of the tool are at or above the taper height,
    [InverseBedTransform] applied to the result of [BedTransform] gives back
    every coordinate (in exact arithmetic).  Both transforms change no
    coordinate but Z. *)
Theorem InverseBedTransform_undoes_BedTransform
  (s : Compensation) (tool : Tool) (xyzPoint : nat -> Q) :
  taper_ok s ->
  ~ In Z_AXIS (Iterate (GetAxisMapping tool (GetAxisNumber 0))) ->
  ~ In Z_AXIS (Iterate (GetAxisMapping tool (GetAxisNumber 1))) ->
  (useTaper s = true ->
   taperHeight s <= ComputeHeightCorrection s tool xyzPoint ->
   xyzPoint Z_AXIS + GetOffset tool Z_AXIS < taperHeight s) ->
  (forall a,
     InverseBedTransform s tool (BedTransform s tool xyzPoint) a
     == xyzPoint a) /\
  (forall a, a <> Z_AXIS ->
     BedTransform s tool xyzPoint a = xyzPoint a /\
     InverseBedTransform s tool xyzPoint a = xyzPoint a).
Proof. apply BedTransform_round_trip. Qed.

End BedTransformFacts.

(** ** The two transforms together *)

Section AxisAndBedTransformFacts.
Context {G : Geometry}.

Local Open Scope Q_scope.

(** Points that agree in every coordinate. *)
Definition same_point (p q : nat -> Q) : Prop := forall a, p a == q a.

Lemma same_point_upd (p q : nat -> Q) (i : nat) (v w : Q) :
  same_point p q -> v == w -> same_point (upd p i v) (upd q i w).
Proof.
  intros Hpq Hvw a. unfold upd. destruct (Nat.eqb a i); [exact Hvw | apply Hpq].
Qed.

Lemma InverseAxisTransform_axis_same_point (s : Compensation)
  (xAxes yAxes : AxesBitmap) (lx ly : nat) (p q : nat -> Q) (axis : nat) :
  same_point p q ->
  same_point (InverseAxisTransform_axis s xAxes yAxes lx ly p axis)
             (InverseAxisTransform_axis s xAxes yAxes lx ly q axis).
Proof.
  intros Hpq. unfold InverseAxisTransform_axis.
  assert (H1 : same_point
            (if IsBitSet yAxes axis
             then upd p axis
                      (p axis - ((if compensateXY s then 0 else tanXY s * p lx)
                                 + tanYZ s * p Z_AXIS))
             else p)
            (if IsBitSet yAxes axis
             then upd q axis
                      (q axis - ((if compensateXY s then 0 else tanXY s * q lx)
                                 + tanYZ s * q Z_AXIS))
             else q)).
  { destruct (IsBitSet yAxes axis); [| exact Hpq].
    apply same_point_upd; [exact Hpq |].
    rewrite (Hpq axis), (Hpq Z_AXIS).
    destruct (compensateXY s); [reflexivity |]. now rewrite (Hpq lx). }
  set (p1 := if IsBitSet yAxes axis then _ else p) in *.
  set (q1 := if IsBitSet yAxes axis then _ else q) in *.
  clearbody p1 q1.
  destruct (IsBitSet xAxes axis); [| exact H1].
  apply same_point_upd; [exact H1 |].
  rewrite (H1 axis), (H1 Z_AXIS).
  destruct (compensateXY s); [| reflexivity]. now rewrite (H1 ly).
Qed.

Lemma InverseAxisTransform_same_point (s : Compensation) (tool : Tool)
  (p q : nat -> Q) :
  same_point p q ->
  same_point (InverseAxisTransform s tool p) (InverseAxisTransform s tool q).
Proof.
  intros Hpq. unfold InverseAxisTransform.
  destruct (LowestSetBit (GetYAxes tool) <? GetVisibleAxes)%nat; [| exact Hpq].
  revert p q Hpq. induction (seq 0 GetVisibleAxes) as [| x la IH];
    intros p q Hpq; [exact Hpq |].
  cbn [fold_left]. apply IH. now apply InverseAxisTransform_axis_same_point.
Qed.

(** X18.  The inverse of the combined transform.  Under the conditions
    of X14 and
    X17 (no XY skew, Z not mapped
    as an X or Y axis nor to a grid axis, consistent taper settings, and not
    both the height correction and the tool height at or above the taper
    height when the taper is in use), [InverseAxisAndBedTransform] applied
    to the result of [AxisAndBedTransform] gives back every coordinate (in
    exact arithmetic), provided bed compensation was applied or no mesh is
    in use: the inverse always undoes the bed transform, whether or not the
    forward transform applied it. *)
Theorem InverseAxisAndBedTransform_undoes_AxisAndBedTransform
  (s : Compensation) (tool : Tool) (useBedCompensation : bool)
  (xyzPoint : nat -> Q) :
  let skewed := AxisTransform s tool xyzPoint in
  tanXY s == 0 ->
  IsBitSet (GetXAxes tool) Z_AXIS = false ->
  IsBitSet (GetYAxes tool) Z_AXIS = false ->
  taper_ok s ->
  ~ In Z_AXIS (Iterate (GetAxisMapping tool (GetAxisNumber 0))) ->
  ~ In Z_AXIS (Iterate (GetAxisMapping tool (GetAxisNumber 1))) ->
  (useTaper s = true ->
   taperHeight s <= ComputeHeightCorrection s tool skewed ->
   xyzPoint Z_AXIS + GetOffset tool Z_AXIS < taperHeight s) ->
  useBedCompensation = true \/ usingMesh s = false ->
  forall a,
    InverseAxisAndBedTransform s tool
      (AxisAndBedTransform s tool useBedCompensation xyzPoint) a
    == xyzPoint a.
Proof.
  intros skewed Ht Hbx Hby Hok H0 H1 Hcase Hbed a.
  pose proof (AxisTransform_round_trip s tool xyzPoint Ht Hbx Hby) as Haxis.
  assert (Hz : skewed Z_AXIS = xyzPoint Z_AXIS).
  { apply AxisTransform_frame. left. now split. }
  unfold InverseAxisAndBedTransform, AxisAndBedTransform. fold skewed.
  rewrite <- (Haxis a). fold skewed.
  apply InverseAxisTransform_same_point.
  destruct Hbed as [-> | Hmesh].
  - destruct (BedTransform_round_trip s tool skewed Hok H0 H1) as [Hbed _].
    + now rewrite Hz.
    + exact Hbed.
  - intros b. unfold InverseBedTransform, BedTransform. rewrite Hmesh.
    destruct useBedCompensation; rewrite ?Hmesh; reflexivity.
Qed.

End AxisAndBedTransformFacts.

(** ** The limits of the pending extrusion *)

Lemma UpdateExtrusionPendingLimits_step (s : ExtrusionLimits) (e : Q) :
  (minExtrusionPending s <= maxExtrusionPending s)%Q ->
  let s' := UpdateExtrusionPendingLimits s e in
  (minExtrusionPending s' <= minExtrusionPending s)%Q /\
  (maxExtrusionPending s <= maxExtrusionPending s')%Q /\
  (minExtrusionPending s' <= e)%Q /\ (e <= maxExtrusionPending s')%Q.
Proof.
  intros H. unfold UpdateExtrusionPendingLimits.
  destruct (Qltb (maxExtrusionPending s) e) eqn:A.
  - apply Qltb_lt in A. simpl. repeat split; lra.
  - apply Qltb_ge in A.
    destruct (Qltb e (minExtrusionPending s)) eqn:B.
    + apply Qltb_lt in B. simpl. repeat split; lra.
    + apply Qltb_ge in B. simpl. repeat split; lra.
Qed.

(** X19.  The limits bracket every value reported.  Starting from limits
    with [minExtrusionPending <= maxExtrusionPending] (both start at 0),
    after any sequence of calls of [UpdateExtrusionPendingLimits] the
    minimum has not grown, the maximum has not shrunk, and every value that
    was passed lies between the two. *)
Theorem UpdateExtrusionPendingLimits_brackets_every_value
  (s : ExtrusionLimits) (values : list Q) :
  (minExtrusionPending s <= maxExtrusionPending s)%Q ->
  let s' := fold_left UpdateExtrusionPendingLimits values s in
  (minExtrusionPending s' <= minExtrusionPending s)%Q /\
  (maxExtrusionPending s <= maxExtrusionPending s')%Q /\
  (forall v, In v values ->
     (minExtrusionPending s' <= v)%Q /\ (v <= maxExtrusionPending s')%Q).
Proof.
  revert s. induction values as [| e values IH]; intros s H.
  - simpl. split; [lra |]. split; [lra |]. intros v [].
  - cbn [fold_left].
    destruct (UpdateExtrusionPendingLimits_step s e H) as (S1 & S2 & S3 & S4).
    destruct (IH (UpdateExtrusionPendingLimits s e)) as (I1 & I2 & I3).
    { lra. }
    cbv zeta in *. split; [lra |]. split; [lra |].
    intros v [<- | Hv].
    + split; lra.
    + now apply I3.
Qed.

(** ** The idle timeout *)

Lemma MoveLoop_idle_checks_when_idle (s : IdleTimer)
  (passes : list (bool * bool * Z)) :
  moveState s = MoveState_idle ->
  Forall (fun p => fst (fst p) = true) passes ->
  snd (MoveLoop_idle_checks s passes) = map (fun _ => false) passes.
Proof.
  revert s. induction passes as [| [[r np] t] passes IH]; intros s Hs Hall.
  - reflexivity.
  - inversion Hall as [| ? ? Hr Hall']; subst. simpl in Hr. subst r.
    cbn [MoveLoop_idle_checks]. unfold MoveLoop_idle_check. rewrite Hs. simpl.
    specialize (IH s Hs Hall').
    destruct (MoveLoop_idle_checks s passes) as [s2 calls]. simpl in *.
    now rewrite IH.
Qed.

Lemma nth_all_false (k : nat) (passes : list (bool * bool * Z)) :
  nth k (map (fun _ => false) passes) false = false.
Proof.
  revert k. induction passes as [| p passes IH]; intros [| k]; simpl; auto.
Qed.

(** The time elapsed on the millisecond clock since the idle timer was
    started, as the comparison in [MoveLoop] computes it. *)
Definition idle_elapsed (started : Z) (pass : bool * bool * Z) : Z :=
  wrap32 (snd pass - started).

Lemma MoveLoop_idle_checks_when_timing (timeout started : Z) :
  forall (passes : list (bool * bool * Z)) (k : nat),
    Forall (fun p => fst (fst p) = true) passes ->
    nth k (snd (MoveLoop_idle_checks
                  (mkIdleTimer MoveState_timing started timeout) passes))
        false = true
    <-> (k < length passes)%nat /\
        timeout <= idle_elapsed started (nth k passes (true, true, 0)) /\
        (forall j, (j < k)%nat ->
           idle_elapsed started (nth j passes (true, true, 0)) < timeout).
Proof.
  induction passes as [| [[r np] t] passes IH]; intros k Hall.
  - simpl. destruct k; split; try discriminate; intros [H _]; inversion H.
  - inversion Hall as [| ? ? Hr Hall']; subst. simpl in Hr. subst r.
    cbn [MoveLoop_idle_checks]. unfold MoveLoop_idle_check.
    cbn [moveState MoveState_eqb andb idleTimeout whenIdleTimerStarted].
    destruct (Z.leb_spec timeout (wrap32 (t - started))) as [Hle | Hlt];
      cbv beta iota.
    + (* the timeout has expired at this pass *)
      pose proof (MoveLoop_idle_checks_when_idle
                    (mkIdleTimer MoveState_idle started timeout) passes
                    eq_refl Hall') as Hidle.
      revert Hidle.
      destruct (MoveLoop_idle_checks
                  (mkIdleTimer MoveState_idle started timeout) passes)
        as [s2 calls].
      cbn [snd]. intros ->.
      destruct k as [| k]; cbn [nth].
      * split; [intros _ | reflexivity].
        split; [simpl; lia |]. split; [exact Hle |]. intros j Hj. lia.
      * rewrite nth_all_false. split; [discriminate |].
        intros (_ & _ & Hbefore). specialize (Hbefore 0%nat ltac:(lia)).
        unfold idle_elapsed in Hbefore. simpl in Hbefore. lia.
    + (* not yet *)
      destruct (MoveLoop_idle_checks
                  (mkIdleTimer MoveState_timing started timeout) passes)
        as [s2 calls] eqn:R.
      cbn [snd].
      destruct k as [| k]; cbn [nth].
      * split; [discriminate |]. intros (_ & Hk & _).
        unfold idle_elapsed in Hk. simpl in Hk. lia.
      * specialize (IH k Hall'). cbn [snd] in IH.
        rewrite IH. cbn [length]. split.
        -- intros (A & B & C). split; [lia |]. split; [exact B |].
           intros [| j] Hj; [unfold idle_elapsed; simpl; lia |].
           apply C. lia.
        -- intros (A & B & C). split; [lia |]. split; [exact B |].
           intros j Hj. apply (C (S j)). lia.
Qed.

(** X20.  The idle timeout.  Let the Move task be in state [executing]
    and let a pass of [MoveLoop], at clock reading [started], find the rings
    idle and the machine not paused; let the rings be idle at all the
    following [passes].  Then the first pass does not put the drivers into
    idle hold, and a later pass [k] does so if and only if it is the first
    pass at which the time elapsed since [started], computed modulo 2^32 as
    the code does, has reached [idleTimeout]: the drivers go to idle hold
    exactly once, and never before the timeout. *)
Theorem drivers_go_idle_once_when_the_idle_timeout_expires
  (s : IdleTimer) (started : Z) (passes : list (bool * bool * Z)) (k : nat) :
  moveState s = MoveState_executing ->
  Forall (fun p => fst (fst p) = true) passes ->
  let calls :=
    snd (MoveLoop_idle_checks s ((true, true, started) :: passes)) in
  nth 0 calls false = false /\
  (nth (S k) calls false = true
   <-> (k < length passes)%nat /\
       idleTimeout s <= idle_elapsed started (nth k passes (true, true, 0)) /\
       (forall j, (j < k)%nat ->
          idle_elapsed started (nth j passes (true, true, 0)) < idleTimeout s)).
Proof.
  intros Hs Hall calls.
  assert (E : calls
              = false :: snd (MoveLoop_idle_checks
                                (mkIdleTimer MoveState_timing started
                                             (idleTimeout s)) passes)).
  { unfold calls. cbn [MoveLoop_idle_checks]. unfold MoveLoop_idle_check.
    rewrite Hs. cbn [MoveState_eqb andb].
    destruct (MoveLoop_idle_checks
                (mkIdleTimer MoveState_timing started (idleTimeout s)) passes);
      reflexivity. }
  rewrite E. cbn [nth]. split; [reflexivity |].
  apply MoveLoop_idle_checks_when_timing. exact Hall.
Qed.

(** ** The aux move buffer *)

Lemma aux_run_while_locked (avail : bool) (ops : list AuxOp) :
  exists avail',
    fst (aux_run (mkAuxMove true avail) ops) = mkAuxMove true avail' /\
    snd (aux_run (mkAuxMove true avail) ops)
    = map (fun _ => false) (filter (fun o => match o with TryLock => true
                                                   | _ => false end) ops).
Proof.
  revert avail. induction ops as [| [| c] ops IH]; intros avail.
  - exists avail. now split.
  - cbn [aux_run]. unfold LockAuxMove. simpl.
    destruct (IH avail) as [avail' [I1 I2]].
    destruct (aux_run (mkAuxMove true avail) ops) as [s2 results].
    simpl in *. exists avail'. split; [exact I1 | now rewrite I2].
  - cbn [aux_run]. unfold MoveLoop_take_aux_move. simpl.
    destruct (c && avail); simpl; apply IH.
Qed.

(** X21.  The aux move buffer has one owner at a time.  [LockAuxMove]
    succeeds only when the buffer is neither locked nor holds a move that
    has not been taken.  After a successful [LockAuxMove], whatever further
    [LockAuxMove] calls and passes of the Move task follow, every one of
    these calls fails and the buffer stays locked.  After
    [ReleaseAuxMove(true)], as long as the Move task has not taken the
    move, every [LockAuxMove] fails and the move stays available; once the
    Move task has taken it, and likewise after [ReleaseAuxMove(false)],
    the next [LockAuxMove] succeeds. *)
Theorem the_aux_move_buffer_has_one_owner_at_a_time
  (s : AuxMove) (ops : list AuxOp) :
  let tries := filter (fun o => match o with TryLock => true | _ => false end)
                      ops in
  (fst (LockAuxMove s) = true ->
   auxMoveLocked s = false /\ auxMoveAvailable s = false /\
   snd (aux_run (snd (LockAuxMove s)) ops) = map (fun _ => false) tries /\
   auxMoveLocked (fst (aux_run (snd (LockAuxMove s)) ops)) = true) /\
  (Forall (fun o => o = TryLock \/ o = MoveTaskPass false) ops ->
   snd (aux_run (ReleaseAuxMove s true) ops) = map (fun _ => false) tries /\
   fst (aux_run (ReleaseAuxMove s true) ops) = mkAuxMove false true) /\
  LockAuxMove (snd (MoveLoop_take_aux_move (ReleaseAuxMove s true) true))
  = (true, mkAuxMove true false) /\
  LockAuxMove (ReleaseAuxMove s false) = (true, mkAuxMove true false).
Proof.
  intros tries. split; [| split; [| split; reflexivity]].
  - unfold LockAuxMove.
    destruct (auxMoveLocked s) eqn:L, (auxMoveAvailable s) eqn:A; simpl;
      try discriminate.
    intros _. split; [reflexivity |]. split; [reflexivity |].
    destruct (aux_run_while_locked false ops) as [avail' [R1 R2]].
    split; [exact R2 |]. now rewrite R1.
  - unfold ReleaseAuxMove. intros Hall. unfold tries. clear tries.
    induction ops as [| o ops IH]; [now split |].
    inversion Hall as [| ? ? Ho Hall']; subst.
    specialize (IH Hall'). destruct IH as [I1 I2].
    destruct Ho as [-> | ->]; cbn [aux_run filter map].
    + unfold LockAuxMove. simpl.
      destruct (aux_run (mkAuxMove false true) ops) as [s2 results].
      simpl in *. split; [now rewrite I1 | exact I2].
    + unfold MoveLoop_take_aux_move. simpl. now split.
Qed.

(** ** Reverting the position of drivers that overshot *)

(** The number of drivers below [driver] that [whichDrives] selects: the
    place of [driver]'s entry in [msg.finalStepCounts]. *)
Definition selected_before (whichDrives : Z) (driver : nat) : nat :=
  length (filter (fun d => Z.testbit whichDrives (Z.of_nat d)) (seq 0 driver)).

(** The driver went further than wanted, in the direction of the move. *)
Definition overshot (stepsWanted stepsTaken : Z) : Prop :=
  (0 <= stepsWanted /\ stepsWanted < stepsTaken)
  \/ (stepsWanted <= 0 /\ stepsTaken < stepsWanted).

Definition is_int32 (z : Z) : Prop := - half_modulus <= z < half_modulus.

Lemma selected_before_S (whichDrives : Z) (n : nat) :
  selected_before whichDrives (S n)
  = (selected_before whichDrives n
     + if Z.testbit whichDrives (Z.of_nat n) then 1 else 0)%nat.
Proof.
  unfold selected_before. rewrite seq_S, filter_app, length_app. simpl.
  now destruct (Z.testbit whichDrives (Z.of_nat n)).
Qed.

Lemma overshot_dec (w t : Z) :
  ((0 <=? w) && (w <? t)) || ((w <=? 0) && (t <? w)) = true <-> overshot w t.
Proof.
  unfold overshot.
  rewrite orb_true_iff, !andb_true_iff, !Z.leb_le, !Z.ltb_lt. tauto.
Qed.

Lemma RevertPosition_fold (whichDrives : Z)
  (finalStepCounts lastMoveStepsTaken : nat -> Z) (perDrive : nat -> Z) :
  (forall i, is_int32 (finalStepCounts i)) ->
  (forall d, - half_modulus < lastMoveStepsTaken d < half_modulus) ->
  forall n,
    let '(index, needSteps, perDrive') :=
      fold_left (RevertPosition_driver whichDrives finalStepCounts
                                       lastMoveStepsTaken)
                (seq 0 n) (0%nat, false, perDrive) in
    index = selected_before whichDrives n /\
    (forall d, (n <= d)%nat -> perDrive' d = perDrive d) /\
    (forall d, (d < n)%nat ->
       let wanted := finalStepCounts (selected_before whichDrives d) in
       let taken := lastMoveStepsTaken d in
       if Z.testbit whichDrives (Z.of_nat d)
       then (overshot wanted taken -> perDrive' d = wanted - taken)
            /\ (~ overshot wanted taken -> perDrive' d = 0)
       else perDrive' d = 0) /\
    (needSteps = true <->
     exists d, (d < n)%nat /\ Z.testbit whichDrives (Z.of_nat d) = true /\
               overshot (finalStepCounts (selected_before whichDrives d))
                        (lastMoveStepsTaken d)).
Proof.
  intros Hw Ht. induction n as [| n IH].
  - simpl. split; [reflexivity |]. split; [reflexivity |].
    split; [intros d Hd; lia |].
    split; [discriminate | intros [d [Hd _]]; lia].
  - rewrite seq_S, fold_left_app. cbn [fold_left Nat.add].
    destruct (fold_left _ (seq 0 n) _) as [[index needSteps] perDrive'].
    destruct IH as (I1 & I2 & I3 & I4).
    unfold RevertPosition_driver.
    rewrite selected_before_S.
    destruct (Z.testbit whichDrives (Z.of_nat n)) eqn:B.
    + subst index.
      set (w := finalStepCounts (selected_before whichDrives n)) in *.
      set (t := lastMoveStepsTaken n) in *.
      assert (Hsub : overshot w t -> to_int32 (w - t) = w - t).
      { intros Ho. apply to_int32_small.
        pose proof (Hw (selected_before whichDrives n)) as A.
        pose proof (Ht n) as C. fold w in A. fold t in C.
        unfold is_int32 in *. unfold overshot in Ho.
        rewrite half_modulus_eq in *. lia. }
      destruct (((0 <=? w) && (w <? t)) || ((w <=? 0) && (t <? w))) eqn:O.
      * apply overshot_dec in O.
        split; [lia |].
        split; [intros d Hd; rewrite upd_other by lia; apply I2; lia |].
        split.
        { intros d Hd. destruct (Nat.eq_dec d n) as [-> | Hne].
          - rewrite B, upd_same. fold w t. split; [intros _; now apply Hsub |].
            intros X. contradiction.
          - rewrite upd_other by exact Hne. apply I3. lia. }
        split; [intros _ | reflexivity].
        exists n. split; [lia |]. split; [exact B | exact O].
      * assert (Hno : ~ overshot w t).
        { intros X. apply overshot_dec in X. congruence. }
        split; [lia |].
        split; [intros d Hd; rewrite upd_other by lia; apply I2; lia |].
        split.
        { intros d Hd. destruct (Nat.eq_dec d n) as [-> | Hne].
          - rewrite B, upd_same. fold w t. split; [contradiction | reflexivity].
          - rewrite upd_other by exact Hne. apply I3. lia. }
        rewrite I4. split.
        -- intros [d [Hd X]]. exists d. split; [lia | exact X].
        -- intros [d [Hd [Hb X]]]. destruct (Nat.eq_dec d n) as [-> | Hne].
           ++ contradiction.
           ++ exists d. split; [lia | now split].
    + split; [lia |].
      split; [intros d Hd; rewrite upd_other by lia; apply I2; lia |].
      split.
      { intros d Hd. destruct (Nat.eq_dec d n) as [-> | Hne].
        - now rewrite B, upd_same.
        - rewrite upd_other by exact Hne. apply I3. lia. }
      rewrite I4. split.
      * intros [d [Hd X]]. exists d. split; [lia | exact X].
      * intros [d [Hd [Hb X]]]. destruct (Nat.eq_dec d n) as [-> | Hne].
        -- congruence.
        -- exists d. split; [lia | now split].
Qed.

(** X22.  [RevertPosition] takes back exactly the overshoot.  Let the
    wanted and the taken step counts be 32-bit values, the taken ones above
    the minimum.  For every driver below [numDrivers], with its wanted count
    taken from the entry of [finalStepCounts] that belongs to it (one entry
    per selected driver, in order): if the driver is selected and went
    beyond the wanted count, its steps are [wanted - taken], computed
    without overflow: they are not zero, lead exactly to the wanted count
    and reduce the distance from zero; in every other case its steps are 0.
    A move is added ([needSteps]) if and only if some driver gets steps. *)
Theorem RevertPosition_takes_back_exactly_the_overshoot
  (numDrivers : nat) (whichDrives : Z)
  (finalStepCounts lastMoveStepsTaken : nat -> Z) (perDrive : nat -> Z) :
  (forall i, is_int32 (finalStepCounts i)) ->
  (forall d, - half_modulus < lastMoveStepsTaken d < half_modulus) ->
  let needSteps :=
    fst (RevertPosition_steps numDrivers whichDrives finalStepCounts
                              lastMoveStepsTaken perDrive) in
  let steps :=
    snd (RevertPosition_steps numDrivers whichDrives finalStepCounts
                              lastMoveStepsTaken perDrive) in
  (forall d, (d < numDrivers)%nat ->
     let wanted := finalStepCounts (selected_before whichDrives d) in
     let taken := lastMoveStepsTaken d in
     (Z.testbit whichDrives (Z.of_nat d) = true /\ overshot wanted taken ->
      taken + steps d = wanted /\ steps d <> 0 /\ is_int32 (steps d) /\
      Z.abs (taken + steps d) < Z.abs taken) /\
     (~ (Z.testbit whichDrives (Z.of_nat d) = true /\ overshot wanted taken) ->
      steps d = 0)) /\
  (needSteps = true <-> exists d, (d < numDrivers)%nat /\ steps d <> 0).
Proof.
  intros Hw Ht needSteps steps.
  pose proof (RevertPosition_fold whichDrives finalStepCounts
                lastMoveStepsTaken perDrive Hw Ht numDrivers) as H.
  unfold needSteps, steps, RevertPosition_steps.
  destruct (fold_left _ (seq 0 numDrivers) _) as [[index need] perDrive'].
  destruct H as (_ & _ & H3 & H4). cbn [fst snd].
  assert (Hd : forall d, (d < numDrivers)%nat ->
            let wanted := finalStepCounts (selected_before whichDrives d) in
            let taken := lastMoveStepsTaken d in
            (Z.testbit whichDrives (Z.of_nat d) = true /\ overshot wanted taken ->
             perDrive' d = wanted - taken) /\
            (~ (Z.testbit whichDrives (Z.of_nat d) = true
                /\ overshot wanted taken) -> perDrive' d = 0)).
  { intros d Hlt wanted taken. specialize (H3 d Hlt). cbv zeta in H3.
    fold wanted taken in H3.
    destruct (Z.testbit whichDrives (Z.of_nat d)).
    - destruct H3 as [A B]. split.
      + intros [_ O]. now apply A.
      + intros N. apply B. intros O. apply N. now split.
    - split; [intros [X _]; discriminate | intros _; exact H3]. }
  split.
  - intros d Hlt. destruct (Hd d Hlt) as [A B].
    set (wanted := finalStepCounts (selected_before whichDrives d)) in *.
    set (taken := lastMoveStepsTaken d) in *.
    split; [| exact B].
    intros HO. rewrite (A HO). destruct HO as [_ O].
    pose proof (Hw (selected_before whichDrives d)) as Rw.
    pose proof (Ht d) as Rt. fold wanted in Rw. fold taken in Rt.
    cbv zeta in A. unfold is_int32, overshot in *. rewrite half_modulus_eq in *.
    repeat split; lia.
  - rewrite H4. split.
    + intros [d [Hlt [Hb O]]]. exists d. split; [exact Hlt |].
      destruct (Hd d Hlt) as [A _]. rewrite (A (conj Hb O)).
      unfold overshot in O. lia.
    + intros [d [Hlt Hnz]]. exists d. split; [exact Hlt |].
      destruct (Hd d Hlt) as [_ B].
      destruct (Z.testbit whichDrives (Z.of_nat d)) eqn:Bd.
      * split; [reflexivity |].
        destruct (overshot_dec (finalStepCounts (selected_before whichDrives d))
                               (lastMoveStepsTaken d)) as [_ _].
        destruct (((0 <=? finalStepCounts (selected_before whichDrives d))
                   && (finalStepCounts (selected_before whichDrives d)
                       <? lastMoveStepsTaken d))
                  || ((finalStepCounts (selected_before whichDrives d) <=? 0)
                      && (lastMoveStepsTaken d
                          <? finalStepCounts (selected_before whichDrives d))))
          eqn:O.
        -- now apply overshot_dec.
        -- exfalso. apply Hnz, B. intros [_ X]. apply overshot_dec in X.
           congruence.
      * exfalso. apply Hnz, B. intros [X _]. discriminate.
Qed.

(** * A concrete machine *)

Module Example.

(** A drive with the given number, link, step time, state and
    [checkEndstops] flag; [nextStep] doubles as the net step count. *)
Definition ex_dm (drv : nat) (nxt : DMPtr) (t : Z) (s : DMState)
  (endstops : bool) : DriveMovement :=
  mkDM drv nxt t s (mkFlags endstops 0) true false None 0.

Arguments ex_dm drv%_nat nxt t%_Z s%_nat endstops.

(** Every step comes 1000 ticks after the one before; after three steps the
    drive has finished. *)
Definition ex_CalcNextStepTime (d : DriveMovement) : DriveMovement :=
  mkDM (drive d) (nextDM d) (wrap32 (nextStepTime d + 1000))
       (if 2 <=? nextStep d then 0%nat else state d) (segmentFlags d)
       (direction d) (directionChanged d) (segments d) (nextStep d + 1).

(** Scheduling fails, and leaves the drive in an error state, when the first
    step time is 0. *)
Definition ex_ScheduleFirstSegment (d : DriveMovement) : bool * DriveMovement :=
  if nextStepTime d =? 0 then (false, with_state d 1%nat)
  else (true, with_state d 4%nat).

Definition ex_AddSegment (d : DriveMovement) (c : SegmentArgs) : DriveMovement :=
  mkDM (drive d) (nextDM d) (nextStepTime d) (state d) (arg_flags c)
       (direction d) (directionChanged d) (Some 0%nat) (nextStep d).

(** An endstop poll that stops the drive at the head of the active list. *)
Definition ex_CheckEndstops (m : Move) : Move * bool :=
  match activeDMs m with
  | Some i =>
      (upd_dm (set_activeDMs m (nextDM (dms m i))) i
              (fun d => with_state d 0%nat), true)
  | None => (m, false)
  end.

#[export] Instance ex_env : Env := {|
  idle := 0%nat;
  firstMotionState := 4%nat;
  CalcNextStepTime := ex_CalcNextStepTime;
  ScheduleFirstSegment := ex_ScheduleFirstSegment;
  AddSegment := ex_AddSegment;
  GetNetStepsTaken := nextStep;
  IsPrintingExtruderMovement := fun _ => true;
  CalcNextStepTime_nextDM := fun _ => eq_refl;
  MaxStepInterruptTime := 100;
  HiccupTime := 30;
  HiccupIncrement := 10;
  GetDriversBitmap := fun i => Z.shiftl 1 (Z.of_nat i);
  GetSlowDriversBitmap := 4;
  SUPPORT_SLOW_DRIVERS := true;
  SUPPORT_CAN_EXPANSION := true;
  InExpansionMode := false;
  CheckEndstops := ex_CheckEndstops;
  GetNumImpulses := 2%nat;
  GetImpulseSize := fun _ => fdiv (float_of_Z 1) (float_of_Z 2);
  GetImpulseDelay := fun i => 100 * Z.of_nat i;
  TimerTicks := fun k => 5000 + 200 * Z.of_nat k;
  CallbackAlreadyDue := fun h _ => movementDelay h <? 50
|}.

Definition ex_move (f : nat -> DriveMovement) (head : DMPtr) : Move :=
  mkMove f head (fun _ => 0) 0 0 0 0 false 255.

Definition ex_hw : Hw := mkHw 0 0 [].

(** Drives 0 and 1 are in the active list, due at 100 and at 300; drive 2 is
    due at 200 and not in the list; drive 5 is moving but not in the list. *)
Definition two_active : Move :=
  ex_move (fun i =>
             match i with
             | 0%nat => ex_dm 0 (Some 1%nat) 100 4 true
             | 1%nat => ex_dm 1 None 300 4 false
             | 2%nat => ex_dm 2 None 200 4 false
             | 5%nat => ex_dm 5 None 700 4 false
             | _ => ex_dm i None 0 0 false
             end) (Some 0%nat).

(** Drives 0 and 1 have just stepped and are cut off from the list, which is
    now drive 2 alone; drive 0 is in an error state (2), drive 1 is moving;
    drive 3 has no segments. *)
Definition after_step : Move :=
  ex_move (fun i =>
             match i with
             | 0%nat => ex_dm 0 (Some 1%nat) 1100 2 false
             | 1%nat => ex_dm 1 (Some 2%nat) 1300 4 false
             | 2%nat => ex_dm 2 None 1200 4 false
             | _ => ex_dm i None 0 0 false
             end) (Some 2%nat).

(** Three drives in the list, all due at 100: drive 0 is in a state (2)
    that is neither idle nor a motion state, drive 1 is about to take its
    last step, and drive 2 goes on moving. *)
Definition three_due : Move :=
  ex_move (fun i =>
             match i with
             | 0%nat => ex_dm 0 (Some 1%nat) 100 2 false
             | 1%nat => mkDM 1 (Some 2%nat) 100 4%nat (mkFlags false 0) true
                             false None 2
             | 2%nat => ex_dm 2 None 100 4 false
             | _ => ex_dm i None 0 0 false
             end) (Some 0%nat).






(** A move of 10 mm: from rest to 50 mm/s at 500 mm/s^2 and back. *)
Definition ex_dda : DDA :=
  mkDDA (float_of_Z 10) (float_of_Z 0) (float_of_Z 50) (float_of_Z 500)
        (float_of_Z 500).

(** Acceleration over the first 2.5 mm, deceleration from 7.5 mm on. *)
Definition ex_params : PrepParams :=
  mkPrep 75000 75000 75000 (fdiv (float_of_Z 5) (float_of_Z 2))
         (fdiv (float_of_Z 15) (float_of_Z 2)).

Definition ex_steps : float := float_of_Z 800.

(** A pool with two segments on the free list. *)
Definition ex_pool : SegmentPool :=
  mkPool (fun i => match i with
                   | 0%nat => mkSeg (Some 1%nat) 0
                   | _ => mkSeg None 0
                   end) (Some 0%nat) 2 2.

End Example.

(** * The theorems at concrete inputs *)

Import Example.

Ltac in_range := unfold is_uint32; simpl; split; [lia | reflexivity].

Example InsertDM_example :
  option_map (active_list_of 5) (InsertDM 5 two_active 2)
  = Some (Some [0; 2; 1]%nat).
Proof. vm_compute. reflexivity. Qed.

Example DeactivateDM_example :
  option_map (active_list_of 5) (DeactivateDM 5 two_active 0)
  = Some (Some [1%nat]).
Proof. vm_compute. reflexivity. Qed.

Example StepDrivers_example :
  option_map (fun r => (active_list_of 5 (fst r), events (snd r)))
             (StepDrivers 5 two_active ex_hw 5000)
  = Some (Some [1%nat],
          [CheckEndstopsCalled; WakeAsyncSender; StepDriversHigh 2;
           StepDriversLow 2]).
Proof. vm_compute. reflexivity. Qed.

Example unshaped_example :
  map (fun c => (arg_startTime c, arg_duration c))
      (AddLinearSegments_calls ex_dda 1000 ex_params ex_steps false flags_Clear)
  = [(1000, 75000); (76000, 75000); (151000, 75000)].
Proof. vm_compute. reflexivity. Qed.

Example Allocate_from_free_list_example :
  fst (Allocate ex_pool (Some 7%nat)) = Some 0%nat /\
  freeList (snd (Allocate ex_pool (Some 7%nat))) = Some 1%nat /\
  next (segs (snd (Allocate ex_pool (Some 7%nat))) 0%nat) = Some 7%nat /\
  numCreated (snd (Allocate ex_pool (Some 7%nat))) = 2.
Proof. repeat split. Qed.

Example Allocate_new_example :
  let empty := mkPool (segs ex_pool) None 2 2 in
  fst (Allocate empty None) = Some 2%nat /\
  numCreated (snd (Allocate empty None)) = 3.
Proof. repeat split. Qed.

Example GetAccumulatedExtrusion_example :
  let m := set_movementAccumulators
             (upd_dm two_active 1 (fun d => ex_CalcNextStepTime d))
             (fun _ => 40) in
  fst (fst (GetAccumulatedExtrusion m 1)) = 41 /\
  movementAccumulators (snd (GetAccumulatedExtrusion m 1)) 1%nat = -1 /\
  fst (fst (GetAccumulatedExtrusion (snd (GetAccumulatedExtrusion m 1)) 1)) = 0.
Proof. repeat split. Qed.

Example Interrupt_example :
  option_map (fun r => (numHiccups (fst r), movementDelay (snd r),
                        events (snd r)))
             (Interrupt 5 6 two_active ex_hw)
  = Some (1, 70,
          [CheckEndstopsCalled; WakeAsyncSender; StepDriversHigh 2;
           StepDriversLow 2; MovementDelayIncreased 30;
           MovementDelayIncreased 40; CallbackScheduled 1300;
           InsertHiccup 70]).
Proof. vm_compute. reflexivity. Qed.

Lemma two_active_list : active_list two_active [0; 1]%nat.
Proof. repeat split. Qed.




Lemma unshaped_segments_form_a_contiguous_trapezoid_witness :
  AddLinearSegments 5 5 two_active ex_hw ex_dda 2 1000 ex_params ex_steps false
                    flags_Clear
  = AddLinearSegments_schedule 5 5
      (AddSegment_calls two_active 2
         (trapezoid_spec ex_dda 1000 ex_params
                         (fdiv ex_steps (totalDistance ex_dda)) flags_Clear))
      ex_hw 2 (segments (dms two_active 2%nat)) /\
  contiguous (trapezoid_spec ex_dda 1000 ex_params
                             (fdiv ex_steps (totalDistance ex_dda)) flags_Clear).
Proof.
  destruct (unshaped_segments_form_a_contiguous_trapezoid
              5 5 two_active ex_hw ex_dda 2 1000 ex_params ex_steps flags_Clear)
    as (H1 & _ & _ & _ & H2).
  - in_range.
  - in_range.
  - in_range.
  - in_range.
  - split; [exact H1 | exact H2].
Defined.

Lemma StepDrivers_checks_endstops_before_pulses_witness :
  exists m' h' pre post,
    StepDrivers 5 two_active ex_hw 150 = Some (m', h') /\
    events h' = CheckEndstopsCalled :: pre ++ StepDriversHigh 2 :: post /\
    quiet pre /\ Forall no_pulse_or_poll post.
Proof.
  destruct (StepDrivers_checks_endstops_before_pulses
              5 two_active ex_hw 150 [0; 1]%nat [1%nat])
    as (_ & _ & _ & _ & m' & h' & H1 & H2).
  - exact two_active_list.
  - simpl. lia.
  - intros _. split; [repeat split | simpl; lia].
  - destruct H2 as [(pre & post & H2 & H3 & H4) _].
    exists m', h', pre, post. repeat split; assumption.
Defined.

(** The state in which the first pass of [StepDrivers] in [Interrupt] leaves
    [two_active]: the ISR has read the clock once, as 5000. *)
Definition stepped : Move * Hw :=
  match StepDrivers 5 two_active (snd (GetMovementTimerTicks ex_hw)) 5000 with
  | Some r => r
  | None => (two_active, ex_hw)
  end.

Lemma Interrupt_hiccup_recovery_witness :
  exists m' h',
    Interrupt 5 6 two_active ex_hw = Some (m', h') /\
    m' = set_numHiccups (fst stepped) 1 /\
    movementDelay h' = 70 /\
    events h'
    = events (snd stepped)
      ++ [MovementDelayIncreased 30; MovementDelayIncreased 40;
          CallbackScheduled 1300; InsertHiccup 70].
Proof.
  destruct (Interrupt_hiccup_recovery
              5 5 0 two_active two_active (fst stepped)
              ex_hw (snd (GetMovementTimerTicks ex_hw)) (snd stepped)
              5000 1 1)
    as (m' & h' & H1 & H2 & _ & H3 & H4 & _).
  - discriminate.
  - reflexivity.
  - vm_compute. reflexivity.
  - vm_compute. reflexivity.
  - vm_compute. reflexivity.
  - vm_compute. discriminate.
  - intros j Hj. assert (j = 0%nat) as -> by lia. vm_compute. reflexivity.
  - vm_compute. reflexivity.
  - lia.
  - exists m', h'. split; [exact H1 |]. split; [exact H2 |].
    split; [exact H3 | exact H4].
Defined.

(** C5 as stated fails in its last part: a hiccup does not move the step
    time.  [Interrupt] on [two_active] ends in a hiccup, and the step time
    of the head of the list, drive 1, is 1300 after it as it was when
    [StepDrivers] returned; the callback is scheduled for that same
    time. *)
Lemma hiccup_keeps_nextStepTime_counterexample :
  exists m' h',
    Interrupt 5 6 two_active ex_hw = Some (m', h') /\
    numHiccups two_active = 0 /\ numHiccups m' = 1 /\
    activeDMs (fst stepped) = Some 1%nat /\ activeDMs m' = Some 1%nat /\
    nextStepTime (dms (fst stepped) 1%nat) = 1300 /\
    nextStepTime (dms m' 1%nat) = 1300 /\
    In (CallbackScheduled 1300) (events h').
Proof.
  eexists. eexists. split; [vm_compute; reflexivity |].
  repeat split; try reflexivity.
  simpl. intuition.
Qed.

Lemma step_errors_are_counted_and_local_witness :
  (exists m' h' a',
     StepDrivers 5 three_due ex_hw 150 = Some (m', h') /\
     active_list m' a' /\
     stepErrors m' = 1 /\
     state (dms m' 0%nat) = idle /\ ~ In 0%nat a' /\
     In 2%nat a' /\ ~ In 1%nat a') /\
  (exists m',
     AddLinearSegments 5 5 after_step ex_hw ex_dda 3 0 ex_params ex_steps false
                       flags_Clear = Some (m', ex_hw) /\
     stepErrors m' = 1 /\ state (dms m' 3%nat) = idle /\
     activeDMs m' = Some 2%nat).
Proof.
  destruct (step_errors_are_counted_and_local
              5 5 three_due ex_hw 150 [0; 1; 2]%nat []
              ex_dda 3 0 ex_params ex_steps false flags_Clear) as [H1 _].
  destruct (step_errors_are_counted_and_local
              5 5 after_step ex_hw 150 [2%nat] []
              ex_dda 3 0 ex_params ex_steps false flags_Clear) as [_ H2].
  split.
  - destruct H1 as (m' & h' & a' & R1 & R2 & _ & R4 & R5 & _ & _ & R8 & R9 & _).
    + repeat split.
    + simpl. lia.
    + intros H. vm_compute in H. discriminate H.
    + exists m', h', a'. split; [exact R1 |]. split; [exact R2 |].
      split; [rewrite R4; vm_compute; reflexivity |].
      destruct (R5 0%nat) as [S1 S2];
        [vm_compute; now left | vm_compute; reflexivity |].
      split; [exact S1 |]. split; [exact S2 |].
      split.
      * apply (R8 2%nat); [vm_compute; right; right; now left
                          | vm_compute; reflexivity].
      * apply (R9 1%nat); [vm_compute; right; now left
                          | vm_compute; reflexivity].
  - destruct H2 as (m' & A1 & A2 & A3 & A4 & _).
    + reflexivity.
    + vm_compute. reflexivity.
    + vm_compute. discriminate.
    + exists m'. split; [exact A1 |]. split; [exact A2 |].
      split; [exact A3 | exact A4].
Defined.

(** C6 as stated fails for a stepped drive that has finished.  In
    [three_due] the three drives are due together; drive 0 is in error, and
    drive 1, another drive of the due chain, becomes idle with its last
    step: it is not put back into the active list, which is drive 2 alone
    afterwards, and no error is counted for it. *)
Lemma finished_drive_is_not_reinserted_counterexample :
  exists m' h',
    active_list three_due [0; 1; 2]%nat /\
    due_prefix three_due 150 [0; 1; 2]%nat = [0; 1; 2]%nat /\
    StepDrivers 5 three_due ex_hw 150 = Some (m', h') /\
    stepErrors three_due = 0 /\ stepErrors m' = 1 /\
    state (dms m' 0%nat) = idle /\
    state (dms m' 1%nat) = idle /\
    active_list m' [2%nat].
Proof.
  eexists. eexists. split; [repeat split |].
  split; [vm_compute; reflexivity |].
  split; [vm_compute; reflexivity |].
  split; [reflexivity |]. split; [reflexivity |].
  split; [reflexivity |]. split; [reflexivity |].
  repeat split.
Qed.

Lemma DeactivateDM_removes_and_idles_witness :
  (exists m' l1 l2,
     DeactivateDM 5 two_active 1 = Some m' /\
     [0; 1]%nat = l1 ++ 1%nat :: l2 /\
     active_list m' (l1 ++ l2) /\
     ~ In 1%nat (l1 ++ l2) /\
     state (dms m' 1%nat) = idle /\
     (forall j, j <> 1%nat -> same_but_link (dms two_active j) (dms m' j)) /\
     same_counters two_active m') /\
  DeactivateDM 5 two_active 5 = Some two_active.
Proof.
  destruct (DeactivateDM_removes_and_idles two_active 1 [0; 1]%nat 5)
    as [H1 _]; [exact two_active_list | simpl; lia |].
  destruct (DeactivateDM_removes_and_idles two_active 5 [0; 1]%nat 5)
    as [_ H2]; [exact two_active_list | simpl; lia |].
  split.
  - apply H1. right. now left.
  - apply H2. simpl. intros [H | [H | []]]; discriminate H.
Defined.

(** C7 as stated fails for a drive that is not in the active list: drive 5
    of [two_active] is in a motion state and not in the list, and
    [DeactivateDM] leaves its state alone. *)
Lemma DeactivateDM_leaves_unlisted_drive_counterexample :
  exists m',
    DeactivateDM 5 two_active 5 = Some m' /\
    active_list two_active [0; 1]%nat /\
    state (dms m' 5%nat) <> idle.
Proof.
  exists two_active. split; [reflexivity |].
  split; [exact two_active_list |]. vm_compute. discriminate.
Qed.



(** ** Further concrete inputs *)

Module MoreExamples.

(** [two_active] with a segment already attached to drive 1. *)
Definition with_segments : Move :=
  upd_dm two_active 1
         (fun d => ex_AddSegment d (mkArgs 0 0 (float_of_Z 0) (float_of_Z 0)
                                            (float_of_Z 0) flags_Clear)).

(** A timer whose movement delay lets a callback be scheduled. *)
Definition delayed_hw : Hw := mkHw 0 60 [].

(** The state in which [Interrupt] leaves [two_active]. *)
Definition interrupted : Move * Hw :=
  match Interrupt 5 6 two_active ex_hw with
  | Some r => r
  | None => (two_active, ex_hw)
  end.

(** A pool with the segments 0 and 1 on the free list and the segments 2
    and 3 in use, chained together. *)
Definition used_pool : SegmentPool :=
  mkPool (fun i => match i with
                   | 0%nat => mkSeg (Some 1%nat) 0
                   | 2%nat => mkSeg (Some 3%nat) 7
                   | _ => mkSeg None 0
                   end) (Some 0%nat) 4 4.

Definition ex_settings : DriveSettings :=
  mkSettings (fun _ => 0x8010) (fun _ => 80%Q).

(** Bitmaps as integers, a single Cartesian tool without offsets, three
    visible axes and a height error that grows along X. *)
#[export] Instance ex_geometry : Geometry := {|
  AxesBitmap := Z;
  IsBitSet := fun b a => Z.testbit b (Z.of_nat a);
  LowestSetBit := fun b => Z.to_nat (Z.log2 (Z.land b (- b)));
  Iterate := fun b => filter (fun a => Z.testbit b (Z.of_nat a)) (seq 0 32);
  Tool := unit;
  GetXAxes := fun _ => 1;
  GetYAxes := fun _ => 2;
  GetAxisMapping := fun _ axis => Z.shiftl 1 (Z.of_nat axis);
  GetOffset := fun _ _ => 0%Q;
  Z_AXIS := 2%nat;
  GetVisibleAxes := 3%nat;
  GetAxisNumber := fun i => i;
  GetInterpolatedHeightError := fun x y => (x / 10)%Q
|}.

Definition ex_tool : @Tool ex_geometry := tt.

(** Skew in the YZ and XZ planes only, mesh compensation without taper. *)
Definition ex_comp : Compensation :=
  mkComp (fun i => match i with
                   | 0%nat => 0%Q
                   | 1%nat => (1 # 100)%Q
                   | _ => (1 # 50)%Q
                   end) true true false 0 0 (1 # 10).

(** Skew in all three planes. *)
Definition ex_skewed : Compensation :=
  mkComp (fun i => match i with
                   | 0%nat => (1 # 10)%Q
                   | 1%nat => (1 # 100)%Q
                   | _ => (1 # 50)%Q
                   end) true false false 0 0 0.

Definition ex_point : nat -> Q :=
  fun i => match i with 0%nat => 10%Q | 1%nat => 20%Q | _ => 1%Q end.

Definition ex_idle_timer : IdleTimer :=
  mkIdleTimer MoveState_executing 0 30000.

Definition ex_passes : list (bool * bool * Z) :=
  [(true, true, 11000); (true, false, 31000); (true, true, 32000)].

Definition ex_finalStepCounts : nat -> Z :=
  fun i => match i with 0%nat => 100 | 1%nat => -50 | _ => 0 end.

Definition ex_lastMoveStepsTaken : nat -> Z :=
  fun d => match d with 0%nat => 120 | 2%nat => -40 | _ => 7 end.

End MoreExamples.
Import MoreExamples.

Lemma InsertDM_then_DeactivateDM_restores_the_list_witness :
  exists m1 m2,
    InsertDM 5 two_active 2 = Some m1 /\
    DeactivateDM 5 m1 2 = Some m2 /\
    active_list m2 [0; 1]%nat /\
    (forall j, j <> 2%nat -> dms m2 j = dms two_active j).
Proof.
  destruct (InsertDM_then_DeactivateDM_restores_the_list
              two_active 2 [0; 1]%nat 5)
    as (m1 & m2 & nxt & H1 & H2 & H3 & _ & H5 & _).
  - exact two_active_list.
  - simpl. intros [H | [H | []]]; discriminate H.
  - simpl. lia.
  - exists m1, m2. split; [exact H1 |]. split; [exact H2 |].
    split; [exact H3 | exact H5].
Defined.

Lemma AddLinearSegments_with_pending_segments_leaves_the_schedule_witness :
  exists m',
    AddLinearSegments 5 5 with_segments ex_hw ex_dda 1 1000 ex_params ex_steps
                      false flags_Clear = Some (m', ex_hw) /\
    activeDMs m' = activeDMs with_segments.
Proof.
  destruct (AddLinearSegments_with_pending_segments_leaves_the_schedule
              5 5 with_segments ex_hw ex_dda 1 1000 ex_params ex_steps false
              flags_Clear) as (m' & H1 & H2 & _).
  - vm_compute. discriminate.
  - exists m'. split; assumption.
Defined.

Lemma AddLinearSegments_schedules_a_new_drive_in_order_witness :
  exists m' l1 l2,
    AddLinearSegments 5 5 two_active delayed_hw ex_dda 2 1000 ex_params ex_steps
                      false flags_Clear
    = Some (m', match l1 with
                | [] => emit delayed_hw (CallbackScheduled 200)
                | _ :: _ => delayed_hw
                end) /\
    [0; 1]%nat = l1 ++ l2 /\
    active_list m' (l1 ++ 2%nat :: l2) /\
    active_sorted m' (l1 ++ 2%nat :: l2).
Proof.
  destruct (AddLinearSegments_schedules_a_new_drive_in_order
              5 5 two_active delayed_hw ex_dda 2 1000 ex_params ex_steps false
              flags_Clear [0; 1]%nat
              (snd (ScheduleFirstSegment
                      (fold_left AddSegment
                         (AddLinearSegments_calls ex_dda 1000 ex_params ex_steps
                                                  false flags_Clear)
                         (dms two_active 2%nat)))))
    as (m' & l1 & l2 & H1 & H2 & H3 & H4 & _).
  - exact two_active_list.
  - simpl. intros [H | [H | []]]; discriminate H.
  - repeat constructor. vm_compute. discriminate.
  - simpl. lia.
  - reflexivity.
  - vm_compute. reflexivity.
  - vm_compute. reflexivity.
  - exists m', l1, l2. repeat split; assumption.
Defined.

Lemma AddLinearSegments_does_not_insert_a_listed_drive_again_witness :
  exists m',
    AddLinearSegments 5 5 two_active ex_hw ex_dda 0 1000 ex_params ex_steps
                      false flags_Clear = Some (m', ex_hw) /\
    active_list m' [0; 1]%nat.
Proof.
  destruct (AddLinearSegments_does_not_insert_a_listed_drive_again
              5 5 two_active ex_hw ex_dda 0 1000 ex_params ex_steps false
              flags_Clear [0; 1]%nat
              (snd (ScheduleFirstSegment
                      (fold_left AddSegment
                         (AddLinearSegments_calls ex_dda 1000 ex_params ex_steps
                                                  false flags_Clear)
                         (dms two_active 0%nat)))))
    as (m' & H1 & H2 & _).
  - exact two_active_list.
  - now left.
  - simpl. lia.
  - reflexivity.
  - vm_compute. reflexivity.
  - vm_compute. reflexivity.
  - exists m'. split; assumption.
Defined.

Lemma StepDrivers_with_nothing_due_changes_nothing_witness :
  StepDrivers 5 two_active ex_hw 50
  = Some (two_active,
          emit (emit ex_hw (StepDriversHigh 0)) (StepDriversLow 0)).
Proof.
  apply (StepDrivers_with_nothing_due_changes_nothing 5 two_active ex_hw 50).
  - intros i [= <-]. vm_compute. reflexivity.
  - lia.
Defined.

Lemma StepDrivers_steps_each_due_drive_once_witness :
  exists m' h' a',
    StepDrivers 5 after_step ex_hw 1250 = Some (m', h') /\
    active_list m' a' /\
    Permutation a' [2%nat] /\
    nextStepTime (dms m' 2%nat) = 2200 /\ nextStep (dms m' 2%nat) = 1.
Proof.
  destruct (StepDrivers_steps_each_due_drive_once
              5 after_step ex_hw 1250 [2%nat])
    as (m' & h' & a' & H1 & H2 & H3 & H4 & _).
  - repeat split.
  - simpl. lia.
  - reflexivity.
  - exists m', h', a'. split; [exact H1 |]. split; [exact H2 |].
    split; [exact H3 |].
    destruct (H4 2%nat) as [(_ & T & _ & _ & _ & N) _]; [now left |].
    split; [rewrite T | rewrite N]; reflexivity.
Defined.

Lemma Interrupt_leaves_the_timer_armed_or_wakes_the_move_task_witness :
  ends_with_callback (events (snd interrupted)) 1300.
Proof.
  exact (Interrupt_leaves_the_timer_armed_or_wakes_the_move_task
           5 6 two_active (fst interrupted) ex_hw (snd interrupted) eq_refl).
Defined.

Lemma ReleaseAll_returns_the_chain_to_the_free_list_witness :
  exists pool',
    ReleaseAll 5 used_pool (Some 2%nat) = Some pool' /\
    free_list pool' [3; 2; 0; 1]%nat /\
    numCreated pool' = 4.
Proof.
  destruct (ReleaseAll_returns_the_chain_to_the_free_list
              5 used_pool (Some 2%nat) [2; 3]%nat [0; 1]%nat)
    as (pool' & H1 & H2 & _ & H4 & _).
  - repeat split.
  - repeat split.
  - simpl. intros x [<- | [<- | []]] [H | [H | []]]; discriminate H.
  - simpl. lia.
  - exists pool'. split; [exact H1 |]. split; [exact H2 | exact H4].
Defined.

Lemma released_segments_are_allocated_again_before_new_ones_witness :
  exists pool',
    ReleaseAll 5 used_pool (Some 2%nat) = Some pool' /\
    fst (Allocate_repeatedly 2 pool') = [Some 3%nat; Some 2%nat] /\
    numCreated (snd (Allocate_repeatedly 2 pool')) = 4.
Proof.
  destruct (released_segments_are_allocated_again_before_new_ones
              5 used_pool (Some 2%nat) [2; 3]%nat [0; 1]%nat)
    as (pool' & H1 & H2 & _ & H4 & _).
  - repeat split.
  - repeat split.
  - simpl. intros x [<- | [<- | []]] [H | [H | []]]; discriminate H.
  - simpl. lia.
  - exists pool'. split; [exact H1 |]. split; [exact H2 | exact H4].
Defined.

Lemma microstepping_round_trip_witness :
  GetMicrostepping_interpolation
    (snd (SetMicrostepping (fun _ _ _ => true) ex_settings 1 32 false)) 1
  = (32, false).
Proof.
  apply (microstepping_round_trip (fun _ _ _ => true) ex_settings 1 32 false).
  lia.
Defined.

Lemma InverseAxisTransform_residual_on_a_Cartesian_tool_witness :
  (InverseAxisTransform ex_skewed ex_tool
     (AxisTransform ex_skewed ex_tool ex_point) 0%nat
   == 10 - (1 # 1000))%Q.
Proof.
  destruct (InverseAxisTransform_residual_on_a_Cartesian_tool
              ex_skewed ex_tool ex_point) as (_ & _ & _ & H).
  - reflexivity.
  - reflexivity.
  - reflexivity.
  - reflexivity.
  - intros [| [| [| a]]] Ha; try reflexivity; lia.
  - intros [| [| [| a]]] Ha; try reflexivity; lia.
  - simpl in H. destruct H as [H _]. rewrite H. reflexivity.
Defined.

Lemma InverseAxisTransform_undoes_AxisTransform_without_XY_skew_witness :
  (InverseAxisTransform ex_comp ex_tool
     (AxisTransform ex_comp ex_tool ex_point) 0%nat
   == 10)%Q.
Proof.
  destruct (InverseAxisTransform_undoes_AxisTransform_without_XY_skew
              ex_comp ex_tool ex_point) as [H _].
  apply H; reflexivity.
Defined.

Lemma InverseBedTransform_undoes_BedTransform_witness :
  (InverseBedTransform (SetTaperHeight ex_comp 5) ex_tool
     (BedTransform (SetTaperHeight ex_comp 5) ex_tool ex_point) 2%nat
   == 1)%Q.
Proof.
  destruct (InverseBedTransform_undoes_BedTransform
              (SetTaperHeight ex_comp 5) ex_tool ex_point) as [H _].
  - intros _. split; reflexivity.
  - vm_compute. intros [H | []]. discriminate H.
  - vm_compute. intros [H | []]. discriminate H.
  - intros _ _. reflexivity.
  - exact (H 2%nat).
Defined.

Lemma InverseAxisAndBedTransform_undoes_AxisAndBedTransform_witness :
  (InverseAxisAndBedTransform (SetTaperHeight ex_comp 5) ex_tool
     (AxisAndBedTransform (SetTaperHeight ex_comp 5) ex_tool true ex_point)
     2%nat
   == 1)%Q.
Proof.
  apply (InverseAxisAndBedTransform_undoes_AxisAndBedTransform
           (SetTaperHeight ex_comp 5) ex_tool true ex_point).
  - reflexivity.
  - reflexivity.
  - reflexivity.
  - intros _. split; reflexivity.
  - vm_compute. intros [H | []]. discriminate H.
  - vm_compute. intros [H | []]. discriminate H.
  - intros _ _. reflexivity.
  - now left.
Defined.

Lemma UpdateExtrusionPendingLimits_brackets_every_value_witness :
  (minExtrusionPending
     (fold_left UpdateExtrusionPendingLimits [3; -2; 1]%Q (mkLimits 0 0))
   <= -2)%Q /\
  (3 <= maxExtrusionPending
          (fold_left UpdateExtrusionPendingLimits [3; -2; 1]%Q (mkLimits 0 0)))%Q.
Proof.
  destruct (UpdateExtrusionPendingLimits_brackets_every_value
              (mkLimits 0 0) [3; -2; 1]%Q) as (_ & _ & H).
  - simpl. lra.
  - split.
    + apply (H (-2)%Q). right. now left.
    + apply (H 3%Q). now left.
Defined.

Lemma drivers_go_idle_once_when_the_idle_timeout_expires_witness :
  nth 2 (snd (MoveLoop_idle_checks ex_idle_timer
                                   ((true, true, 1000) :: ex_passes)))
      false = true.
Proof.
  destruct (drivers_go_idle_once_when_the_idle_timeout_expires
              ex_idle_timer 1000 ex_passes 1) as [_ H].
  - reflexivity.
  - repeat constructor.
  - apply H. split; [simpl; lia |]. split.
    + vm_compute. discriminate.
    + intros j Hj. assert (j = 0%nat) as -> by lia. vm_compute. reflexivity.
Defined.

Lemma RevertPosition_takes_back_exactly_the_overshoot_witness :
  snd (RevertPosition_steps 3 5 ex_finalStepCounts ex_lastMoveStepsTaken
                            (fun _ => 0)) 0%nat = -20 /\
  fst (RevertPosition_steps 3 5 ex_finalStepCounts ex_lastMoveStepsTaken
                            (fun _ => 0)) = true.
Proof.
  destruct (RevertPosition_takes_back_exactly_the_overshoot
              3 5 ex_finalStepCounts ex_lastMoveStepsTaken (fun _ => 0))
    as [H1 H2].
  - intros i. unfold is_int32, ex_finalStepCounts. rewrite half_modulus_eq.
    destruct i as [| [| i]]; simpl; lia.
  - intros d. unfold ex_lastMoveStepsTaken. rewrite half_modulus_eq.
    destruct d as [| [| [| d]]]; simpl; lia.
  - split.
    + destruct (H1 0%nat ltac:(lia)) as [A _].
      destruct A as (A & _).
      * split; [reflexivity | left; simpl; lia].
      * change (ex_lastMoveStepsTaken 0) with 120 in A.
        change (ex_finalStepCounts (selected_before 5 0)) with 100 in A. lia.
    + apply H2. exists 0%nat. split; [lia |]. vm_compute. discriminate.
Defined.
